(** * Device management layer of the DRA CPU driver

    A shallow embedding of [pkg/device] (the Individual-Core, Socket-Grouped
    and NUMA-Grouped device managers, their attribute builders and shared
    constants) and of the claim preparation path of [pkg/driver].

    Conventions of the embedding:
    - Go [int] and [int64] values are integers of [Z]; the conversions
      [int64(x)] and [int(x)] between them are the identity on the 64-bit
      platforms the driver targets.
    - [cpuset.CPUSet] is a finite set of integers, [gset Z].
    - Go maps are [gmap]s; an index expression [m[k]] on a missing key
      yields the zero value of the element type, which is written out.
    - A method that mutates its receiver returns the updated receiver.
    - The order in which the Go runtime visits a map, which the language
      leaves unspecified, is an explicit argument of the functions that
      range over one. *)

From Stdlib Require Import Ascii String.
From stdpp Require Import gmap strings list fin_maps sorting pretty.

Open Scope Z_scope.

Abbreviation CPUSet := (gset Z).

(** ** Constants ([pkg/device/consts.go]) *)

Definition maxDevicesPerResourceSlice : nat := 128.
Definition cpuDevicePrefix : string := "cpudev".
Definition cpuResourceQualifiedName : string := "dra.cpu/cpu".
Definition cpuDeviceSocketGroupedPrefix : string := "cpudevsocket".
Definition cpuDeviceNUMAGroupedPrefix : string := "cpudevnuma".

(** ** Topology description ([pkg/cpuinfo], consumed) *)

(** Modelled from the spec: the declaration of [cpuinfo.CPUInfo] is not among
    the sources.  The fields are the ones the managers read; the core type is
    "represented as text", so [CoreType] holds the text that
    [cpu.CoreType.String()] renders. *)
Record CPUInfo := mkCPUInfo {
  CpuID : Z;
  CoreID : Z;
  SocketID : Z;
  NUMANodeID : Z;
  UncoreCacheID : Z;
  SiblingCpuID : Z;
  CoreType : string
}.

#[global] Instance CPUInfo_eq_dec : EqDecision CPUInfo.
Proof. solve_decision. Defined.

(** The Go zero value of [CPUInfo], which [cpuInfoMap[k]] yields for a
    missing key [k]. *)
Definition zeroCPUInfo : CPUInfo := mkCPUInfo 0 0 0 0 0 0 "".

(** Modelled from the spec: the declaration of [cpuinfo.CPUTopology] is not
    among the sources: an SMT-enabled flag and a mapping from CPU ID to CPU
    descriptor. *)
Record CPUTopology := mkCPUTopology {
  SMTEnabled : bool;
  CPUDetails : gmap Z CPUInfo
}.

(** [cpuset.CPUSet.List]: the members in ascending order. *)
Definition CPUSet_List (s : CPUSet) : list Z := merge_sort Z.le (elements s).

(** [cpuset.CPUSet.Size]. *)
Definition CPUSet_Size (s : CPUSet) : Z := Z.of_nat (size s).

(** Modelled from the spec: the derived queries of the topology ("list of
    socket IDs, list of NUMA node IDs, CPU set within a given socket, CPU set
    within a given NUMA node") are not among the sources. *)
Definition Sockets (d : gmap Z CPUInfo) : CPUSet := map_img (SocketID <$> d).
Definition NUMANodes (d : gmap Z CPUInfo) : CPUSet := map_img (NUMANodeID <$> d).
Definition CPUsInSockets (d : gmap Z CPUInfo) (id : Z) : CPUSet :=
  dom (filter (λ kv, SocketID kv.2 = id) d).
Definition CPUsInNUMANodes (d : gmap Z CPUInfo) (id : Z) : CPUSet :=
  dom (filter (λ kv, NUMANodeID kv.2 = id) d).

(** The sequence in which a [range] over [topo.CPUDetails] may yield the
    values: any arrangement of the entries of the map. *)
Definition range_of (d : gmap Z CPUInfo) (visit : list CPUInfo) : Prop :=
  visit ≡ₚ (map_to_list d).*2.

(** What [CPUSet.UnsortedList] may return: any arrangement of the members. *)
Definition unsorted_list_of (ul : CPUSet → list Z) : Prop :=
  ∀ s, ul s ≡ₚ elements s.

(** ** Published devices ([resourceapi.Device]) *)

Inductive DeviceAttribute :=
  | IntValue (v : Z)
  | StringValue (s : string)
  | BoolValue (b : bool).

#[global] Instance DeviceAttribute_eq_dec : EqDecision DeviceAttribute.
Proof. solve_decision. Defined.

(** A [resource.Quantity] built by [NewQuantity(v, DecimalSI)] is held as the
    integer [v] that [Quantity.Value] gives back. *)
Record Device := mkDevice {
  Name : string;
  Attributes : gmap string DeviceAttribute;
  Capacity : gmap string Z;
  AllowMultipleAllocations : option bool
}.

(** ** Resource claims ([resourceapi.ResourceClaim]) *)

Record DeviceRequestAllocationResult := mkAllocResult {
  Request : string;
  Driver : string;
  Pool : string;
  Device_ : string;
  ConsumedCapacity : gmap string Z
}.

(** [claim.Status.Allocation] is a pointer: [None] is the nil pointer. *)
Record ResourceClaim := mkClaim {
  Namespace : string;
  ClaimName : string;
  UID : string;
  Allocation : option (list DeviceRequestAllocationResult)
}.

(** The errors the layer builds with [fmt.Errorf], one constructor per
    message format, and the errors handed through from collaborators. *)
Inductive error :=
  | ErrDeviceNotFound (device : string)
      (* "device %q not found in device to CPU ID map" *)
  | ErrNoSocketID (device : string)
      (* "no valid socket ID found for device %s" *)
  | ErrNoNUMANodeID (device : string)
      (* "no valid NUMA node ID found for device %s" *)
  | ErrNoAllocation (namespace name : string)
      (* "claim %s/%s has no allocation" *)
  | ErrExternal (msg : string).

(** The outcome of a Go call: it returns a value, or the goroutine panics. *)
Inductive outcome (A : Type) :=
  | Returned (a : A)
  | Panicked.
Arguments Returned {A} a.
Arguments Panicked {A}.

(** ** Formatting: [fmt.Sprintf("%s%03d", prefix, n)] *)

Fixpoint zeros (k : nat) : string :=
  match k with
  | O => ""
  | S k' => String "0" (zeros k')
  end.

Definition zero_pad (width : nat) (s : string) : string :=
  zeros (width - String.length s) +:+ s.

(** The verb [%03d]: decimal, padded with zeros to a width of three, the sign
    counted in the width and written before the padding. *)
Definition fmt_03d (n : Z) : string :=
  if decide (n < 0) then "-" +:+ zero_pad 2 (pretty (Z.to_N (- n)))
  else zero_pad 3 (pretty (Z.to_N n)).

Definition deviceNameOf (prefix : string) (n : Z) : string :=
  prefix +:+ fmt_03d n.

(** ** Slicing: [slices.Collect(slices.Chunk(s, n))] *)

Fixpoint Chunk_go {A} (fuel n : nat) (s : list A) : list (list A) :=
  match fuel with
  | O => []
  | S fuel' =>
      match s with
      | [] => []
      | _ => take n s :: Chunk_go fuel' n (drop n s)
      end
  end.

(** [slices.Chunk] yields [s[i:min(i+n, len(s))]] for [i = 0, n, 2n, ...];
    every round consumes an element when [n >= 1], so [length s] rounds
    are enough. *)
Definition Chunk {A} (n : nat) (s : list A) : list (list A) :=
  Chunk_go (length s) n s.

(** ** [sort.Slice] with the comparison [key(a[i]) < key(a[j])]

    [sort.Slice] promises a sorted arrangement of the slice and leaves the
    order of elements with equal keys open.  It is modelled by a merge sort;
    on a slice whose keys are pairwise distinct every sorting algorithm
    returns this same result. *)

Definition keyLe {A} (key : A → Z) : relation A := λ a b, key a ≤ key b.

#[global] Instance keyLe_dec {A} (key : A → Z) : RelDecision (keyLe key).
Proof. intros a b. unfold keyLe. apply _. Defined.

Definition sortSlice {A} (key : A → Z) (s : list A) : list A :=
  merge_sort (keyLe key) s.

(** ** Attribute builders ([pkg/device]) *)

Definition MakeIndividualAttributes (cpu : CPUInfo) : gmap string DeviceAttribute :=
  let numaNode := NUMANodeID cpu in
  let cacheL3ID := UncoreCacheID cpu in
  let socketID := SocketID cpu in
  let coreID := CoreID cpu in
  let cpuID := CpuID cpu in
  let coreType := CoreType cpu in
  list_to_map [
    ("dra.cpu/numaNodeID", IntValue numaNode);
    ("dra.cpu/cacheL3ID", IntValue cacheL3ID);
    ("dra.cpu/coreType", StringValue coreType);
    ("dra.cpu/socketID", IntValue socketID);
    ("dra.cpu/coreID", IntValue coreID);
    ("dra.cpu/cpuID", IntValue cpuID);
    ("dra.net/numaNode", IntValue numaNode)
  ].

Definition MakeGroupedAttributes (topo : CPUTopology) (socketID : Z)
    (allocatableCPUs : CPUSet) : gmap string DeviceAttribute :=
  let smtEnabled := SMTEnabled topo in
  let availableCPUs := CPUSet_Size allocatableCPUs in
  list_to_map [
    ("dra.cpu/socketID", IntValue socketID);
    ("dra.cpu/numCPUs", IntValue availableCPUs);
    ("dra.cpu/smtEnabled", BoolValue smtEnabled)
  ].

(** Reading a Go [map[int]bool]: a missing key reads as [false]. *)
Definition readBool (m : gmap Z bool) (k : Z) : bool := default false (m !! k).

(** ** The Individual-Core manager ([pkg/device], the per-core strategy) *)

Module IndividualCore.

Record Manager := mkManager {
  driverName : string;
  cpuTopology : CPUTopology;
  reservedCPUs : CPUSet;
  deviceNameToCPUID : gmap string Z
}.

Definition NewIndividualCoreManager (name : string) (topo : CPUTopology)
    (resv : CPUSet) : Manager :=
  mkManager name topo resv ∅.

(** The state of the grouping loop: [processedCpus] and [coreGroups]. *)
Definition groupStep (reserved : gmap Z bool) (cpuInfoMap : gmap Z CPUInfo)
    (st : gmap Z bool * list (list CPUInfo)) (cpu : CPUInfo)
    : gmap Z bool * list (list CPUInfo) :=
  let '(processedCpus, coreGroups) := st in
  if readBool processedCpus (CpuID cpu) then st
  else if bool_decide (SiblingCpuID cpu = -1) || readBool reserved (SiblingCpuID cpu) then
    (<[CpuID cpu := true]> processedCpus, coreGroups ++ [[cpu]])
  else
    (<[SiblingCpuID cpu := true]> (<[CpuID cpu := true]> processedCpus),
     coreGroups ++ [[cpu; default zeroCPUInfo (cpuInfoMap !! SiblingCpuID cpu)]]).

(** The key [coreGroups[i][0].CpuID] of the second sort; no group is empty. *)
Definition groupKey (group : list CPUInfo) : Z :=
  match group with
  | cpu :: _ => CpuID cpu
  | [] => 0
  end.

(** The device built for [cpu] under the name of index [devId]. *)
Definition cpuDevice (devId : Z) (cpu : CPUInfo) : Device :=
  {| Name := deviceNameOf cpuDevicePrefix devId;
     Attributes := MakeIndividualAttributes cpu;
     Capacity := ∅;
     AllowMultipleAllocations := None |}.

(** The state of the emitting loops: [devId], the index and [allDevices]. *)
Definition emitStep (st : Z * gmap string Z * list Device) (cpu : CPUInfo)
    : Z * gmap string Z * list Device :=
  let '(devId, index, allDevices) := st in
  let deviceName := deviceNameOf cpuDevicePrefix devId in
  (devId + 1, <[deviceName := CpuID cpu]> index, allDevices ++ [cpuDevice devId cpu]).

(** The map [reservedCPUs] built from [mgr.reservedCPUs.List()]. *)
Definition reservedMap (resv : CPUSet) : gmap Z bool :=
  foldl (λ m cpuID, <[cpuID := true]> m) ∅ (CPUSet_List resv).

(** The first half of [CreateSlices], up to the sorted [coreGroups].
    [visit] is the sequence in which the range over [topo.CPUDetails] yields
    the CPUs. *)
Definition coreGroups (visit : list CPUInfo) (resv : CPUSet) : list (list CPUInfo) :=
  let reserved := reservedMap resv in
  let allCPUs := visit in
  let availableCPUs := filter (λ cpu, readBool reserved (CpuID cpu) = false) visit in
  let availableCPUs := sortSlice CpuID availableCPUs in
  let cpuInfoMap :=
    foldl (λ m info, <[CpuID info := info]> m) (∅ : gmap Z CPUInfo) allCPUs in
  let coreGroups :=
    (foldl (groupStep reserved cpuInfoMap) (∅, []) availableCPUs).2 in
  sortSlice groupKey coreGroups.

Definition CreateSlices (visit : list CPUInfo) (mgr : Manager)
    : list (list Device) * Manager :=
  let coreGroups := coreGroups visit (reservedCPUs mgr) in
  let '(_, index, allDevices) :=
    foldl (λ st group, foldl emitStep st group)
          (0, deviceNameToCPUID mgr, []) coreGroups in
  let mgr' := mkManager (driverName mgr) (cpuTopology mgr) (reservedCPUs mgr) index in
  if decide (length allDevices = 0%nat) then ([], mgr')
  else (Chunk maxDevicesPerResourceSlice allDevices, mgr').

(** The loop of [AllocateCPUs] over the allocation results. *)
Fixpoint resolve (mgr : Manager) (results : list DeviceRequestAllocationResult)
    (claimCPUIDs : list Z) : CPUSet * option error :=
  match results with
  | [] =>
      if decide (length claimCPUIDs = 0%nat) then (∅, None)
      else (list_to_set claimCPUIDs, None)
  | alloc :: rest =>
      if decide (Driver alloc ≠ driverName mgr) then resolve mgr rest claimCPUIDs
      else match deviceNameToCPUID mgr !! Device_ alloc with
           | None => (∅, Some (ErrDeviceNotFound (Device_ alloc)))
           | Some cpuID => resolve mgr rest (claimCPUIDs ++ [cpuID])
           end
  end.

(** [claim.Status.Allocation.Devices.Results] dereferences the allocation
    pointer: a nil pointer panics. *)
Definition AllocateCPUs (mgr : Manager) (claim : ResourceClaim)
    : outcome (CPUSet * option error) :=
  match Allocation claim with
  | None => Panicked
  | Some results => Returned (resolve mgr results [])
  end.

End IndividualCore.

(** ** The packing primitive ([cpumanager.TakeByTopologyNUMAPacked], consumed)

    The managers call it with the topology, a pool and a count (the sorting
    strategy and the cache alignment flag are constants of the call sites);
    it returns a CPU set and an error.  The grouped managers take it as an
    argument. *)
Definition PackingPrimitive : Type := CPUTopology → CPUSet → Z → CPUSet * option error.

(** Modelled from the spec: the packing primitive is not among the sources.
    "Given a pool and a required count, returns an exact-size topology-aware
    CPU selection or fails", the failure being "pool smaller than N".  This
    instance selects the lowest IDs of the pool; it serves where a concrete
    primitive is needed. *)
Definition takeLowest : PackingPrimitive := λ _ pool n,
  if decide (CPUSet_Size pool < n)
  then (∅, Some (ErrExternal "not enough cpus available to satisfy request"))
  else (list_to_set (take (Z.to_nat n) (CPUSet_List pool)), None).

(** ** The Socket-Grouped manager ([pkg/device], the per-socket strategy)

    [getSharedCPUs] is a callback into the allocation store, whose answer may
    change between two calls: [getSharedCPUs mgr k] is the answer to the
    [k]-th call (counted from 0) made during one claim resolution. *)

Module SocketGrouped.

Record Manager := mkManager {
  driverName : string;
  cpuTopology : CPUTopology;
  reservedCPUs : CPUSet;
  getSharedCPUs : nat → CPUSet;
  deviceNameToSocketID : gmap string Z
}.

Definition NewSocketGroupedManager (name : string) (topo : CPUTopology)
    (resv : CPUSet) (getSharedCPUs : nat → CPUSet) : Manager :=
  mkManager name topo resv getSharedCPUs ∅.

(** One round of the loop over the socket IDs; the state is the index and
    [devices]. *)
Definition sliceStep (mgr : Manager) (st : gmap string Z * list Device)
    (socketIDInt : Z) : gmap string Z * list Device :=
  let '(index, devices) := st in
  let socketID := socketIDInt in
  let deviceName := deviceNameOf cpuDeviceSocketGroupedPrefix socketIDInt in
  let socketCPUSet := CPUsInSockets (CPUDetails (cpuTopology mgr)) socketIDInt in
  let allocatableCPUs := socketCPUSet ∖ reservedCPUs mgr in
  let availableCPUsInSocket := CPUSet_Size allocatableCPUs in
  if decide (CPUSet_Size allocatableCPUs = 0) then st
  else
    let deviceCapacity : gmap string Z :=
      {[ cpuResourceQualifiedName := availableCPUsInSocket ]} in
    (<[deviceName := socketIDInt]> index,
     devices ++ [ {| Name := deviceName;
                     Attributes := MakeGroupedAttributes (cpuTopology mgr) socketID allocatableCPUs;
                     Capacity := deviceCapacity;
                     AllowMultipleAllocations := Some true |} ]).

Definition CreateSlices (mgr : Manager) : list (list Device) * Manager :=
  let socketIDs := CPUSet_List (Sockets (CPUDetails (cpuTopology mgr))) in
  let '(index, devices) :=
    foldl (sliceStep mgr) (deviceNameToSocketID mgr, []) socketIDs in
  let mgr' := mkManager (driverName mgr) (cpuTopology mgr) (reservedCPUs mgr)
                        (getSharedCPUs mgr) index in
  if decide (length devices = 0%nat) then ([], mgr')
  else ([devices], mgr').

(** The loop of [AllocateCPUs]; [calls] counts the calls of [getSharedCPUs]
    made so far. *)
Fixpoint resolve (take : PackingPrimitive) (mgr : Manager)
    (results : list DeviceRequestAllocationResult) (calls : nat)
    (cpuAssignment : CPUSet) : CPUSet * option error :=
  match results with
  | [] =>
      if decide (CPUSet_Size cpuAssignment = 0) then (∅, None)
      else (cpuAssignment, None)
  | alloc :: rest =>
      let claimCPUCount := 0 in
      if decide (Driver alloc ≠ driverName mgr)
      then resolve take mgr rest calls cpuAssignment
      else
        let claimCPUCount :=
          match ConsumedCapacity alloc !! cpuResourceQualifiedName with
          | Some quantity => quantity
          | None => claimCPUCount
          end in
        match deviceNameToSocketID mgr !! Device_ alloc with
        | None => (∅, Some (ErrNoSocketID (Device_ alloc)))
        | Some socketID =>
            let socketCPUs := CPUsInSockets (CPUDetails (cpuTopology mgr)) socketID in
            let availableCPUsForDevice := getSharedCPUs mgr calls ∩ socketCPUs in
            match take (cpuTopology mgr) availableCPUsForDevice claimCPUCount with
            | (_, Some err) => (∅, Some err)
            | (cur, None) => resolve take mgr rest (S calls) (cpuAssignment ∪ cur)
            end
        end
  end.

Definition AllocateCPUs (take : PackingPrimitive) (mgr : Manager)
    (claim : ResourceClaim) : outcome (CPUSet * option error) :=
  match Allocation claim with
  | None => Panicked
  | Some results => Returned (resolve take mgr results 0 ∅)
  end.

End SocketGrouped.

(** ** The NUMA-Grouped manager ([pkg/device/grouped_numa.go], the per-NUMA-node strategy) *)

Module NUMAGrouped.

Record Manager := mkManager {
  driverName : string;
  cpuTopology : CPUTopology;
  reservedCPUs : CPUSet;
  getSharedCPUs : nat → CPUSet;
  deviceNameToNUMANodeID : gmap string Z
}.

Definition NewNUMAGroupedManager (name : string) (topo : CPUTopology)
    (resv : CPUSet) (getSharedCPUs : nat → CPUSet) : Manager :=
  mkManager name topo resv getSharedCPUs ∅.

(** One round of the loop over the NUMA node IDs.  [UnsortedList] is the
    arrangement in which [CPUSet.UnsortedList] lists a set; its element 0 is
    read only of a set that is not empty. *)
Definition sliceStep (UnsortedList : CPUSet → list Z) (mgr : Manager)
    (st : gmap string Z * list Device) (numaIDInt : Z)
    : gmap string Z * list Device :=
  let '(index, devices) := st in
  let numaID := numaIDInt in
  let deviceName := deviceNameOf cpuDeviceNUMAGroupedPrefix numaIDInt in
  let numaNodeCPUSet := CPUsInNUMANodes (CPUDetails (cpuTopology mgr)) numaIDInt in
  let allocatableCPUs := numaNodeCPUSet ∖ reservedCPUs mgr in
  let availableCPUsInNUMANode := CPUSet_Size allocatableCPUs in
  if decide (CPUSet_Size allocatableCPUs = 0) then st
  else
    let anyCPU := default 0 (head (UnsortedList allocatableCPUs)) in
    let socketID :=
      SocketID (default zeroCPUInfo (CPUDetails (cpuTopology mgr) !! anyCPU)) in
    let deviceCapacity : gmap string Z :=
      {[ cpuResourceQualifiedName := availableCPUsInNUMANode ]} in
    let deviceAttributes := MakeGroupedAttributes (cpuTopology mgr) socketID allocatableCPUs in
    let deviceAttributes := <["dra.cpu/numaNodeID" := IntValue numaID]> deviceAttributes in
    let deviceAttributes := <["dra.net/numaNode" := IntValue numaID]> deviceAttributes in
    (<[deviceName := numaIDInt]> index,
     devices ++ [ {| Name := deviceName;
                     Attributes := deviceAttributes;
                     Capacity := deviceCapacity;
                     AllowMultipleAllocations := Some true |} ]).

Definition CreateSlices (UnsortedList : CPUSet → list Z) (mgr : Manager)
    : list (list Device) * Manager :=
  let numaNodeIDs := CPUSet_List (NUMANodes (CPUDetails (cpuTopology mgr))) in
  let '(index, devices) :=
    foldl (sliceStep UnsortedList mgr) (deviceNameToNUMANodeID mgr, []) numaNodeIDs in
  let mgr' := mkManager (driverName mgr) (cpuTopology mgr) (reservedCPUs mgr)
                        (getSharedCPUs mgr) index in
  if decide (length devices = 0%nat) then ([], mgr')
  else ([devices], mgr').

Fixpoint resolve (take : PackingPrimitive) (mgr : Manager)
    (results : list DeviceRequestAllocationResult) (calls : nat)
    (cpuAssignment : CPUSet) : CPUSet * option error :=
  match results with
  | [] =>
      if decide (CPUSet_Size cpuAssignment = 0) then (∅, None)
      else (cpuAssignment, None)
  | alloc :: rest =>
      let claimCPUCount := 0 in
      if decide (Driver alloc ≠ driverName mgr)
      then resolve take mgr rest calls cpuAssignment
      else
        let claimCPUCount :=
          match ConsumedCapacity alloc !! cpuResourceQualifiedName with
          | Some quantity => quantity
          | None => claimCPUCount
          end in
        match deviceNameToNUMANodeID mgr !! Device_ alloc with
        | None => (∅, Some (ErrNoNUMANodeID (Device_ alloc)))
        | Some numaNodeID =>
            let numaCPUs := CPUsInNUMANodes (CPUDetails (cpuTopology mgr)) numaNodeID in
            let availableCPUsForDevice := getSharedCPUs mgr calls ∩ numaCPUs in
            match take (cpuTopology mgr) availableCPUsForDevice claimCPUCount with
            | (_, Some err) => (∅, Some err)
            | (cur, None) => resolve take mgr rest (S calls) (cpuAssignment ∪ cur)
            end
        end
  end.

Definition AllocateCPUs (take : PackingPrimitive) (mgr : Manager)
    (claim : ResourceClaim) : outcome (CPUSet * option error) :=
  match Allocation claim with
  | None => Panicked
  | Some results => Returned (resolve take mgr results 0 ∅)
  end.

End NUMAGrouped.

(** ** The driver's claim preparation ([pkg/driver]) *)

(** The device manager capability [{CreateSlices, AllocateCPUs}] with its
    three strategies. *)
Inductive DeviceManager :=
  | IndividualCoreMgr (mgr : IndividualCore.Manager)
  | SocketGroupedMgr (mgr : SocketGrouped.Manager)
  | NUMAGroupedMgr (mgr : NUMAGrouped.Manager).

Definition DeviceManager_AllocateCPUs (take : PackingPrimitive)
    (devMgr : DeviceManager) (claim : ResourceClaim)
    : outcome (CPUSet * option error) :=
  match devMgr with
  | IndividualCoreMgr mgr => IndividualCore.AllocateCPUs mgr claim
  | SocketGroupedMgr mgr => SocketGrouped.AllocateCPUs take mgr claim
  | NUMAGroupedMgr mgr => NUMAGrouped.AllocateCPUs take mgr claim
  end.

Record PreparedDevice := mkPreparedDevice {
  PoolName : string;
  DeviceName : string;
  CDIDeviceIDs : list string;
  Requests : list string
}.

Record PrepareResult := mkPrepareResult {
  Devices : list PreparedDevice;
  Err : option error
}.

(** The collaborators of the driver that are not among the sources: the CDI
    manager's [AddDevice], the rendering [CPUSet.String], and the constants
    [cdiEnvVarPrefix], [cdiVendor] and [cdiClass]. *)
Record Collaborators := mkCollaborators {
  TakeByTopologyNUMAPacked : PackingPrimitive;
  cdiAddDevice : string → string → option error;
  CPUSet_String : CPUSet → string;
  cdiEnvVarPrefix : string;
  cdiVendor : string;
  cdiClass : string
}.

(** Modelled from the spec: the allocation store is not among the sources;
    [cpuAllocationStore] holds the CPU set recorded for each claim UID and
    [AddResourceClaimAllocation] records one. *)
Record CPUDriver := mkCPUDriver {
  devMgr : DeviceManager;
  cpuAllocationStore : gmap string CPUSet
}.

Definition getCDIDeviceName (uid : string) : string := "claim-" +:+ uid.

Definition prepareResourceClaim (ext : Collaborators) (cp : CPUDriver)
    (claim : ResourceClaim) : outcome (PrepareResult * CPUDriver) :=
  match Allocation claim with
  | None =>
      Returned ({| Devices := [];
                   Err := Some (ErrNoAllocation (Namespace claim) (ClaimName claim)) |}, cp)
  | Some results =>
      match DeviceManager_AllocateCPUs (TakeByTopologyNUMAPacked ext) (devMgr cp) claim with
      | Panicked => Panicked
      | Returned (_, Some err) => Returned ({| Devices := []; Err := Some err |}, cp)
      | Returned (claimCPUSet, None) =>
          let cp' := mkCPUDriver (devMgr cp)
                       (<[UID claim := claimCPUSet]> (cpuAllocationStore cp)) in
          let deviceName := getCDIDeviceName (UID claim) in
          let envVar := cdiEnvVarPrefix ext +:+ "_" +:+ UID claim +:+ "="
                          +:+ CPUSet_String ext claimCPUSet in
          match cdiAddDevice ext deviceName envVar with
          | Some err => Returned ({| Devices := []; Err := Some err |}, cp')
          | None =>
              let qualifiedName :=
                cdiVendor ext +:+ "/" +:+ cdiClass ext +:+ "=" +:+ deviceName in
              let preparedDevices :=
                (λ allocResult,
                   {| PoolName := Pool allocResult;
                      DeviceName := Device_ allocResult;
                      CDIDeviceIDs := [qualifiedName];
                      Requests := [Request allocResult] |}) <$> results in
              Returned ({| Devices := preparedDevices; Err := None |}, cp')
          end
      end
  end.

(** ** The compatibility attributes ([pkg/device]) *)


(** ** Publishing the catalog and preparing batches ([pkg/driver]) *)

(** [cp.devMgr.CreateSlices]: the method of the strategy the driver holds.
    [visit] and [UnsortedList] are the orders the runtime takes, as in the
    managers. *)
Definition DeviceManager_CreateSlices (visit : list CPUInfo)
    (UnsortedList : CPUSet → list Z) (devMgr : DeviceManager)
    : list (list Device) * DeviceManager :=
  match devMgr with
  | IndividualCoreMgr mgr =>
      let '(chunks, mgr') := IndividualCore.CreateSlices visit mgr in
      (chunks, IndividualCoreMgr mgr')
  | SocketGroupedMgr mgr =>
      let '(chunks, mgr') := SocketGrouped.CreateSlices mgr in
      (chunks, SocketGroupedMgr mgr')
  | NUMAGroupedMgr mgr =>
      let '(chunks, mgr') := NUMAGrouped.CreateSlices UnsortedList mgr in
      (chunks, NUMAGroupedMgr mgr')
  end.

(** [resourceslice.Slice] and [resourceslice.DriverResources]: the pools by
    name, each a sequence of slices. *)
Record Slice := mkSlice { SliceDevices : list Device }.

(** [PublishResources]: what the driver hands to the kubelet plugin, [None]
    when it returns without publishing; the error of the plugin is logged
    and not returned.  [nodeName] is the field [cp.nodeName]. *)
Definition PublishResources (nodeName : string) (visit : list CPUInfo)
    (UnsortedList : CPUSet → list Z) (cp : CPUDriver)
    : option (gmap string (list Slice)) * CPUDriver :=
  let '(deviceChunks, devMgr') :=
    DeviceManager_CreateSlices visit UnsortedList (devMgr cp) in
  let cp' := mkCPUDriver devMgr' (cpuAllocationStore cp) in
  match deviceChunks with
  | [] => (None, cp')
  | _ =>
      let slices := (λ chunk, mkSlice chunk) <$> deviceChunks in
      (Some {[ nodeName := slices ]}, cp')
  end.

(** The loop of [PrepareResourceClaims] over the claims. *)
Fixpoint prepareLoop (ext : Collaborators) (cp : CPUDriver)
    (claims : list ResourceClaim) (result : gmap string PrepareResult)
    : outcome (gmap string PrepareResult * CPUDriver) :=
  match claims with
  | [] => Returned (result, cp)
  | claim :: rest =>
      match prepareResourceClaim ext cp claim with
      | Panicked => Panicked
      | Returned (r, cp') => prepareLoop ext cp' rest (<[UID claim := r]> result)
      end
  end.

(** [PrepareResourceClaims] returns the results by claim UID and an error. *)
Definition PrepareResourceClaims (ext : Collaborators) (cp : CPUDriver)
    (claims : list ResourceClaim)
    : outcome (gmap string PrepareResult * option error * CPUDriver) :=
  let result : gmap string PrepareResult := ∅ in
  if decide (length claims = 0%nat) then Returned (result, None, cp)
  else match prepareLoop ext cp claims result with
       | Panicked => Panicked
       | Returned (result, cp') => Returned (result, None, cp')
       end.

(** * Vocabulary of the properties *)

(** ** Device names *)

Definition is_digit (c : ascii) : Prop :=
  c ∈ ["0"; "1"; "2"; "3"; "4"; "5"; "6"; "7"; "8"; "9"]%char.

Fixpoint all_digits (s : string) : Prop :=
  match s with
  | EmptyString => True
  | String c s' => is_digit c ∧ all_digits s'
  end.

(** The decimal rendering has no leading zero, except for zero itself. *)
Definition canonical (s : string) : Prop :=
  s ≠ "" ∧ ∀ r, s = String "0" r → r = "".

(** ** Orders *)

Definition keyLt {A} (key : A → Z) : relation A := λ a b, key a < key b.

(** The sequence [map_to_list] lists the topology in: one of the orders a
    range over it may take. *)
Definition visitOf (topo : CPUTopology) : list CPUInfo :=
  (map_to_list (CPUDetails topo)).*2.

(** ** Well-formed topologies and the grouping by physical core *)

(** A topology description is well formed when every entry is filed under
    its own CPU ID, IDs are not negative (the sentinel [-1] names no CPU),
    and a sibling ID other than the sentinel names another CPU of the
    topology whose sibling is this one. *)
Definition wf_cpu (d : gmap Z CPUInfo) (k : Z) (c : CPUInfo) : Prop :=
  CpuID c = k ∧ 0 ≤ k ∧
  (SiblingCpuID c = -1 ∨
   (SiblingCpuID c ≠ k ∧ SiblingCpuID <$> (d !! SiblingCpuID c) = Some k)).

Definition wf_topology (d : gmap Z CPUInfo) : Prop := map_Forall (wf_cpu d) d.

(** The weaker requirement that every entry is filed under its own CPU ID. *)
Definition keyed_by_id (d : gmap Z CPUInfo) : Prop :=
  map_Forall (λ k c, CpuID c = k) d.

(** The non-reserved CPUs in ascending order of ID. *)
Definition availableCPUs (d : gmap Z CPUInfo) (resv : CPUSet) : list CPUInfo :=
  sortSlice CpuID (filter (λ c, CpuID c ∉ resv) (map_to_list d).*2).

(** The group a CPU opens when the walk reaches it: the CPU alone when its
    sibling is absent or reserved, the CPU and its sibling otherwise; a CPU
    that is the higher member of a pair was grouped before and opens none. *)
Definition coreGroupOf (d : gmap Z CPUInfo) (resv : CPUSet) (cpu : CPUInfo)
    : option (list CPUInfo) :=
  if decide (SiblingCpuID cpu = -1 ∨ SiblingCpuID cpu ∈ resv) then Some [cpu]
  else if decide (CpuID cpu < SiblingCpuID cpu)
       then Some [cpu; default zeroCPUInfo (d !! SiblingCpuID cpu)]
       else None.

Definition specGroups (d : gmap Z CPUInfo) (resv : CPUSet) : list (list CPUInfo) :=
  omap (coreGroupOf d resv) (availableCPUs d resv).

(** The shape of a group: a CPU alone, whose sibling is absent or reserved,
    or a CPU followed by its sibling, the CPU being the lower of the two. *)
Definition core_group (d : gmap Z CPUInfo) (resv : CPUSet) (g : list CPUInfo) : Prop :=
  match g with
  | [c] =>
      d !! CpuID c = Some c ∧ (CpuID c ∉ resv)
      ∧ (SiblingCpuID c = -1 ∨ SiblingCpuID c ∈ resv)
  | [c; s] =>
      d !! CpuID c = Some c ∧ (CpuID c ∉ resv)
      ∧ d !! CpuID s = Some s ∧ (CpuID s ∉ resv)
      ∧ SiblingCpuID c = CpuID s ∧ SiblingCpuID s = CpuID c
      ∧ CpuID c < CpuID s
  | _ => False
  end.

(** The devices [CreateSlices] builds for the CPUs [cpus], numbered from
    [start]. *)
Definition numbered (start : Z) (cpus : list CPUInfo) : list Device :=
  imap (λ i cpu, IndividualCore.cpuDevice (start + Z.of_nat i) cpu) cpus.


(** ** The catalogs of the grouped managers *)

(** The CPUs of a socket, respectively of a NUMA node, that are not
    reserved. *)
Definition socketAllocatable (mgr : SocketGrouped.Manager) (id : Z) : CPUSet :=
  CPUsInSockets (CPUDetails (SocketGrouped.cpuTopology mgr)) id
  ∖ SocketGrouped.reservedCPUs mgr.

Definition numaAllocatable (mgr : NUMAGrouped.Manager) (id : Z) : CPUSet :=
  CPUsInNUMANodes (CPUDetails (NUMAGrouped.cpuTopology mgr)) id
  ∖ NUMAGrouped.reservedCPUs mgr.

(** The coordinates that get a device: those with a non-reserved CPU, in
    ascending order. *)
Definition eligibleSockets (mgr : SocketGrouped.Manager) : list Z :=
  filter (λ id, CPUSet_Size (socketAllocatable mgr id) ≠ 0)
         (CPUSet_List (Sockets (CPUDetails (SocketGrouped.cpuTopology mgr)))).

Definition eligibleNUMANodes (mgr : NUMAGrouped.Manager) : list Z :=
  filter (λ id, CPUSet_Size (numaAllocatable mgr id) ≠ 0)
         (CPUSet_List (NUMANodes (CPUDetails (NUMAGrouped.cpuTopology mgr)))).

(** The device of a socket. *)
Definition socketDevice (mgr : SocketGrouped.Manager) (id : Z) : Device :=
  {| Name := deviceNameOf cpuDeviceSocketGroupedPrefix id;
     Attributes :=
       MakeGroupedAttributes (SocketGrouped.cpuTopology mgr) id (socketAllocatable mgr id);
     Capacity := {[ cpuResourceQualifiedName := CPUSet_Size (socketAllocatable mgr id) ]};
     AllowMultipleAllocations := Some true |}.

(** The device of a NUMA node whose socket ID attribute is [socketID]. *)
Definition numaDevice (mgr : NUMAGrouped.Manager) (socketID id : Z) : Device :=
  {| Name := deviceNameOf cpuDeviceNUMAGroupedPrefix id;
     Attributes :=
       <["dra.net/numaNode" := IntValue id]>
         (<["dra.cpu/numaNodeID" := IntValue id]>
            (MakeGroupedAttributes (NUMAGrouped.cpuTopology mgr) socketID
               (numaAllocatable mgr id)));
     Capacity := {[ cpuResourceQualifiedName := CPUSet_Size (numaAllocatable mgr id) ]};
     AllowMultipleAllocations := Some true |}.

(** The socket ID attribute [CreateSlices] derives for a NUMA node from the
    first member [UnsortedList] lists of its allocatable CPUs. *)
Definition numaSocketID (UnsortedList : CPUSet → list Z) (mgr : NUMAGrouped.Manager)
    (id : Z) : Z :=
  SocketID (default zeroCPUInfo
    (CPUDetails (NUMAGrouped.cpuTopology mgr)
       !! default 0 (head (UnsortedList (numaAllocatable mgr id))))).

(** The index entries written for the coordinates [ids]. *)
Definition indexInsert (prefix : string) (index : gmap string Z) (ids : list Z)
    : gmap string Z :=
  foldl (λ m id, <[deviceNameOf prefix id := id]> m) index ids.

(** ** Claim resolution *)

(** The count a result asks for: the consumed capacity under dra.cpu/cpu,
    0 when there is none. *)
Definition requestedCPUs (alloc : DeviceRequestAllocationResult) : Z :=
  default 0 (ConsumedCapacity alloc !! cpuResourceQualifiedName).

(** The results of a claim that name the driver [name]. *)
Definition resultsOf (name : string) (results : list DeviceRequestAllocationResult)
    : list DeviceRequestAllocationResult :=
  filter (λ alloc, Driver alloc = name) results.

(** The contract of the packing primitive the managers rely on: a selection
    it returns without an error is taken from the pool it was given. *)
Definition take_within_pool (take : PackingPrimitive) : Prop :=
  ∀ topo pool n cur, take topo pool n = (cur, None) → cur ⊆ pool.

(** Every sibling ID a non-reserved CPU carries is the sentinel, a reserved
    ID, or the ID of a CPU of the topology. *)
Definition siblings_present (d : gmap Z CPUInfo) (resv : CPUSet) : Prop :=
  map_Forall (λ _ c,
    CpuID c ∈ resv ∨ SiblingCpuID c = -1 ∨ SiblingCpuID c ∈ resv
    ∨ SiblingCpuID c ∈ (map_img (CpuID <$> d) : CPUSet)) d.

#[global] Instance siblings_present_dec d resv : Decision (siblings_present d resv).
Proof. unfold siblings_present. apply _. Defined.

(** A claim with one result. *)
Definition claimFor (driver device : string) (count : option Z) : ResourceClaim :=
  mkClaim "default" "claim" "uid-1"
    (Some [mkAllocResult "request" driver "node" device
             (match count with
              | Some n => {[ cpuResourceQualifiedName := n ]}
              | None => ∅
              end)]).

(** A claim whose allocation status is absent. *)
Definition claimWithoutAllocation : ResourceClaim :=
  mkClaim "default" "claim" "uid-1" None.

(** One CPU whose sibling ID names no CPU of the topology. *)
Definition topoDanglingSibling : CPUTopology :=
  mkCPUTopology true (list_to_map [(1, mkCPUInfo 1 0 0 0 0 3 "performance")]).

(** ** Decision procedures and sample topologies *)

#[global] Instance wf_cpu_dec d k c : Decision (wf_cpu d k c).
Proof. unfold wf_cpu. apply _. Defined.

#[global] Instance wf_topology_dec d : Decision (wf_topology d).
Proof. unfold wf_topology. apply _. Defined.

(** Four CPUs on two cores: the sibling pairs are 0, 2 and 1, 3. *)
Definition topoTwoCores : CPUTopology :=
  mkCPUTopology true (list_to_map [
    (0, mkCPUInfo 0 0 0 0 0 2 "performance");
    (1, mkCPUInfo 1 1 0 0 0 3 "performance");
    (2, mkCPUInfo 2 0 0 0 0 0 "performance");
    (3, mkCPUInfo 3 1 0 0 0 1 "performance")]).

(** 300 CPUs on 150 cores: the sibling pairs are 2k, 2k+1. *)
Definition topo300 : CPUTopology :=
  mkCPUTopology true
    (list_to_map ((λ i, (i, mkCPUInfo i (i / 2) 0 0 0 (Z.lxor i 1) "performance"))
                    <$> seqZ 0 300)).

(** Every NUMA node lies within one socket: two CPUs of one NUMA node have
    the same socket ID. *)
Definition numa_within_socket (d : gmap Z CPUInfo) : Prop :=
  map_Forall (λ _ c1,
    map_Forall (λ _ c2, NUMANodeID c1 = NUMANodeID c2 → SocketID c1 = SocketID c2) d) d.

#[global] Instance keyed_by_id_dec d : Decision (keyed_by_id d).
Proof. unfold keyed_by_id. apply _. Defined.

#[global] Instance numa_within_socket_dec d : Decision (numa_within_socket d).
Proof. unfold numa_within_socket. apply _. Defined.

(** Two listings a set may get from [UnsortedList]. *)
Definition listAscending : CPUSet → list Z := CPUSet_List.
Definition listDescending : CPUSet → list Z := λ s, reverse (CPUSet_List s).

(** 129 CPUs, each on a socket and a NUMA node of its own. *)
Definition topo129 : CPUTopology :=
  mkCPUTopology false
    (list_to_map ((λ i, (i, mkCPUInfo i i i i i (-1) "performance")) <$> seqZ 0 129)).

(** Two CPUs on two sockets that share one NUMA node. *)
Definition topoSharedNUMA : CPUTopology :=
  mkCPUTopology false (list_to_map [
    (0, mkCPUInfo 0 0 0 0 0 (-1) "performance");
    (1, mkCPUInfo 1 1 1 0 1 (-1) "performance")]).

(** The Socket-Grouped manager of the two-core topology after its catalog
    was created; the shared pool always holds the CPUs 0, 1 and 2. *)
Definition socketManagerThreeFree : SocketGrouped.Manager :=
  (SocketGrouped.CreateSlices
     (SocketGrouped.NewSocketGroupedManager "dra.cpu" topoTwoCores ∅
        (λ _, {[0; 1; 2]}))).2.

(** A claim with the given results. *)
Definition claimOf (results : list DeviceRequestAllocationResult) : ResourceClaim :=
  mkClaim "default" "claim" "uid-1" (Some results).

(** The Individual-Core manager of the two-core topology after its catalog
    was created. *)
Definition individualManagerTwoCores : IndividualCore.Manager :=
  (IndividualCore.CreateSlices (visitOf topoTwoCores)
     (IndividualCore.NewIndividualCoreManager "dra.cpu" topoTwoCores ∅)).2.

(** Collaborators of the driver whose CDI manager accepts every device. *)
Definition sampleCollaborators : Collaborators :=
  {| TakeByTopologyNUMAPacked := takeLowest;
     cdiAddDevice := λ _ _, None;
     CPUSet_String := λ s, String.concat "," (pretty <$> CPUSet_List s);
     cdiEnvVarPrefix := "DRA_CPUSET";
     cdiVendor := "dra.k8s.io";
     cdiClass := "cpu" |}.

(** The CPU ID the index of [mgr] resolves each device of a catalog to. *)
Definition resolvedCPUs (mgr : IndividualCore.Manager) (devs : list Device)
    : list (option Z) :=
  (λ dev, IndividualCore.deviceNameToCPUID mgr !! Name dev) <$> devs.

(** The capacity dra.cpu/cpu that the devices of a catalog publish in
    total. *)
Definition totalCapacity (devs : list Device) : Z :=
  foldr (λ dev acc, default 0 (Capacity dev !! cpuResourceQualifiedName) + acc) 0 devs.

(** The topology and the reserved set the manager of a driver is bound to. *)
Definition DeviceManager_topology (devMgr : DeviceManager) : CPUTopology :=
  match devMgr with
  | IndividualCoreMgr mgr => IndividualCore.cpuTopology mgr
  | SocketGroupedMgr mgr => SocketGrouped.cpuTopology mgr
  | NUMAGroupedMgr mgr => NUMAGrouped.cpuTopology mgr
  end.

Definition DeviceManager_reserved (devMgr : DeviceManager) : CPUSet :=
  match devMgr with
  | IndividualCoreMgr mgr => IndividualCore.reservedCPUs mgr
  | SocketGroupedMgr mgr => SocketGrouped.reservedCPUs mgr
  | NUMAGroupedMgr mgr => NUMAGrouped.reservedCPUs mgr
  end.


(** * Properties *)

(** ** Chunking *)

Section chunk.
Context {A : Type}.
Implicit Types (s : list A) (n fuel : nat).

Lemma Chunk_go_concat fuel n s :
  (0 < n)%nat → (length s ≤ fuel)%nat → concat (Chunk_go fuel n s) = s.
Proof.
  revert s. induction fuel as [|fuel IH]; intros s Hn Hlen.
  - destruct s; simpl in *; [done | lia].
  - destruct s as [|a s]; [done|].
    cbn [Chunk_go concat]. rewrite IH; [apply take_drop | done |].
    rewrite length_drop. simpl in *. lia.
Qed.

Lemma Chunk_go_Forall fuel n s :
  Forall (λ c, (0 < length c ≤ n)%nat) (Chunk_go fuel n s) ∨ n = 0%nat.
Proof.
  destruct n as [|n]; [by right | left].
  revert s. induction fuel as [|fuel IH]; intros s; [constructor|].
  destruct s as [|a s]; [constructor|].
  cbn [Chunk_go]. constructor; [|apply IH].
  rewrite length_take. simpl. lia.
Qed.

Lemma Chunk_go_lengths fuel n s :
  (0 < n)%nat → (length s ≤ fuel)%nat →
  length <$> Chunk_go fuel n s
  = replicate (length s / n) n ++
    (if decide (length s mod n = 0)%nat then [] else [(length s mod n)%nat]).
Proof.
  revert s. induction fuel as [|fuel IH]; intros s Hn Hlen.
  - destruct s; simpl in *; [|lia]. rewrite Nat.Div0.div_0_l, Nat.Div0.mod_0_l. done.
  - destruct s as [|a s].
    { simpl. rewrite Nat.Div0.div_0_l, Nat.Div0.mod_0_l. done. }
    cbn [Chunk_go fmap list_fmap]. fold (@fmap list _ _ _ (@length A)).
    rewrite IH; [|done|rewrite length_drop; simpl in *; lia].
    rewrite length_take, length_drop.
    set (l := length (a :: s)). assert (0 < l)%nat by (unfold l; simpl; lia).
    destruct (decide (n ≤ l)%nat) as [Hle|Hgt].
    + assert (l `div` n = S ((l - n) `div` n))%nat as ->.
      { replace l with ((l - n) + 1 * n)%nat at 1 by lia.
        rewrite Nat.div_add by lia. lia. }
      assert (l `mod` n = (l - n) `mod` n)%nat as ->.
      { replace l with ((l - n) + 1 * n)%nat at 1 by lia.
        by rewrite Nat.Div0.mod_add. }
      replace (n `min` l)%nat with n by lia.
      done.
    + replace (n `min` l)%nat with l by lia.
      replace (l - n)%nat with 0%nat by lia.
      rewrite Nat.Div0.div_0_l, Nat.Div0.mod_0_l.
      rewrite (Nat.div_small l n), (Nat.mod_small l n) by lia.
      rewrite decide_True by done. rewrite (decide_False (P := l = 0%nat)) by lia.
      done.
Qed.

Lemma Chunk_concat n s : (0 < n)%nat → concat (Chunk n s) = s.
Proof. intros. by apply Chunk_go_concat. Qed.

Lemma Chunk_Forall n s :
  (0 < n)%nat → Forall (λ c, (0 < length c ≤ n)%nat) (Chunk n s).
Proof. intros. destruct (Chunk_go_Forall (length s) n s); [done | lia]. Qed.

Lemma Chunk_lengths n s :
  (0 < n)%nat →
  length <$> Chunk n s
  = replicate (length s / n) n ++
    (if decide (length s mod n = 0)%nat then [] else [(length s mod n)%nat]).
Proof. intros. by apply Chunk_go_lengths. Qed.

Lemma Chunk_nil n : Chunk n (@nil A) = [].
Proof. done. Qed.
End chunk.

(** ** Device names *)

Lemma pretty_N_char_digit x : is_digit (pretty_N_char x).
Proof.
  unfold is_digit, pretty_N_char.
  repeat case_match; set_solver.
Qed.

Lemma all_digits_app s1 s2 :
  all_digits (s1 +:+ s2) ↔ all_digits s1 ∧ all_digits s2.
Proof. induction s1 as [|c s1 IH]; simpl; [tauto | rewrite IH; tauto]. Qed.

Lemma length_app_string s1 s2 :
  String.length (s1 +:+ s2) = (String.length s1 + String.length s2)%nat.
Proof. induction s1 as [|c s1 IH]; simpl; [done | by rewrite IH]. Qed.

Lemma pretty_N_go_digits x s : all_digits s → all_digits (pretty_N_go x s).
Proof.
  revert s. induction (N.lt_wf_0 x) as [x _ IH]; intros s Hs.
  destruct (decide (x = 0)%N) as [->|]; [by rewrite pretty_N_go_0|].
  rewrite pretty_N_go_step by lia.
  apply IH; [apply N.div_lt; lia|].
  split; [apply pretty_N_char_digit | done].
Qed.

Lemma pretty_N_go_length x s :
  (String.length s ≤ String.length (pretty_N_go x s))%nat.
Proof.
  revert s. induction (N.lt_wf_0 x) as [x _ IH]; intros s.
  destruct (decide (x = 0)%N) as [->|]; [by rewrite pretty_N_go_0|].
  rewrite pretty_N_go_step by lia.
  etrans; [|apply IH, N.div_lt; lia]. simpl. lia.
Qed.

Lemma pretty_N_digits (x : N) : all_digits (pretty x).
Proof.
  unfold pretty, pretty_N. case_decide; [simpl; split; [|done]; set_solver|].
  by apply pretty_N_go_digits.
Qed.

Lemma pretty_N_length (x : N) : (0 < String.length (pretty x))%nat.
Proof.
  unfold pretty, pretty_N. case_decide; [simpl; lia|].
  rewrite pretty_N_go_step by lia.
  eapply Nat.lt_le_trans; [|apply pretty_N_go_length]. simpl. lia.
Qed.

Lemma zeros_digits k : all_digits (zeros k).
Proof. induction k as [|k IH]; [done|]. simpl. split; [set_solver | done]. Qed.

Lemma zeros_length k : String.length (zeros k) = k.
Proof. induction k as [|k IH]; [done|]. simpl. by rewrite IH. Qed.

Lemma zero_pad_digits w s : all_digits s → all_digits (zero_pad w s).
Proof. intros. apply all_digits_app. split; [apply zeros_digits | done]. Qed.

Lemma zero_pad_length w s :
  String.length (zero_pad w s) = (w `max` String.length s)%nat.
Proof. unfold zero_pad. rewrite length_app_string, zeros_length. lia. Qed.

(** A non-negative number is rendered as three or more decimal digits. *)
Lemma fmt_03d_digits n :
  0 ≤ n → all_digits (fmt_03d n) ∧ (3 ≤ String.length (fmt_03d n))%nat.
Proof.
  intros Hn. unfold fmt_03d. rewrite decide_False by lia. split.
  - apply zero_pad_digits, pretty_N_digits.
  - rewrite zero_pad_length. lia.
Qed.

(** A rendered number starts with a digit or with the sign. *)
Lemma fmt_03d_head n :
  ∃ c s, fmt_03d n = String c s ∧ (is_digit c ∨ c = "-"%char).
Proof.
  unfold fmt_03d. case_decide.
  - eexists _, _. split; [reflexivity | by right].
  - pose proof (fmt_03d_digits n ltac:(lia)) as [Hd Hl].
    unfold fmt_03d in Hd, Hl. rewrite decide_False in Hd, Hl by lia.
    destruct (zero_pad 3 (pretty (Z.to_N n))) as [|c s]; [simpl in Hl; lia|].
    exists c, s. split; [done | left; apply Hd].
Qed.

Lemma pretty_N_go_head x s :
  (0 < x)%N → ∃ c r, pretty_N_go x s = String c r ∧ c ≠ "0"%char.
Proof.
  revert s. induction (N.lt_wf_0 x) as [x _ IH]; intros s Hx.
  rewrite pretty_N_go_step by done.
  destruct (decide (x `div` 10 = 0)%N) as [Hdiv|Hdiv].
  - rewrite Hdiv, pretty_N_go_0. eexists _, _. split; [done|].
    assert (x < 10)%N by (apply N.div_small_iff in Hdiv; lia).
    rewrite N.mod_small by done.
    intros Hc. apply (pretty_N_char_inj x 0) in Hc; lia.
  - apply IH; [by apply N.div_lt | by apply N.neq_0_lt_0].
Qed.

Lemma pretty_N_canonical (x : N) : canonical (pretty x).
Proof.
  split.
  - pose proof (pretty_N_length x). intros Heq. rewrite Heq in *. simpl in *. lia.
  - intros r. unfold pretty, pretty_N. case_decide; [by intros [= <-]|].
    destruct (pretty_N_go_head x "" ltac:(lia)) as (c & r' & -> & Hc).
    by intros [= -> _].
Qed.

Lemma zeros_app_inj k j s t :
  canonical s → canonical t → zeros k +:+ s = zeros j +:+ t → s = t.
Proof.
  intros [Hs1 Hs2] [Ht1 Ht2]. revert j.
  induction k as [|k IH]; intros [|j]; simpl; intros Heq.
  - done.
  - apply Hs2 in Heq as Hnil. destruct (zeros j); [|done].
    by destruct t.
  - symmetry in Heq. apply Ht2 in Heq as Hnil. destruct (zeros k); [|done].
    by destruct s.
  - injection Heq as Heq. by apply (IH j).
Qed.

Lemma not_digit_dash : ¬ is_digit "-".
Proof.
  unfold is_digit. intros H.
  repeat (apply elem_of_cons in H as [H|H]; [discriminate|]).
  by apply elem_of_nil in H.
Qed.

#[global] Instance fmt_03d_inj : Inj (=) (=) fmt_03d.
Proof.
  intros n m Heq.
  assert (∀ a b, a < 0 → 0 ≤ b → fmt_03d a ≠ fmt_03d b) as Hmixed.
  { intros a b Ha Hb Hab. destruct (fmt_03d_digits b Hb) as [Hd _].
    rewrite <-Hab in Hd. unfold fmt_03d in Hd. rewrite decide_True in Hd by done.
    destruct Hd as [Hd _]. by apply not_digit_dash. }
  destruct (decide (n < 0)) as [Hn|Hn], (decide (m < 0)) as [Hm|Hm].
  - unfold fmt_03d in Heq. rewrite !decide_True in Heq by done.
    injection Heq as Heq.
    apply zeros_app_inj in Heq; [|apply pretty_N_canonical..].
    apply (inj pretty) in Heq. lia.
  - by destruct (Hmixed n m); [|lia|].
  - by destruct (Hmixed m n); [|lia|].
  - unfold fmt_03d in Heq. rewrite !decide_False in Heq by done.
    apply zeros_app_inj in Heq; [|apply pretty_N_canonical..].
    apply (inj pretty) in Heq. lia.
Qed.

#[global] Instance deviceNameOf_inj prefix : Inj (=) (=) (deviceNameOf prefix).
Proof. intros n m Heq. unfold deviceNameOf in Heq. by apply (inj _), (inj _) in Heq. Qed.

(** ** The emitting loops of the Individual-Core manager *)

Module IndividualCoreFacts.
Import IndividualCore.

Lemma emit_concat st groups :
  foldl (λ st group, foldl emitStep st group) st groups
  = foldl emitStep st (concat groups).
Proof.
  revert st. induction groups as [|g groups IH]; intros st; [done|].
  simpl. by rewrite foldl_app, IH.
Qed.

Lemma emit_devices cpus devId index devs :
  (foldl emitStep (devId, index, devs) cpus).2 = devs ++ numbered devId cpus.
Proof.
  revert devId index devs. induction cpus as [|c cpus IH]; intros devId index devs.
  - simpl. by rewrite app_nil_r.
  - simpl. rewrite IH, <-app_assoc. f_equal. unfold numbered. simpl.
    rewrite Z.add_0_r. f_equal. apply imap_ext. intros i x _. simpl.
    f_equal. lia.
Qed.

Lemma emit_index_lookup cpus devId index devs i c :
  cpus !! i = Some c →
  (foldl emitStep (devId, index, devs) cpus).1.2
    !! deviceNameOf cpuDevicePrefix (devId + Z.of_nat i) = Some (CpuID c).
Proof.
  revert devId index devs i.
  induction cpus as [|c' cpus IH] using rev_ind; intros devId index devs i Hi; [done|].
  rewrite foldl_app. simpl.
  destruct (foldl emitStep (devId, index, devs) cpus) as [[d' idx'] devs'] eqn:Hfold.
  assert (d' = devId + Z.of_nat (length cpus)) as ->.
  { clear -Hfold. revert devId index devs Hfold.
    induction cpus as [|x cpus IH]; intros devId index devs Hfold; simpl in *.
    - injection Hfold as <- _ _. lia.
    - apply IH in Hfold. lia. }
  simpl. destruct (decide (i = length cpus)) as [->|Hne].
  - rewrite lookup_app_r, Nat.sub_diag in Hi by done. injection Hi as ->.
    by rewrite lookup_insert_eq.
  - rewrite lookup_insert_ne by (intros Heq; apply (inj _) in Heq; lia).
    assert (i < length cpus)%nat.
    { apply lookup_lt_Some in Hi. rewrite length_app in Hi. simpl in Hi. lia. }
    rewrite lookup_app_l in Hi by done.
    specialize (IH devId index devs i Hi). by rewrite Hfold in IH.
Qed.

Lemma emit_index_other cpus devId index devs name :
  (∀ i, (i < length cpus)%nat → name ≠ deviceNameOf cpuDevicePrefix (devId + Z.of_nat i)) →
  (foldl emitStep (devId, index, devs) cpus).1.2 !! name = index !! name.
Proof.
  revert devId index devs.
  induction cpus as [|c cpus IH]; intros devId index devs Hname; [done|].
  simpl. rewrite IH.
  - rewrite lookup_insert_ne; [done|].
    intros Heq. apply (Hname 0%nat); [simpl; lia|]. by rewrite Z.add_0_r.
  - intros i Hi. replace (devId + 1 + Z.of_nat i) with (devId + Z.of_nat (S i)) by lia.
    apply Hname. simpl. lia.
Qed.

Lemma emit_index_values cpus devId index devs name v :
  (foldl emitStep (devId, index, devs) cpus).1.2 !! name = Some v →
  index !! name = Some v ∨ ∃ c, c ∈ cpus ∧ v = CpuID c.
Proof.
  revert devId index devs.
  induction cpus as [|c cpus IH]; intros devId index devs Hl; [by left|].
  simpl in Hl. apply IH in Hl as [Hl|(c' & Hc' & ->)].
  - apply lookup_insert_Some in Hl as [[_ <-]|[_ Hl]]; [|by left].
    right. exists c. split; [left | done].
  - right. exists c'. split; [by right | done].
Qed.

(** What [CreateSlices] returns, in terms of the sorted [coreGroups]. *)
Lemma CreateSlices_devices visit mgr :
  concat (CreateSlices visit mgr).1
  = numbered 0 (concat (coreGroups visit (reservedCPUs mgr))).
Proof.
  unfold CreateSlices. rewrite emit_concat.
  pose proof (emit_devices (concat (coreGroups visit (reservedCPUs mgr))) 0
                (deviceNameToCPUID mgr) []) as Hdev.
  destruct (foldl emitStep _ _) as [[d idx] devs]. simpl in Hdev. subst devs.
  case_decide as Hlen; simpl.
  - by apply nil_length_inv in Hlen as ->.
  - by rewrite Chunk_concat by (unfold maxDevicesPerResourceSlice; lia).
Qed.

Lemma CreateSlices_chunks visit mgr :
  (CreateSlices visit mgr).1
  = Chunk maxDevicesPerResourceSlice
      (numbered 0 (concat (coreGroups visit (reservedCPUs mgr)))).
Proof.
  unfold CreateSlices. rewrite emit_concat.
  pose proof (emit_devices (concat (coreGroups visit (reservedCPUs mgr))) 0
                (deviceNameToCPUID mgr) []) as Hdev.
  destruct (foldl emitStep _ _) as [[d idx] devs]. simpl in Hdev. subst devs.
  case_decide as Hlen; simpl; [|done].
  by apply nil_length_inv in Hlen as ->.
Qed.

Lemma numbered_length start cpus : length (numbered start cpus) = length cpus.
Proof. apply length_imap. Qed.

Lemma numbered_lookup start cpus i :
  numbered start cpus !! i = cpuDevice (start + Z.of_nat i) <$> cpus !! i.
Proof. unfold numbered. by rewrite list_lookup_imap. Qed.

End IndividualCoreFacts.

(** ** Sorting by a key *)

#[global] Instance keyLe_trans {A} (key : A → Z) : Transitive (keyLe key).
Proof. intros a b c. unfold keyLe. lia. Qed.

#[global] Instance keyLe_total {A} (key : A → Z) : Total (keyLe key).
Proof. intros a b. unfold keyLe. lia. Qed.

Lemma sortSlice_perm {A} (key : A → Z) (l : list A) : sortSlice key l ≡ₚ l.
Proof. apply merge_sort_Permutation. Qed.

Lemma sortSlice_sorted {A} (key : A → Z) (l : list A) :
  StronglySorted (keyLe key) (sortSlice key l).
Proof. apply StronglySorted_merge_sort; apply _. Qed.

Lemma NoDup_fmap_elem {A B} (f : A → B) (l : list A) x y :
  NoDup (f <$> l) → x ∈ l → y ∈ l → f x = f y → x = y.
Proof.
  induction l as [|a l IH]; intros Hnd Hx Hy Hf; [by apply elem_of_nil in Hx|].
  rewrite fmap_cons in Hnd. apply NoDup_cons in Hnd as [Ha Hnd].
  apply elem_of_cons in Hx as [->|Hx], Hy as [->|Hy]; [done|..|by apply IH].
  - destruct Ha. rewrite Hf. by apply list_elem_of_fmap_2.
  - destruct Ha. rewrite <-Hf. by apply list_elem_of_fmap_2.
Qed.

Lemma sorted_perm_unique {A} (key : A → Z) (l1 l2 : list A) :
  l1 ≡ₚ l2 → NoDup (key <$> l1) →
  StronglySorted (keyLe key) l1 → StronglySorted (keyLe key) l2 → l1 = l2.
Proof.
  intros Hp Hnd H1 H2. apply (StronglySorted_unique_strong (keyLe key)); [|done..].
  intros x1 x2 Hx1 Hx2 Hle1 Hle2. rewrite <-Hp in Hx2.
  apply (NoDup_fmap_elem key l1); [done..|]. unfold keyLe in *. lia.
Qed.

Lemma StronglySorted_mono {A} (R1 R2 : relation A) (l : list A) :
  (∀ x y, R1 x y → R2 x y) → StronglySorted R1 l → StronglySorted R2 l.
Proof.
  intros HR. induction 1 as [|a l Hs IH Hall]; constructor; [done|].
  eapply Forall_impl; [done|]. auto.
Qed.

(** Sorting a slice whose keys are already ascending changes nothing. *)
Lemma sortSlice_sorted_id {A} (key : A → Z) (l : list A) :
  StronglySorted (keyLt key) l → sortSlice key l = l.
Proof.
  intros Hs. apply (sorted_perm_unique key).
  - apply sortSlice_perm.
  - rewrite sortSlice_perm. clear -Hs. induction Hs as [|a l Hs IH Hall]; [constructor|].
    rewrite fmap_cons. apply NoDup_cons. split; [|done].
    intros (b & Hb & Hin)%list_elem_of_fmap_1.
    rewrite Forall_forall in Hall. apply Hall in Hin. unfold keyLt in Hin. lia.
  - apply sortSlice_sorted.
  - eapply StronglySorted_mono; [|done]. unfold keyLt, keyLe. intros; lia.
Qed.

Lemma sorted_strict {A} (key : A → Z) (l : list A) :
  StronglySorted (keyLe key) l → NoDup (key <$> l) → StronglySorted (keyLt key) l.
Proof.
  induction 1 as [|a l Hs IH Hall]; intros Hnd; [constructor|].
  rewrite fmap_cons in Hnd. apply NoDup_cons in Hnd as [Ha Hnd].
  constructor; [by apply IH|].
  rewrite Forall_forall in Hall |- *. intros b Hb.
  specialize (Hall b Hb). unfold keyLe, keyLt in *.
  assert (key a ≠ key b); [|lia].
  intros Heq. apply Ha. rewrite Heq. by apply list_elem_of_fmap_2.
Qed.

Lemma list_elem_of_concat {A} (x : A) (ls : list (list A)) :
  x ∈ concat ls ↔ ∃ l, x ∈ l ∧ l ∈ ls.
Proof.
  induction ls as [|l ls IH]; simpl.
  - split; [by intros ?%elem_of_nil | by intros (l & _ & ?%elem_of_nil)].
  - rewrite elem_of_app, IH. split.
    + intros [?|(l' & ? & ?)]; [exists l; split; [done | by left]|].
      exists l'. split; [done | by right].
    + intros (l' & Hx & [->|?]%elem_of_cons); [by left | right; eauto].
Qed.

Lemma CPUSet_List_elem (s : CPUSet) k : k ∈ CPUSet_List s ↔ k ∈ s.
Proof. unfold CPUSet_List. by rewrite merge_sort_Permutation, elem_of_elements. Qed.

Lemma CPUSet_List_NoDup (s : CPUSet) : NoDup (CPUSet_List s).
Proof. unfold CPUSet_List. rewrite merge_sort_Permutation. apply NoDup_elements. Qed.

Lemma CPUSet_List_sorted (s : CPUSet) : StronglySorted Z.lt (CPUSet_List s).
Proof.
  pose proof (CPUSet_List_NoDup s) as Hnd. unfold CPUSet_List in *.
  assert (StronglySorted Z.le (merge_sort Z.le (elements s))) as Hs
    by (apply StronglySorted_merge_sort; apply _).
  induction Hs as [|a l Hs IH Hall]; [constructor|].
  apply NoDup_cons in Hnd as [Ha Hnd]. constructor; [by apply IH|].
  rewrite Forall_forall in Hall |- *. intros b Hb. specialize (Hall b Hb).
  assert (a ≠ b) by (by intros ->). lia.
Qed.

(** ** Reading the maps the grouping loop builds *)

Lemma readBool_insert (m : gmap Z bool) k k' :
  readBool (<[k := true]> m) k' = true ↔ k = k' ∨ readBool m k' = true.
Proof.
  unfold readBool. destruct (decide (k = k')) as [->|Hne].
  - rewrite lookup_insert_eq. simpl. tauto.
  - rewrite lookup_insert_ne by done. tauto.
Qed.

Lemma readBool_foldl_insert (l : list Z) (m : gmap Z bool) k :
  readBool (foldl (λ m cpuID, <[cpuID := true]> m) m l) k = true
  ↔ k ∈ l ∨ readBool m k = true.
Proof.
  revert m. induction l as [|a l IH]; intros m; simpl.
  - rewrite elem_of_nil. tauto.
  - rewrite IH, readBool_insert, elem_of_cons. intuition congruence.
Qed.

Lemma readBool_reservedMap resv k :
  readBool (IndividualCore.reservedMap resv) k = true ↔ k ∈ resv.
Proof.
  unfold IndividualCore.reservedMap.
  rewrite readBool_foldl_insert, CPUSet_List_elem. unfold readBool.
  rewrite lookup_empty. simpl. intuition congruence.
Qed.

Lemma readBool_reservedMap_false resv k :
  readBool (IndividualCore.reservedMap resv) k = false ↔ k ∉ resv.
Proof.
  rewrite <-readBool_reservedMap. destruct (readBool _ k); intuition congruence.
Qed.

Lemma lookup_foldl_insert_info (l : list CPUInfo) (m : gmap Z CPUInfo) k :
  NoDup (CpuID <$> l) →
  foldl (λ m info, <[CpuID info := info]> m) m l !! k
  = match list_find (λ c, CpuID c = k) l with
    | Some (_, c) => Some c
    | None => m !! k
    end.
Proof.
  revert m. induction l as [|a l IH]; intros m Hnd; [done|].
  rewrite fmap_cons in Hnd. apply NoDup_cons in Hnd as [Ha Hnd].
  cbn [foldl list_find]. rewrite IH by done. case_decide as Hk.
  - subst k. simpl. destruct (list_find _ l) as [[i c]|] eqn:Hfind; simpl.
    + apply list_find_Some in Hfind as (Hi & Hc & _).
      destruct Ha. rewrite <-Hc. apply list_elem_of_fmap_2.
      by eapply list_elem_of_lookup_2.
    + by rewrite lookup_insert_eq.
  - destruct (list_find _ l) as [[i c]|]; simpl; [done|].
    by rewrite lookup_insert_ne.
Qed.

(** ** Topologies filed under the CPU IDs *)

Section keyed.
Context (d : gmap Z CPUInfo) (resv : CPUSet) (Hkey : keyed_by_id d).

Lemma keyed_lookup k c : d !! k = Some c → CpuID c = k.
Proof. apply Hkey. Qed.

Lemma range_of_map_to_list : range_of d (map_to_list d).*2.
Proof. by unfold range_of. Qed.

Lemma keyed_ids_of_values : CpuID <$> (map_to_list d).*2 = (map_to_list d).*1.
Proof.
  rewrite <-list_fmap_compose. apply list_fmap_ext.
  intros i [k c] Hi. simpl.
  apply list_elem_of_lookup_2, elem_of_map_to_list in Hi.
  by apply keyed_lookup in Hi.
Qed.

Lemma keyed_visit_NoDup visit : range_of d visit → NoDup (CpuID <$> visit).
Proof.
  unfold range_of. intros ->. rewrite keyed_ids_of_values. apply NoDup_fst_map_to_list.
Qed.

Lemma keyed_visit_elem visit c :
  range_of d visit → c ∈ visit ↔ d !! CpuID c = Some c.
Proof.
  unfold range_of. intros ->. rewrite list_elem_of_fmap. split.
  - intros ([k c'] & -> & Hin). simpl. apply elem_of_map_to_list in Hin.
    by rewrite (keyed_lookup _ _ Hin).
  - intros Hc. exists (CpuID c, c). split; [done|]. by apply elem_of_map_to_list.
Qed.

Lemma keyed_cpuInfoMap visit :
  range_of d visit →
  foldl (λ m info, <[CpuID info := info]> m) (∅ : gmap Z CPUInfo) visit = d.
Proof.
  intros Hr. apply map_eq. intros k.
  rewrite lookup_foldl_insert_info by by apply keyed_visit_NoDup.
  destruct (list_find _ visit) as [[i c]|] eqn:Hfind.
  - apply list_find_Some in Hfind as (Hi & <- & _).
    symmetry. apply (keyed_visit_elem visit); [done|]. by eapply list_elem_of_lookup_2.
  - rewrite lookup_empty. destruct (d !! k) as [c|] eqn:Hk; [|done].
    pose proof (keyed_lookup _ _ Hk) as Hid.
    eapply list_find_None, Forall_forall in Hfind.
    + by destruct Hfind.
    + apply (keyed_visit_elem visit); [done|]. by rewrite Hid.
Qed.

Lemma keyed_available visit :
  range_of d visit →
  sortSlice CpuID
    (filter (λ cpu, readBool (IndividualCore.reservedMap resv) (CpuID cpu) = false) visit)
  = availableCPUs d resv.
Proof.
  intros Hr. unfold availableCPUs.
  assert (filter (λ cpu, readBool (IndividualCore.reservedMap resv) (CpuID cpu) = false) visit
          ≡ₚ filter (λ c, CpuID c ∉ resv) (map_to_list d).*2) as Hp.
  { rewrite <-Hr. erewrite list_filter_iff; [done|].
    intros c. apply readBool_reservedMap_false. }
  apply (sorted_perm_unique CpuID); [|
    | apply sortSlice_sorted | apply sortSlice_sorted ].
  - by rewrite !sortSlice_perm.
  - rewrite sortSlice_perm. apply (NoDup_fmap_2_strong); [|apply NoDup_filter].
    + intros x y Hx%list_elem_of_filter Hy%list_elem_of_filter Hxy.
      apply (NoDup_fmap_elem CpuID visit); [by apply keyed_visit_NoDup|tauto..|done].
    + eapply NoDup_fmap_1. by apply keyed_visit_NoDup.
Qed.

Lemma keyed_availableCPUs_elem c :
  c ∈ availableCPUs d resv ↔ d !! CpuID c = Some c ∧ CpuID c ∉ resv.
Proof.
  unfold availableCPUs. rewrite sortSlice_perm, list_elem_of_filter.
  rewrite (keyed_visit_elem (map_to_list d).*2) by apply range_of_map_to_list. tauto.
Qed.

Lemma keyed_availableCPUs_NoDup : NoDup (CpuID <$> availableCPUs d resv).
Proof.
  unfold availableCPUs. rewrite sortSlice_perm.
  apply (NoDup_fmap_2_strong); [|apply NoDup_filter].
  - intros x y Hx%list_elem_of_filter Hy%list_elem_of_filter Hxy.
    apply (NoDup_fmap_elem CpuID (map_to_list d).*2);
      [apply keyed_visit_NoDup, range_of_map_to_list|tauto..|done].
  - eapply NoDup_fmap_1. apply keyed_visit_NoDup, range_of_map_to_list.
Qed.

Lemma keyed_availableCPUs_sorted : StronglySorted (keyLt CpuID) (availableCPUs d resv).
Proof.
  apply sorted_strict; [apply sortSlice_sorted | apply keyed_availableCPUs_NoDup].
Qed.

Lemma keyed_availableCPUs_length : length (availableCPUs d resv) = size (dom d ∖ resv).
Proof.
  rewrite <-(length_fmap CpuID).
  rewrite <-(size_list_to_set (C := CPUSet)) by apply keyed_availableCPUs_NoDup.
  f_equal. apply set_eq. intros k.
  rewrite elem_of_list_to_set, list_elem_of_fmap, elem_of_difference, elem_of_dom.
  split.
  - intros (c & -> & [Hc Hr]%keyed_availableCPUs_elem). eauto.
  - intros [[c Hc] Hr]. exists c. pose proof (keyed_lookup _ _ Hc) as Hid.
    split; [done|]. apply keyed_availableCPUs_elem. by rewrite Hid.
Qed.

(** The groups depend on the topology and the reserved set alone, not on
    the order in which the range over the topology yields the CPUs. *)
Lemma coreGroups_keyed visit :
  range_of d visit →
  IndividualCore.coreGroups visit resv
  = sortSlice IndividualCore.groupKey
      (foldl (IndividualCore.groupStep (IndividualCore.reservedMap resv) d) (∅, [])
             (availableCPUs d resv)).2.
Proof.
  intros Hr. unfold IndividualCore.coreGroups.
  by rewrite keyed_available, keyed_cpuInfoMap.
Qed.

End keyed.

(** ** Well-formed topologies and the grouping by physical core *)

Section grouping.
Context (d : gmap Z CPUInfo) (resv : CPUSet) (Hwf : wf_topology d).

Lemma wf_lookup k c : d !! k = Some c → CpuID c = k ∧ 0 ≤ k.
Proof. intros Hk. destruct (Hwf k c Hk) as (? & ? & _). done. Qed.

Lemma wf_sibling_sym a b :
  d !! CpuID a = Some a → d !! CpuID b = Some b →
  SiblingCpuID a = CpuID b → SiblingCpuID b = CpuID a.
Proof.
  intros Ha Hb Hab. destruct (wf_lookup _ _ Hb) as [_ Hb0].
  destruct (Hwf _ _ Ha) as (_ & _ & [Hs|[_ Hs]]); [lia|].
  rewrite Hab, Hb in Hs. by injection Hs.
Qed.

Lemma wf_sibling_present a :
  d !! CpuID a = Some a → SiblingCpuID a ≠ -1 →
  SiblingCpuID a ≠ CpuID a ∧
  ∃ s, d !! SiblingCpuID a = Some s ∧ CpuID s = SiblingCpuID a
       ∧ SiblingCpuID s = CpuID a.
Proof.
  intros Ha Hs. destruct (Hwf _ _ Ha) as (_ & _ & [?|[Hne Hsib]]); [done|].
  split; [done|]. destruct (d !! SiblingCpuID a) as [s|] eqn:Hl; [|done].
  exists s. destruct (wf_lookup _ _ Hl). injection Hsib as Hsib. done.
Qed.

Lemma sentinel_or_reserved s :
  bool_decide (s = -1) || readBool (IndividualCore.reservedMap resv) s
  = bool_decide (s = -1 ∨ s ∈ resv).
Proof.
  destruct (readBool _ s) eqn:Hr.
  - apply readBool_reservedMap in Hr. rewrite orb_true_r.
    symmetry. apply bool_decide_eq_true. by right.
  - apply readBool_reservedMap_false in Hr. rewrite orb_false_r.
    apply bool_decide_ext. tauto.
Qed.

Lemma walk_spec L (W : CPUSet) P G :
  StronglySorted (keyLt CpuID) L →
  (∀ c, c ∈ L → d !! CpuID c = Some c ∧ CpuID c ∉ resv) →
  (∀ w c, w ∈ W → c ∈ L → w < CpuID c) →
  (∀ k c, d !! k = Some c → k ∉ resv → k ∈ W ∨ ∃ c', c' ∈ L ∧ CpuID c' = k) →
  (∀ c, c ∈ L →
     readBool P (CpuID c) = true
     ↔ SiblingCpuID c ≠ -1 ∧ (SiblingCpuID c ∉ resv) ∧ SiblingCpuID c ∈ W) →
  (foldl (IndividualCore.groupStep (IndividualCore.reservedMap resv) d) (P, G) L).2
  = G ++ omap (coreGroupOf d resv) L.
Proof.
  revert W P G. induction L as [|c L IH]; intros W P G Hsort Hin HW Hcov Hinv.
  { simpl. by rewrite app_nil_r. }
  apply StronglySorted_inv in Hsort as [Hsort Hlt].
  rewrite Forall_forall in Hlt. unfold keyLt in Hlt.
  destruct (Hin c ltac:(left)) as [Hc Hcr].
  destruct (wf_lookup _ _ Hc) as [_ Hc0].
  assert (∀ c', c' ∈ L → d !! CpuID c' = Some c' ∧ CpuID c' ∉ resv) as Hin'
    by (intros; apply Hin; by right).
  assert (∀ w c', w ∈ W ∪ {[CpuID c]} → c' ∈ L → w < CpuID c') as HW'.
  { intros w c' [Hw| ->%elem_of_singleton]%elem_of_union Hc'; [|by apply Hlt].
    apply HW; [done | by right]. }
  assert (∀ k c0, d !! k = Some c0 → k ∉ resv →
            k ∈ W ∪ {[CpuID c]} ∨ ∃ c', c' ∈ L ∧ CpuID c' = k) as Hcov'.
  { intros k c0 Hk Hkr. destruct (Hcov k c0 Hk Hkr) as [?|(c' & Hc' & <-)].
    - left. apply elem_of_union. by left.
    - apply elem_of_cons in Hc' as [->|Hc']; [left | right; eauto].
      apply elem_of_union. right. by apply elem_of_singleton. }
  cbn [foldl]. unfold IndividualCore.groupStep at 2.
  rewrite sentinel_or_reserved.
  change (omap (coreGroupOf d resv) (c :: L))
    with (match coreGroupOf d resv c with
          | Some g => g :: omap (coreGroupOf d resv) L
          | None => omap (coreGroupOf d resv) L
          end).
  unfold coreGroupOf at 1.
  destruct (readBool P (CpuID c)) eqn:HP.
  - (* already grouped, as the higher member of an earlier pair *)
    apply Hinv in HP as (Hs1 & Hs2 & Hs3); [|by left].
    assert (SiblingCpuID c < CpuID c) by (apply HW; [done | by left]).
    rewrite decide_False by tauto. rewrite decide_False by lia.
    apply (IH (W ∪ {[CpuID c]})); [done..|].
    intros c' Hc'. rewrite (Hinv c') by (by right). split.
    + intros (?&?&?). repeat split; [done..|apply elem_of_union; by left].
    + intros (?&?&[?| Hs%elem_of_singleton]%elem_of_union); [done|].
      destruct (Hin' c' Hc') as [Hdc' _].
      pose proof (wf_sibling_sym c' c Hdc' Hc Hs) as Hsym.
      rewrite Hsym in Hs3. specialize (HW _ c' Hs3 ltac:(by right)). lia.
  - destruct (decide (SiblingCpuID c = -1 ∨ SiblingCpuID c ∈ resv)) as [Hsr|Hsr].
    + (* the sibling is absent or reserved *)
      rewrite bool_decide_eq_true_2 by done. simpl.
      rewrite (IH (W ∪ {[CpuID c]})); [by rewrite <-app_assoc|done..|].
      intros c' Hc'. destruct (Hin' c' Hc') as [Hdc' Hc'r].
      destruct (wf_lookup _ _ Hdc') as [_ Hc'0].
      rewrite readBool_insert, (Hinv c') by (by right). split.
      * intros [Heq|(?&?&?)]; [specialize (Hlt c' Hc'); lia|].
        repeat split; [done..|apply elem_of_union; by left].
      * intros (?&?&[?| Hs%elem_of_singleton]%elem_of_union); [by right|].
        pose proof (wf_sibling_sym c' c Hdc' Hc Hs) as Hsym.
        rewrite Hsym in Hsr. destruct Hsr; [lia | done].
    + (* the CPU opens a pair with its sibling *)
      rewrite bool_decide_eq_false_2 by done. simpl.
      assert (SiblingCpuID c ≠ -1 ∧ SiblingCpuID c ∉ resv) as [Hs1 Hs2] by tauto.
      destruct (wf_sibling_present c Hc Hs1) as (Hne & s & Hds & Hsid & Hssib).
      assert (SiblingCpuID c ∉ W) as HsW.
      { intros HsW. assert (readBool P (CpuID c) = true); [|congruence].
        apply Hinv; [by left | done]. }
      assert (CpuID c < SiblingCpuID c) as Hlow.
      { destruct (Hcov _ _ Hds Hs2) as [?|(c' & Hc' & Hid)]; [done|].
        apply elem_of_cons in Hc' as [->|Hc']; [done|].
        rewrite <-Hid. by apply Hlt. }
      rewrite decide_True by done.
      rewrite (IH (W ∪ {[CpuID c]})); [by rewrite <-app_assoc|done..|].
      intros c' Hc'. destruct (Hin' c' Hc') as [Hdc' Hc'r].
      rewrite !readBool_insert, (Hinv c') by (by right). split.
      * intros [Heq|[Heq|(?&?&?)]].
        -- pose proof (wf_sibling_sym c c' Hc Hdc' Heq) as Hsym.
           rewrite Hsym. repeat split; [lia | done |].
           apply elem_of_union. right. by apply elem_of_singleton.
        -- specialize (Hlt c' Hc'); lia.
        -- repeat split; [done..|apply elem_of_union; by left].
      * intros (?&?&[?| Hs%elem_of_singleton]%elem_of_union); [by right; right|].
        left. by apply (wf_sibling_sym c' c).
Qed.

Lemma wf_keyed : keyed_by_id d.
Proof. intros k c Hk. by destruct (Hwf k c Hk). Qed.

Lemma availableCPUs_elem c :
  c ∈ availableCPUs d resv ↔ d !! CpuID c = Some c ∧ CpuID c ∉ resv.
Proof. apply keyed_availableCPUs_elem, wf_keyed. Qed.

Lemma availableCPUs_sorted : StronglySorted (keyLt CpuID) (availableCPUs d resv).
Proof. apply keyed_availableCPUs_sorted, wf_keyed. Qed.

Lemma availableCPUs_NoDup : NoDup (CpuID <$> availableCPUs d resv).
Proof. apply keyed_availableCPUs_NoDup, wf_keyed. Qed.

Lemma availableCPUs_length : length (availableCPUs d resv) = size (dom d ∖ resv).
Proof. apply keyed_availableCPUs_length, wf_keyed. Qed.

Lemma coreGroupOf_key c g : coreGroupOf d resv c = Some g → IndividualCore.groupKey g = CpuID c.
Proof. unfold coreGroupOf. intros. repeat case_decide; by simplify_eq. Qed.

Lemma omap_groups_sorted L :
  StronglySorted (keyLt CpuID) L →
  StronglySorted (keyLt IndividualCore.groupKey) (omap (coreGroupOf d resv) L).
Proof.
  induction 1 as [|c L Hs IH Hall]; [constructor|].
  change (omap (coreGroupOf d resv) (c :: L))
    with (match coreGroupOf d resv c with
          | Some g => g :: omap (coreGroupOf d resv) L
          | None => omap (coreGroupOf d resv) L
          end).
  destruct (coreGroupOf d resv c) as [g|] eqn:Hg; [|done].
  constructor; [done|]. apply Forall_forall. intros g' Hg'.
  apply list_elem_of_omap in Hg' as (c' & Hc' & Hg').
  rewrite Forall_forall in Hall. specialize (Hall c' Hc').
  unfold keyLt in *. by rewrite (coreGroupOf_key c g), (coreGroupOf_key c' g').
Qed.

(** On a well-formed topology the groups [CreateSlices] forms are the
    groups of the description, whatever the order in which the range over
    the topology yields the CPUs. *)
Lemma coreGroups_spec visit :
  range_of d visit → IndividualCore.coreGroups visit resv = specGroups d resv.
Proof.
  intros Hr. rewrite (coreGroups_keyed d resv wf_keyed visit Hr). unfold specGroups.
  rewrite (walk_spec _ ∅).
  - simpl. apply sortSlice_sorted_id, omap_groups_sorted, availableCPUs_sorted.
  - apply availableCPUs_sorted.
  - intros c. apply availableCPUs_elem.
  - intros w c Hw. by apply not_elem_of_empty in Hw.
  - intros k c Hk Hkr. right. exists c. destruct (wf_lookup _ _ Hk) as [Hid _].
    split; [|done]. apply availableCPUs_elem. by rewrite Hid.
  - intros c Hc. unfold readBool. rewrite lookup_empty. simpl. split; [done|].
    intros (_ & _ & Hw). by apply not_elem_of_empty in Hw.
Qed.

Lemma coreGroupOf_shape c g :
  c ∈ availableCPUs d resv → coreGroupOf d resv c = Some g →
  core_group d resv g ∧ IndividualCore.groupKey g = CpuID c.
Proof.
  intros [Hc Hcr]%availableCPUs_elem. unfold coreGroupOf.
  case_decide as Hs; [by intros [= <-]|].
  case_decide as Hlt; [|done]. intros [= <-].
  destruct (wf_sibling_present c Hc ltac:(tauto)) as (_ & s & Hds & Hsid & Hssib).
  rewrite Hds. simpl. rewrite Hsid. repeat split; try done; try tauto.
Qed.

Lemma specGroups_shape : Forall (core_group d resv) (specGroups d resv).
Proof.
  apply Forall_forall. intros g (c & Hc & Hg)%list_elem_of_omap.
  by destruct (coreGroupOf_shape c g).
Qed.

Lemma specGroups_sorted :
  StronglySorted (keyLt IndividualCore.groupKey) (specGroups d resv).
Proof. apply omap_groups_sorted, availableCPUs_sorted. Qed.

Lemma core_group_members g x :
  core_group d resv g → x ∈ g →
  d !! CpuID x = Some x ∧ (CpuID x ∉ resv) ∧ IndividualCore.groupKey g ≤ CpuID x.
Proof.
  destruct g as [|c [|s [|]]]; simpl; try done.
  - intros (?&?&?) ->%list_elem_of_singleton. repeat split; [done..|lia].
  - intros (?&?&?&?&?&?&?) [->|[->|[]%elem_of_nil]%elem_of_cons]%elem_of_cons;
      repeat split; try done; lia.
Qed.

Lemma specGroups_covers c :
  c ∈ availableCPUs d resv → c ∈ concat (specGroups d resv).
Proof.
  intros Hin. pose proof Hin as [Hc Hcr]%availableCPUs_elem.
  destruct (wf_lookup _ _ Hc) as [_ Hc0].
  apply list_elem_of_concat.
  destruct (coreGroupOf d resv c) as [g|] eqn:Hg.
  - exists g. split; [|apply list_elem_of_omap; eauto].
    revert Hg. unfold coreGroupOf. repeat case_decide; intros [= <-]; by left.
  - revert Hg. unfold coreGroupOf. repeat case_decide; try done. intros _.
    destruct (wf_sibling_present c Hc ltac:(tauto)) as (Hne & s & Hds & Hsid & Hssib).
    exists [s; c]. split; [right; by left|].
    apply list_elem_of_omap. exists s. split.
    + apply availableCPUs_elem. rewrite Hsid. tauto.
    + unfold coreGroupOf. rewrite Hssib.
      rewrite decide_False by (intros [?|?]; [lia | done]).
      rewrite decide_True by lia. by rewrite Hc.
Qed.

Lemma omap_groups_NoDup L :
  StronglySorted (keyLt CpuID) L → (∀ c, c ∈ L → c ∈ availableCPUs d resv) →
  NoDup (CpuID <$> concat (omap (coreGroupOf d resv) L)).
Proof.
  induction 1 as [|c L Hs IH Hall]; intros Hin; [constructor|].
  change (omap (coreGroupOf d resv) (c :: L))
    with (match coreGroupOf d resv c with
          | Some g => g :: omap (coreGroupOf d resv) L
          | None => omap (coreGroupOf d resv) L
          end).
  assert (NoDup (CpuID <$> concat (omap (coreGroupOf d resv) L))) as Hnd
    by (apply IH; intros; apply Hin; by right).
  destruct (coreGroupOf d resv c) as [g|] eqn:Hg; [|done].
  destruct (coreGroupOf_shape c g (Hin c ltac:(left)) Hg) as [Hshape Hkey].
  rewrite Forall_forall in Hall. unfold keyLt in Hall.
  (* what the later groups hold *)
  assert (∀ x, x ∈ concat (omap (coreGroupOf d resv) L) →
            ∃ c' g', c' ∈ L ∧ core_group d resv g' ∧ IndividualCore.groupKey g' = CpuID c'
                     ∧ x ∈ g') as Hlater.
  { intros x (g' & Hx & (c' & Hc' & Hg')%list_elem_of_omap)%list_elem_of_concat.
    exists c', g'. destruct (coreGroupOf_shape c' g' (Hin c' ltac:(by right)) Hg').
    done. }
  assert (∀ x, x ∈ concat (omap (coreGroupOf d resv) L) → CpuID x ≠ CpuID c) as Hc.
  { intros x (c' & g' & Hc' & Hg' & Hk' & Hx)%Hlater Heq.
    destruct (core_group_members g' x Hg' Hx) as (_ & _ & Hle).
    specialize (Hall c' Hc'). lia. }
  simpl. rewrite fmap_app. apply NoDup_app. split_and!; [| |done].
  - destruct g as [|c0 [|s [|]]]; simpl in *; try done.
    + apply NoDup_singleton.
    + destruct Hshape as (?&?&?&?&?&?&?).
      apply NoDup_cons. split; [|apply NoDup_singleton].
      intros Heq%list_elem_of_singleton. lia.
  - intros k Hk (x & -> & Hx)%list_elem_of_fmap.
    destruct (Hlater x Hx) as (c' & g' & Hc' & Hg' & Hk' & Hxg).
    specialize (Hall c' Hc').
    destruct (core_group_members g' x Hg' Hxg) as (Hdx & _ & _).
    destruct g as [|c0 [|s [|]]]; simpl in *; try done.
    + apply list_elem_of_singleton in Hk. apply (Hc x Hx). congruence.
    + destruct Hshape as (Hdc & Hcr & Hds & Hsr & Hcs & Hsc & Hlt).
      apply elem_of_cons in Hk as [Hk|Hk%list_elem_of_singleton];
        [apply (Hc x Hx); congruence|].
      assert (x = s) as -> by (rewrite Hk in Hdx; congruence).
      destruct (wf_lookup _ _ Hdc) as [_ Hc0].
      destruct g' as [|a [|b [|]]]; simpl in *; try done.
      * apply list_elem_of_singleton in Hxg as <-.
        destruct Hg' as (_ & _ & Hsib). rewrite Hsc in Hsib.
        destruct Hsib; [lia | done].
      * destruct Hg' as (Hda & ? & Hdb & ? & Hab & Hba & ?).
        apply elem_of_cons in Hxg as [<-|<-%list_elem_of_singleton]; lia.
Qed.

(** One CPU of the catalog for every non-reserved CPU of the topology. *)
Lemma specGroups_perm : concat (specGroups d resv) ≡ₚ availableCPUs d resv.
Proof.
  apply NoDup_Permutation.
  - eapply NoDup_fmap_1, omap_groups_NoDup; [apply availableCPUs_sorted | done].
  - eapply NoDup_fmap_1, availableCPUs_NoDup.
  - intros x. split; [|apply specGroups_covers].
    intros (g & Hx & Hg)%list_elem_of_concat.
    pose proof specGroups_shape as Hshape. rewrite Forall_forall in Hshape.
    destruct (core_group_members g x (Hshape g Hg) Hx) as (? & ? & _).
    by apply availableCPUs_elem.
Qed.

(** The devices of a pair are neighbours in the catalog. *)
Lemma specGroups_adjacent c s :
  d !! CpuID c = Some c → d !! CpuID s = Some s →
  CpuID c ∉ resv → CpuID s ∉ resv →
  SiblingCpuID c = CpuID s → CpuID c < CpuID s →
  ∃ i, concat (specGroups d resv) !! i = Some c
       ∧ concat (specGroups d resv) !! S i = Some s.
Proof.
  intros Hc Hs Hcr Hsr Hsib Hlt.
  destruct (wf_lookup _ _ Hs) as [_ Hs0].
  assert ([c; s] ∈ specGroups d resv) as Hg.
  { apply list_elem_of_omap. exists c. split; [by apply availableCPUs_elem|].
    unfold coreGroupOf. rewrite Hsib.
    rewrite decide_False by (intros [?|?]; [lia | done]).
    rewrite decide_True by done. by rewrite Hs. }
  apply list_elem_of_split in Hg as (pre & post & ->).
  exists (length (concat pre)). rewrite concat_app. simpl. split.
  - by rewrite lookup_app_r, Nat.sub_diag by done.
  - rewrite lookup_app_r by lia. by replace (S _ - _)%nat with 1%nat by lia.
Qed.

End grouping.

(** ** The catalogs of the grouped managers *)

Lemma indexInsert_other prefix index ids id :
  id ∉ ids → indexInsert prefix index ids !! deviceNameOf prefix id
             = index !! deviceNameOf prefix id.
Proof.
  unfold indexInsert. revert index. induction ids as [|a ids IH]; intros index Hid; [done|].
  apply not_elem_of_cons in Hid as [Hne Hid]. simpl. rewrite IH by done.
  apply lookup_insert_ne. intros Heq. by apply (inj _) in Heq.
Qed.

Lemma indexInsert_lookup prefix index ids id :
  id ∈ ids → indexInsert prefix index ids !! deviceNameOf prefix id = Some id.
Proof.
  unfold indexInsert. revert index. induction ids as [|a ids IH]; intros index Hid.
  { by apply elem_of_nil in Hid. }
  simpl. destruct (decide (id ∈ ids)) as [Hin|Hnin]; [by apply IH|].
  apply elem_of_cons in Hid as [->|?]; [|done].
  fold (indexInsert prefix (<[deviceNameOf prefix a:=a]> index) ids).
  rewrite indexInsert_other by done. apply lookup_insert_eq.
Qed.

Lemma indexInsert_values prefix index ids name v :
  indexInsert prefix index ids !! name = Some v →
  index !! name = Some v ∨ (v ∈ ids ∧ name = deviceNameOf prefix v).
Proof.
  unfold indexInsert. revert index. induction ids as [|a ids IH]; intros index Hl; [by left|].
  simpl in Hl. apply IH in Hl as [Hl|[Hv ->]].
  - apply lookup_insert_Some in Hl as [[<- <-]|[_ Hl]]; [|by left].
    right. split; [by left | done].
  - right. split; [by right | done].
Qed.

Lemma socket_fold mgr ids index devs :
  foldl (SocketGrouped.sliceStep mgr) (index, devs) ids
  = (indexInsert cpuDeviceSocketGroupedPrefix index
       (filter (λ id, CPUSet_Size (socketAllocatable mgr id) ≠ 0) ids),
     devs ++ (socketDevice mgr <$>
                filter (λ id, CPUSet_Size (socketAllocatable mgr id) ≠ 0) ids)).
Proof.
  revert index devs. induction ids as [|id ids IH]; intros index devs.
  { simpl. by rewrite app_nil_r. }
  cbn [foldl]. unfold SocketGrouped.sliceStep at 2.
  fold (socketAllocatable mgr id). rewrite filter_cons.
  destruct (decide (CPUSet_Size (socketAllocatable mgr id) = 0)) as [Hz|Hz].
  - rewrite decide_False by tauto. apply IH.
  - rewrite decide_True by done. rewrite IH. simpl. by rewrite <-app_assoc.
Qed.

Lemma numa_fold ul mgr ids index devs :
  foldl (NUMAGrouped.sliceStep ul mgr) (index, devs) ids
  = (indexInsert cpuDeviceNUMAGroupedPrefix index
       (filter (λ id, CPUSet_Size (numaAllocatable mgr id) ≠ 0) ids),
     devs ++ ((λ id, numaDevice mgr (numaSocketID ul mgr id) id) <$>
                filter (λ id, CPUSet_Size (numaAllocatable mgr id) ≠ 0) ids)).
Proof.
  revert index devs. induction ids as [|id ids IH]; intros index devs.
  { simpl. by rewrite app_nil_r. }
  cbn [foldl]. unfold NUMAGrouped.sliceStep at 2.
  fold (numaAllocatable mgr id). rewrite filter_cons.
  destruct (decide (CPUSet_Size (numaAllocatable mgr id) = 0)) as [Hz|Hz].
  - rewrite decide_False by tauto. apply IH.
  - rewrite decide_True by done. rewrite IH. simpl. by rewrite <-app_assoc.
Qed.

Lemma socket_CreateSlices mgr :
  SocketGrouped.CreateSlices mgr
  = (if decide (eligibleSockets mgr = []) then []
     else [socketDevice mgr <$> eligibleSockets mgr],
     SocketGrouped.mkManager (SocketGrouped.driverName mgr)
       (SocketGrouped.cpuTopology mgr) (SocketGrouped.reservedCPUs mgr)
       (SocketGrouped.getSharedCPUs mgr)
       (indexInsert cpuDeviceSocketGroupedPrefix
          (SocketGrouped.deviceNameToSocketID mgr) (eligibleSockets mgr))).
Proof.
  unfold SocketGrouped.CreateSlices. rewrite socket_fold. fold (eligibleSockets mgr).
  simpl. destruct (eligibleSockets mgr) as [|id ids]; [done|].
  rewrite decide_False by done. by rewrite decide_False by done.
Qed.

Lemma numa_CreateSlices ul mgr :
  NUMAGrouped.CreateSlices ul mgr
  = (if decide (eligibleNUMANodes mgr = []) then []
     else [(λ id, numaDevice mgr (numaSocketID ul mgr id) id) <$> eligibleNUMANodes mgr],
     NUMAGrouped.mkManager (NUMAGrouped.driverName mgr)
       (NUMAGrouped.cpuTopology mgr) (NUMAGrouped.reservedCPUs mgr)
       (NUMAGrouped.getSharedCPUs mgr)
       (indexInsert cpuDeviceNUMAGroupedPrefix
          (NUMAGrouped.deviceNameToNUMANodeID mgr) (eligibleNUMANodes mgr))).
Proof.
  unfold NUMAGrouped.CreateSlices. rewrite numa_fold. fold (eligibleNUMANodes mgr).
  simpl. destruct (eligibleNUMANodes mgr) as [|id ids]; [done|].
  rewrite decide_False by done. by rewrite decide_False by done.
Qed.

Lemma socket_devices mgr :
  concat (SocketGrouped.CreateSlices mgr).1 = socketDevice mgr <$> eligibleSockets mgr.
Proof.
  rewrite socket_CreateSlices. simpl. case_decide as He; simpl.
  - by rewrite He.
  - by rewrite app_nil_r.
Qed.

Lemma numa_devices ul mgr :
  concat (NUMAGrouped.CreateSlices ul mgr).1
  = (λ id, numaDevice mgr (numaSocketID ul mgr id) id) <$> eligibleNUMANodes mgr.
Proof.
  rewrite numa_CreateSlices. simpl. case_decide as He; simpl.
  - by rewrite He.
  - by rewrite app_nil_r.
Qed.

Lemma CPUSet_Size_difference (X R : CPUSet) :
  CPUSet_Size (X ∖ R) = CPUSet_Size X - CPUSet_Size (X ∩ R).
Proof.
  unfold CPUSet_Size.
  assert (X ∖ R = X ∖ (X ∩ R)) as -> by set_solver.
  rewrite size_difference by set_solver.
  assert (size (X ∩ R) ≤ size X)%nat by (apply subseteq_size; set_solver). lia.
Qed.

Lemma CPUSet_Size_nonzero (X : CPUSet) : CPUSet_Size X ≠ 0 ↔ ∃ x, x ∈ X.
Proof.
  unfold CPUSet_Size. split.
  - intros Hs. apply size_pos_elem_of. lia.
  - intros [x Hx] Hs. assert (size X = 0%nat) as Hz by lia.
    apply size_empty_inv in Hz. set_solver.
Qed.

Lemma CPUsInSockets_elem (d : gmap Z CPUInfo) id k :
  k ∈ CPUsInSockets d id ↔ ∃ c, d !! k = Some c ∧ SocketID c = id.
Proof.
  unfold CPUsInSockets. rewrite elem_of_dom. unfold is_Some.
  setoid_rewrite map_lookup_filter_Some. simpl. naive_solver.
Qed.

Lemma CPUsInNUMANodes_elem (d : gmap Z CPUInfo) id k :
  k ∈ CPUsInNUMANodes d id ↔ ∃ c, d !! k = Some c ∧ NUMANodeID c = id.
Proof.
  unfold CPUsInNUMANodes. rewrite elem_of_dom. unfold is_Some.
  setoid_rewrite map_lookup_filter_Some. simpl. naive_solver.
Qed.

Lemma Sockets_elem (d : gmap Z CPUInfo) id :
  id ∈ Sockets d ↔ ∃ k c, d !! k = Some c ∧ SocketID c = id.
Proof.
  unfold Sockets. rewrite elem_of_map_img. setoid_rewrite lookup_fmap_Some.
  naive_solver.
Qed.

Lemma NUMANodes_elem (d : gmap Z CPUInfo) id :
  id ∈ NUMANodes d ↔ ∃ k c, d !! k = Some c ∧ NUMANodeID c = id.
Proof.
  unfold NUMANodes. rewrite elem_of_map_img. setoid_rewrite lookup_fmap_Some.
  naive_solver.
Qed.

Lemma eligibleSockets_elem mgr id :
  id ∈ eligibleSockets mgr
  ↔ id ∈ Sockets (CPUDetails (SocketGrouped.cpuTopology mgr))
    ∧ ∃ cpu, cpu ∈ CPUsInSockets (CPUDetails (SocketGrouped.cpuTopology mgr)) id
             ∧ cpu ∉ SocketGrouped.reservedCPUs mgr.
Proof.
  unfold eligibleSockets. rewrite list_elem_of_filter, CPUSet_List_elem.
  rewrite CPUSet_Size_nonzero. unfold socketAllocatable.
  setoid_rewrite elem_of_difference. tauto.
Qed.

Lemma eligibleNUMANodes_elem mgr id :
  id ∈ eligibleNUMANodes mgr
  ↔ id ∈ NUMANodes (CPUDetails (NUMAGrouped.cpuTopology mgr))
    ∧ ∃ cpu, cpu ∈ CPUsInNUMANodes (CPUDetails (NUMAGrouped.cpuTopology mgr)) id
             ∧ cpu ∉ NUMAGrouped.reservedCPUs mgr.
Proof.
  unfold eligibleNUMANodes. rewrite list_elem_of_filter, CPUSet_List_elem.
  rewrite CPUSet_Size_nonzero. unfold numaAllocatable.
  setoid_rewrite elem_of_difference. tauto.
Qed.

Lemma eligibleSockets_NoDup mgr : NoDup (eligibleSockets mgr).
Proof. apply NoDup_filter, CPUSet_List_NoDup. Qed.

Lemma eligibleNUMANodes_NoDup mgr : NoDup (eligibleNUMANodes mgr).
Proof. apply NoDup_filter, CPUSet_List_NoDup. Qed.

Lemma eligible_sorted (P : Z → Prop) `{∀ x, Decision (P x)} (s : CPUSet) :
  StronglySorted Z.lt (filter P (CPUSet_List s)).
Proof.
  pose proof (CPUSet_List_sorted s) as Hs.
  induction Hs as [|a l Hs IH Hall]; [constructor|].
  rewrite filter_cons. case_decide; [|done].
  constructor; [done|]. apply Forall_forall. intros x [_ Hx]%list_elem_of_filter.
  rewrite Forall_forall in Hall. by apply Hall.
Qed.

(** The first member [UnsortedList] lists of a set that is not empty is a
    member of the set. *)
Lemma unsorted_head ul (s : CPUSet) :
  unsorted_list_of ul → CPUSet_Size s ≠ 0 →
  ∃ k, head (ul s) = Some k ∧ k ∈ s.
Proof.
  intros Hul [x Hx]%CPUSet_Size_nonzero. specialize (Hul s).
  destruct (ul s) as [|k l] eqn:Heq.
  - apply elem_of_elements in Hx. rewrite <-Hul in Hx. by apply elem_of_nil in Hx.
  - exists k. split; [done|]. apply elem_of_elements. rewrite <-Hul. by left.
Qed.

Lemma numaSocketID_member ul mgr id :
  unsorted_list_of ul → id ∈ eligibleNUMANodes mgr →
  ∃ k c, CPUDetails (NUMAGrouped.cpuTopology mgr) !! k = Some c
         ∧ NUMANodeID c = id ∧ k ∉ NUMAGrouped.reservedCPUs mgr
         ∧ numaSocketID ul mgr id = SocketID c.
Proof.
  intros Hul [Hnz _]%list_elem_of_filter.
  destruct (unsorted_head ul _ Hul Hnz) as (k & Hhead & Hk).
  unfold numaAllocatable in Hk. apply elem_of_difference in Hk as [Hk Hr].
  apply CPUsInNUMANodes_elem in Hk as (c & Hc & Hid).
  exists k, c. split_and!; [done..|].
  unfold numaSocketID. rewrite Hhead. simpl. by rewrite Hc.
Qed.

(** * The claims *)

(** ** Grouping by physical core *)

(** C4.  On a well-formed topology, whatever the order in which the range
    over the topology yields the CPUs, the catalog of the Individual-Core
    manager lists the CPUs of the groups [specGroups] in order: every group
    is a non-reserved CPU alone, whose sibling is absent or reserved, or a
    non-reserved CPU followed by its non-reserved sibling; the groups are in
    ascending order of their first and lowest member; every non-reserved
    CPU is listed once; the device at position [i] is named by the index
    [i] and the index resolves the name to the CPU; the devices of a
    sibling pair are neighbours.  With the CPUs 0..3 and the sibling pairs
    0, 2 and 1, 3 the catalog is cpudev000..cpudev003 for the CPUs 0, 2, 1,
    3, and with CPU 2 reserved it is three devices for the CPUs 0, 1, 3. *)
Theorem individual_core_grouping :
  (∀ (name : string) (topo : CPUTopology) (resv : CPUSet) (visit : list CPUInfo),
     wf_topology (CPUDetails topo) → range_of (CPUDetails topo) visit →
     let d := CPUDetails topo in
     let r := IndividualCore.CreateSlices visit
                (IndividualCore.NewIndividualCoreManager name topo resv) in
     let groups := specGroups d resv in
     let cpus := concat groups in
     Forall (core_group d resv) groups
     ∧ StronglySorted (keyLt IndividualCore.groupKey) groups
     ∧ cpus ≡ₚ availableCPUs d resv
     ∧ concat r.1 = numbered 0 cpus
     ∧ (∀ i c, cpus !! i = Some c →
          IndividualCore.deviceNameToCPUID r.2
            !! deviceNameOf cpuDevicePrefix (Z.of_nat i) = Some (CpuID c))
     ∧ (∀ c s, d !! CpuID c = Some c → d !! CpuID s = Some s →
          CpuID c ∉ resv → CpuID s ∉ resv →
          SiblingCpuID c = CpuID s → CpuID c < CpuID s →
          ∃ i, concat r.1 !! i = Some (IndividualCore.cpuDevice (Z.of_nat i) c)
               ∧ concat r.1 !! S i = Some (IndividualCore.cpuDevice (Z.of_nat (S i)) s)))
  ∧ (let r := IndividualCore.CreateSlices (visitOf topoTwoCores)
                (IndividualCore.NewIndividualCoreManager "dra.cpu" topoTwoCores ∅) in
     Name <$> concat r.1 = ["cpudev000"; "cpudev001"; "cpudev002"; "cpudev003"]
     ∧ resolvedCPUs r.2 (concat r.1) = [Some 0; Some 2; Some 1; Some 3]
     ∧ specGroups (CPUDetails topoTwoCores) ∅
       = [[mkCPUInfo 0 0 0 0 0 2 "performance"; mkCPUInfo 2 0 0 0 0 0 "performance"];
          [mkCPUInfo 1 1 0 0 0 3 "performance"; mkCPUInfo 3 1 0 0 0 1 "performance"]])
  ∧ (let r := IndividualCore.CreateSlices (visitOf topoTwoCores)
                (IndividualCore.NewIndividualCoreManager "dra.cpu" topoTwoCores {[2]}) in
     Name <$> concat r.1 = ["cpudev000"; "cpudev001"; "cpudev002"]
     ∧ resolvedCPUs r.2 (concat r.1) = [Some 0; Some 1; Some 3]
     ∧ specGroups (CPUDetails topoTwoCores) {[2]}
       = [[mkCPUInfo 0 0 0 0 0 2 "performance"];
          [mkCPUInfo 1 1 0 0 0 3 "performance"; mkCPUInfo 3 1 0 0 0 1 "performance"]]).
Proof.
  split; [|split; [by vm_compute | by vm_compute]].
  intros name topo resv visit Hwf Hr d r groups cpus.
  assert (concat r.1 = numbered 0 cpus) as Hdev.
  { unfold r. rewrite IndividualCoreFacts.CreateSlices_devices. simpl.
    by rewrite (coreGroups_spec d resv Hwf visit Hr). }
  split_and!.
  - by apply specGroups_shape.
  - by apply specGroups_sorted.
  - by apply specGroups_perm.
  - done.
  - intros i c Hi. unfold r, IndividualCore.CreateSlices.
    rewrite IndividualCoreFacts.emit_concat. simpl.
    rewrite (coreGroups_spec d resv Hwf visit Hr). fold groups cpus.
    pose proof (IndividualCoreFacts.emit_index_lookup cpus 0 ∅ [] i c Hi) as Hl.
    destruct (foldl IndividualCore.emitStep _ cpus) as [[n idx] devs].
    simpl in Hl. rewrite Z.add_0_l in Hl. by case_decide.
  - intros c s Hc Hs Hcr Hsr Hsib Hlt.
    destruct (specGroups_adjacent d resv Hwf c s Hc Hs Hcr Hsr Hsib Hlt) as (i & Hi & HSi).
    exists i. rewrite Hdev, !IndividualCoreFacts.numbered_lookup.
    fold groups cpus in Hi, HSi. rewrite Hi, HSi. simpl.
    by rewrite !Z.add_0_l.
Qed.

(** A sample for C4: the two-core topology with CPU 2 reserved. *)
Lemma individual_core_grouping_witness :
  wf_topology (CPUDetails topoTwoCores)
  ∧ range_of (CPUDetails topoTwoCores) (visitOf topoTwoCores)
  ∧ concat (specGroups (CPUDetails topoTwoCores) {[2]})
    ≡ₚ availableCPUs (CPUDetails topoTwoCores) {[2]}.
Proof.
  assert (wf_topology (CPUDetails topoTwoCores)) as Hwf
    by (apply (bool_decide_unpack _); vm_compute; exact I).
  assert (range_of (CPUDetails topoTwoCores) (visitOf topoTwoCores)) as Hr
    by (unfold range_of, visitOf; reflexivity).
  split; [exact Hwf|]. split; [exact Hr|].
  exact (proj1 (proj2 (proj2
    (proj1 individual_core_grouping "dra.cpu" topoTwoCores {[2]}
       (visitOf topoTwoCores) Hwf Hr)))).
Defined.

(** ** Slicing of the Individual-Core catalog *)

(** C6.  The slices the Individual-Core manager returns are the device
    sequence cut into consecutive chunks: chained together they give the
    sequence back in its order, every chunk holds between 1 and 128 devices,
    all chunks but possibly the last hold 128, and an empty catalog gives no
    slice.  The device at position [i] of the chained slices carries the
    index [i] in its name.  A catalog of 300 devices comes in chunks of 128,
    128 and 44, and a well-formed topology with 300 non-reserved CPUs has
    such a catalog. *)
Theorem individual_core_chunking :
  (∀ (visit : list CPUInfo) (mgr : IndividualCore.Manager),
     let slices := (IndividualCore.CreateSlices visit mgr).1 in
     let allDevices :=
       numbered 0 (concat (IndividualCore.coreGroups visit (IndividualCore.reservedCPUs mgr))) in
     concat slices = allDevices
     ∧ Forall (λ chunk, (0 < length chunk ≤ maxDevicesPerResourceSlice)%nat) slices
     ∧ length <$> slices
       = replicate (length allDevices / maxDevicesPerResourceSlice) maxDevicesPerResourceSlice
         ++ (if decide (length allDevices mod maxDevicesPerResourceSlice = 0)%nat then []
             else [(length allDevices mod maxDevicesPerResourceSlice)%nat])
     ∧ (allDevices = [] → slices = [])
     ∧ (∀ i dev, concat slices !! i = Some dev →
          Name dev = deviceNameOf cpuDevicePrefix (Z.of_nat i))
     ∧ (length allDevices = 300%nat → length <$> slices = [128; 128; 44]%nat))
  ∧ (∀ (name : string) (topo : CPUTopology) (resv : CPUSet) (visit : list CPUInfo),
       wf_topology (CPUDetails topo) → range_of (CPUDetails topo) visit →
       size (dom (CPUDetails topo) ∖ resv) = 300%nat →
       let slices := (IndividualCore.CreateSlices visit
                        (IndividualCore.NewIndividualCoreManager name topo resv)).1 in
       length <$> slices = [128; 128; 44]%nat
       ∧ Name <$> concat slices
         = (λ i, deviceNameOf cpuDevicePrefix (Z.of_nat i)) <$> seq 0 300).
Proof.
  assert (∀ visit mgr,
    length <$> (IndividualCore.CreateSlices visit mgr).1
    = replicate (length (numbered 0 (concat (IndividualCore.coreGroups visit
                   (IndividualCore.reservedCPUs mgr)))) / maxDevicesPerResourceSlice)
        maxDevicesPerResourceSlice
      ++ (if decide (length (numbered 0 (concat (IndividualCore.coreGroups visit
                   (IndividualCore.reservedCPUs mgr)))) mod maxDevicesPerResourceSlice = 0)%nat
          then []
          else [(length (numbered 0 (concat (IndividualCore.coreGroups visit
                   (IndividualCore.reservedCPUs mgr)))) mod maxDevicesPerResourceSlice)%nat]))
    as Hlens.
  { intros visit mgr. rewrite IndividualCoreFacts.CreateSlices_chunks.
    apply Chunk_lengths. unfold maxDevicesPerResourceSlice. lia. }
  assert (∀ visit mgr i dev,
    concat (IndividualCore.CreateSlices visit mgr).1 !! i = Some dev →
    Name dev = deviceNameOf cpuDevicePrefix (Z.of_nat i)) as Hnames.
  { intros visit mgr i dev. rewrite IndividualCoreFacts.CreateSlices_devices.
    rewrite IndividualCoreFacts.numbered_lookup.
    destruct (_ !! i); [|done]. intros [= <-]. simpl. by rewrite Z.add_0_l. }
  split.
  - intros visit mgr slices allDevices. split_and!.
    + apply IndividualCoreFacts.CreateSlices_devices.
    + unfold slices. rewrite IndividualCoreFacts.CreateSlices_chunks.
      apply Chunk_Forall. unfold maxDevicesPerResourceSlice. lia.
    + apply Hlens.
    + unfold slices. rewrite IndividualCoreFacts.CreateSlices_chunks.
      fold allDevices. by intros ->.
    + apply Hnames.
    + intros Hlen. unfold slices. rewrite Hlens. fold allDevices. by rewrite Hlen.
  - intros name topo resv visit Hwf Hr Hsize slices.
    assert (length (concat slices) = 300%nat) as Hlen.
    { unfold slices. rewrite IndividualCoreFacts.CreateSlices_devices.
      rewrite IndividualCoreFacts.numbered_length. simpl.
      rewrite (coreGroups_spec _ resv Hwf visit Hr).
      rewrite (specGroups_perm _ resv Hwf).
      by rewrite (availableCPUs_length _ resv Hwf). }
    split.
    + unfold slices. rewrite Hlens.
      unfold slices in Hlen. rewrite IndividualCoreFacts.CreateSlices_devices in Hlen.
      by rewrite Hlen.
    + apply list_eq. intros i. rewrite !list_lookup_fmap.
      destruct (concat slices !! i) as [dev|] eqn:Hi.
      * apply lookup_lt_Some in Hi as Hlt. rewrite Hlen in Hlt.
        rewrite lookup_seq_lt by done. simpl. f_equal.
        by apply (Hnames visit (IndividualCore.NewIndividualCoreManager name topo resv) i).
      * apply lookup_ge_None in Hi. rewrite Hlen in Hi.
        by rewrite lookup_seq_ge.
Qed.

(** A sample for C6: 300 CPUs on 150 cores, none reserved. *)
Lemma individual_core_chunking_witness :
  wf_topology (CPUDetails topo300)
  ∧ range_of (CPUDetails topo300) (visitOf topo300)
  ∧ size (dom (CPUDetails topo300) ∖ (∅ : CPUSet)) = 300%nat
  ∧ length <$> (IndividualCore.CreateSlices (visitOf topo300)
                  (IndividualCore.NewIndividualCoreManager "dra.cpu" topo300 ∅)).1
    = [128; 128; 44]%nat.
Proof.
  assert (wf_topology (CPUDetails topo300)) as Hwf
    by (apply (bool_decide_unpack _); vm_compute; exact I).
  assert (range_of (CPUDetails topo300) (visitOf topo300)) as Hr
    by (unfold range_of, visitOf; reflexivity).
  assert (size (dom (CPUDetails topo300) ∖ (∅ : CPUSet)) = 300%nat) as Hsize
    by (vm_compute; reflexivity).
  split; [exact Hwf|]. split; [exact Hr|]. split; [exact Hsize|].
  exact (proj1 (proj2 individual_core_chunking "dra.cpu" topo300 ∅
                  (visitOf topo300) Hwf Hr Hsize)).
Defined.

(** ** Device names of the three managers *)

(** C8.  Every name in a catalog of the Individual-Core manager is the
    prefix cpudev followed by three or more decimal digits and nothing else,
    every name of the Socket-Grouped manager starts with cpudevsocket and
    every name of the NUMA-Grouped manager with cpudevnuma, and no name of
    one manager's catalog is a name of another's. *)
Theorem device_names_disjoint
    (visit : list CPUInfo) (UnsortedList : CPUSet → list Z)
    (mi : IndividualCore.Manager) (ms : SocketGrouped.Manager)
    (mn : NUMAGrouped.Manager) :
  let namesI := Name <$> concat (IndividualCore.CreateSlices visit mi).1 in
  let namesS := Name <$> concat (SocketGrouped.CreateSlices ms).1 in
  let namesN := Name <$> concat (NUMAGrouped.CreateSlices UnsortedList mn).1 in
  (∀ x, x ∈ namesI →
     ∃ digits, x = cpuDevicePrefix +:+ digits ∧ all_digits digits
               ∧ (3 ≤ String.length digits)%nat)
  ∧ (∀ x, x ∈ namesS → ∃ id, x = cpuDeviceSocketGroupedPrefix +:+ fmt_03d id)
  ∧ (∀ x, x ∈ namesN → ∃ id, x = cpuDeviceNUMAGroupedPrefix +:+ fmt_03d id)
  ∧ (∀ x, x ∈ namesI → x ∉ namesS)
  ∧ (∀ x, x ∈ namesI → x ∉ namesN)
  ∧ (∀ x, x ∈ namesS → x ∉ namesN).
Proof.
  intros namesI namesS namesN.
  assert (∀ x, x ∈ namesI → ∃ i : nat, x = deviceNameOf cpuDevicePrefix (Z.of_nat i)) as HI.
  { intros x (dev & -> & Hdev)%list_elem_of_fmap.
    apply list_elem_of_lookup in Hdev as [i Hi].
    rewrite IndividualCoreFacts.CreateSlices_devices in Hi.
    rewrite IndividualCoreFacts.numbered_lookup in Hi.
    destruct (_ !! i); [|done]. injection Hi as <-. exists i. simpl.
    by rewrite Z.add_0_l. }
  assert (∀ x, x ∈ namesS → ∃ id, x = cpuDeviceSocketGroupedPrefix +:+ fmt_03d id) as HS.
  { intros x (dev & -> & Hdev)%list_elem_of_fmap. unfold namesS in *.
    rewrite socket_devices in Hdev.
    apply list_elem_of_fmap in Hdev as (id & -> & _). by exists id. }
  assert (∀ x, x ∈ namesN → ∃ id, x = cpuDeviceNUMAGroupedPrefix +:+ fmt_03d id) as HN.
  { intros x (dev & -> & Hdev)%list_elem_of_fmap. unfold namesN in *.
    rewrite numa_devices in Hdev.
    apply list_elem_of_fmap in Hdev as (id & -> & _). by exists id. }
  assert (∀ (i : nat) c rest, fmt_03d (Z.of_nat i) = String c rest → is_digit c) as Hhead.
  { intros i c rest Heq. destruct (fmt_03d_digits (Z.of_nat i)) as [Hd _]; [lia|].
    rewrite Heq in Hd. apply Hd. }
  assert (¬ is_digit "s") as Hs.
  { unfold is_digit. intros H.
    repeat (apply elem_of_cons in H as [H|H]; [discriminate|]).
    by apply elem_of_nil in H. }
  assert (¬ is_digit "n") as Hn.
  { unfold is_digit. intros H.
    repeat (apply elem_of_cons in H as [H|H]; [discriminate|]).
    by apply elem_of_nil in H. }
  split_and!; [|done|done|..].
  - intros x [i ->]%HI. exists (fmt_03d (Z.of_nat i)).
    split; [done|]. apply fmt_03d_digits. lia.
  - intros x [i ->]%HI [id Heq]%HS.
    unfold deviceNameOf, cpuDevicePrefix, cpuDeviceSocketGroupedPrefix in Heq.
    simpl in Heq. injection Heq as Heq. by apply Hhead in Heq.
  - intros x [i ->]%HI [id Heq]%HN.
    unfold deviceNameOf, cpuDevicePrefix, cpuDeviceNUMAGroupedPrefix in Heq.
    simpl in Heq. injection Heq as Heq. by apply Hhead in Heq.
  - intros x [id ->]%HS [id' Heq]%HN.
    unfold cpuDeviceSocketGroupedPrefix, cpuDeviceNUMAGroupedPrefix in Heq.
    simpl in Heq. discriminate.
Qed.

(** ** The catalogs of the grouped managers *)

(** C5.  The catalog of the Socket-Grouped manager holds, in ascending
    order of the socket IDs, one device for every socket ID of the topology
    that has a CPU outside the reserved set, and none for the others; the
    names of the devices are pairwise distinct and the index resolves each
    to its socket ID; the capacity of a device is the single quantity
    dra.cpu/cpu, equal to the number of CPUs of the socket minus the number
    of reserved CPUs among them, and the device allows multiple allocations.
    The same holds of the NUMA-Grouped manager and the NUMA node IDs. *)
Theorem grouped_catalog :
  (∀ mgr : SocketGrouped.Manager,
     let d := CPUDetails (SocketGrouped.cpuTopology mgr) in
     let resv := SocketGrouped.reservedCPUs mgr in
     let r := SocketGrouped.CreateSlices mgr in
     concat r.1 = socketDevice mgr <$> eligibleSockets mgr
     ∧ StronglySorted Z.lt (eligibleSockets mgr)
     ∧ NoDup (Name <$> concat r.1)
     ∧ (∀ id, id ∈ eligibleSockets mgr
          ↔ id ∈ Sockets d ∧ ∃ cpu, cpu ∈ CPUsInSockets d id ∧ cpu ∉ resv)
     ∧ (∀ id, id ∈ eligibleSockets mgr →
          SocketGrouped.deviceNameToSocketID r.2 !! Name (socketDevice mgr id) = Some id)
     ∧ (∀ id, Name (socketDevice mgr id) = deviceNameOf cpuDeviceSocketGroupedPrefix id
          ∧ Capacity (socketDevice mgr id)
            = {[ "dra.cpu/cpu" := CPUSet_Size (CPUsInSockets d id)
                                  - CPUSet_Size (CPUsInSockets d id ∩ resv) ]}
          ∧ AllowMultipleAllocations (socketDevice mgr id) = Some true))
  ∧ (∀ (UnsortedList : CPUSet → list Z) (mgr : NUMAGrouped.Manager),
     let d := CPUDetails (NUMAGrouped.cpuTopology mgr) in
     let resv := NUMAGrouped.reservedCPUs mgr in
     let r := NUMAGrouped.CreateSlices UnsortedList mgr in
     let device := λ id, numaDevice mgr (numaSocketID UnsortedList mgr id) id in
     concat r.1 = device <$> eligibleNUMANodes mgr
     ∧ StronglySorted Z.lt (eligibleNUMANodes mgr)
     ∧ NoDup (Name <$> concat r.1)
     ∧ (∀ id, id ∈ eligibleNUMANodes mgr
          ↔ id ∈ NUMANodes d ∧ ∃ cpu, cpu ∈ CPUsInNUMANodes d id ∧ cpu ∉ resv)
     ∧ (∀ id, id ∈ eligibleNUMANodes mgr →
          NUMAGrouped.deviceNameToNUMANodeID r.2 !! Name (device id) = Some id)
     ∧ (∀ id, Name (device id) = deviceNameOf cpuDeviceNUMAGroupedPrefix id
          ∧ Capacity (device id)
            = {[ "dra.cpu/cpu" := CPUSet_Size (CPUsInNUMANodes d id)
                                  - CPUSet_Size (CPUsInNUMANodes d id ∩ resv) ]}
          ∧ AllowMultipleAllocations (device id) = Some true)).
Proof.
  split.
  - intros mgr d resv r. split_and!.
    + apply socket_devices.
    + apply eligible_sorted.
    + unfold r. rewrite socket_devices, <-list_fmap_compose.
      apply NoDup_fmap_2; [|apply eligibleSockets_NoDup].
      intros x y Heq. by apply (inj (deviceNameOf _)) in Heq.
    + apply eligibleSockets_elem.
    + intros id Hid. unfold r. rewrite socket_CreateSlices. simpl.
      by apply indexInsert_lookup.
    + intros id. split_and!; [done| |done]. simpl.
      unfold socketAllocatable. by rewrite CPUSet_Size_difference.
  - intros ul mgr d resv r device. split_and!.
    + apply numa_devices.
    + apply eligible_sorted.
    + unfold r. rewrite numa_devices, <-list_fmap_compose.
      apply NoDup_fmap_2; [|apply eligibleNUMANodes_NoDup].
      intros x y Heq. by apply (inj (deviceNameOf _)) in Heq.
    + apply eligibleNUMANodes_elem.
    + intros id Hid. unfold r. rewrite numa_CreateSlices. simpl.
      by apply indexInsert_lookup.
    + intros id. split_and!; [done| |done]. simpl.
      unfold numaAllocatable. by rewrite CPUSet_Size_difference.
Qed.

Lemma numa_slice_lengths ul mgr n :
  length (eligibleNUMANodes mgr) = S n →
  length <$> (NUMAGrouped.CreateSlices ul mgr).1 = [S n].
Proof.
  intros Hlen. rewrite numa_CreateSlices. cbn [fst].
  destruct (eligibleNUMANodes mgr) as [|id ids] eqn:He; [discriminate|].
  rewrite decide_False by done. cbn [fmap list_fmap length].
  fold (@fmap list _ _ _ (λ id, numaDevice mgr (numaSocketID ul mgr id) id) ids).
  rewrite length_fmap. cbn [length] in Hlen. by rewrite Hlen.
Qed.

(** C1.  Whatever the number of devices, the grouped managers return the
    whole catalog as one slice: on a topology of 129 sockets, which are also
    129 NUMA nodes, each returns a single slice of 129 devices, above the
    limit of 128 devices per slice. *)
Theorem grouped_catalog_single_slice :
  (∀ mgr, (SocketGrouped.CreateSlices mgr).1 = []
          ∨ (SocketGrouped.CreateSlices mgr).1 = [socketDevice mgr <$> eligibleSockets mgr])
  ∧ (∀ ul mgr, (NUMAGrouped.CreateSlices ul mgr).1 = []
          ∨ (NUMAGrouped.CreateSlices ul mgr).1
            = [(λ id, numaDevice mgr (numaSocketID ul mgr id) id) <$> eligibleNUMANodes mgr])
  ∧ length <$> (SocketGrouped.CreateSlices
                  (SocketGrouped.NewSocketGroupedManager "dra.cpu" topo129 ∅ (λ _, ∅))).1
    = [129%nat]
  ∧ (∀ ul, length <$> (NUMAGrouped.CreateSlices ul
                  (NUMAGrouped.NewNUMAGroupedManager "dra.cpu" topo129 ∅ (λ _, ∅))).1
    = [129%nat]).
Proof.
  split_and!.
  - intros mgr. rewrite socket_CreateSlices. simpl. case_decide; auto.
  - intros ul mgr. rewrite numa_CreateSlices. simpl. case_decide; auto.
  - by vm_compute.
  - intros ul.
    assert (length (eligibleNUMANodes
              (NUMAGrouped.NewNUMAGroupedManager "dra.cpu" topo129 ∅ (λ _, ∅))) = 129%nat)
      as Hlen by (vm_compute; reflexivity).
    exact (numa_slice_lengths ul _ 128 Hlen).
Qed.

(** ** Determinism of the catalogs *)

Lemma listAscending_valid : unsorted_list_of listAscending.
Proof. intros s. apply merge_sort_Permutation. Qed.

Lemma listDescending_valid : unsorted_list_of listDescending.
Proof.
  intros s. unfold listDescending. rewrite reverse_Permutation.
  apply merge_sort_Permutation.
Qed.

(** C10, as stated, fails: on a topology whose NUMA node 0 spans the sockets
    0 and 1, the socket ID attribute of the device of node 0 is 0 when
    [UnsortedList] lists CPU 0 first and 1 when it lists CPU 1 first, so two
    runs give different catalogs. *)
Lemma numa_catalog_depends_on_listing :
  let mgr := NUMAGrouped.NewNUMAGroupedManager "dra.cpu" topoSharedNUMA ∅ (λ _, ∅) in
  unsorted_list_of listAscending ∧ unsorted_list_of listDescending
  ∧ (λ dev, Attributes dev !! "dra.cpu/socketID")
      <$> concat (NUMAGrouped.CreateSlices listAscending mgr).1 = [Some (IntValue 0)]
  ∧ (λ dev, Attributes dev !! "dra.cpu/socketID")
      <$> concat (NUMAGrouped.CreateSlices listDescending mgr).1 = [Some (IntValue 1)]
  ∧ NUMAGrouped.CreateSlices listAscending mgr ≠ NUMAGrouped.CreateSlices listDescending mgr.
Proof.
  intros mgr.
  assert ((λ dev, Attributes dev !! "dra.cpu/socketID")
            <$> concat (NUMAGrouped.CreateSlices listAscending mgr).1
          = [Some (IntValue 0)]) as H1 by (by vm_compute).
  assert ((λ dev, Attributes dev !! "dra.cpu/socketID")
            <$> concat (NUMAGrouped.CreateSlices listDescending mgr).1
          = [Some (IntValue 1)]) as H2 by (by vm_compute).
  split_and!; [apply listAscending_valid | apply listDescending_valid | done..|].
  intros Heq. rewrite Heq, H2 in H1. discriminate.
Qed.

(** C10, amended.  On a topology whose entries are filed under their CPU
    IDs, the catalog and the index of the Individual-Core manager do not
    depend on the order in which the range over the topology yields the
    CPUs.  The catalog and the index of the Socket-Grouped manager do not
    depend on the shared pool.  On a topology whose NUMA nodes each lie
    within one socket, the catalog and the index of the NUMA-Grouped manager
    do not depend on the listing [UnsortedList] gives. *)
Theorem catalog_deterministic :
  (∀ (name : string) (topo : CPUTopology) (resv : CPUSet) (visit1 visit2 : list CPUInfo),
     keyed_by_id (CPUDetails topo) →
     range_of (CPUDetails topo) visit1 → range_of (CPUDetails topo) visit2 →
     IndividualCore.CreateSlices visit1 (IndividualCore.NewIndividualCoreManager name topo resv)
     = IndividualCore.CreateSlices visit2 (IndividualCore.NewIndividualCoreManager name topo resv))
  ∧ (∀ (name : string) (topo : CPUTopology) (resv : CPUSet) (shared1 shared2 : nat → CPUSet),
       let r1 := SocketGrouped.CreateSlices
                   (SocketGrouped.NewSocketGroupedManager name topo resv shared1) in
       let r2 := SocketGrouped.CreateSlices
                   (SocketGrouped.NewSocketGroupedManager name topo resv shared2) in
       r1.1 = r2.1
       ∧ SocketGrouped.deviceNameToSocketID r1.2 = SocketGrouped.deviceNameToSocketID r2.2)
  ∧ (∀ (name : string) (topo : CPUTopology) (resv : CPUSet) (shared : nat → CPUSet)
       (ul1 ul2 : CPUSet → list Z),
       numa_within_socket (CPUDetails topo) →
       unsorted_list_of ul1 → unsorted_list_of ul2 →
       NUMAGrouped.CreateSlices ul1 (NUMAGrouped.NewNUMAGroupedManager name topo resv shared)
       = NUMAGrouped.CreateSlices ul2 (NUMAGrouped.NewNUMAGroupedManager name topo resv shared)).
Proof.
  split_and!.
  - intros name topo resv visit1 visit2 Hkey Hr1 Hr2.
    unfold IndividualCore.CreateSlices. simpl.
    by rewrite (coreGroups_keyed _ resv Hkey visit1 Hr1),
               (coreGroups_keyed _ resv Hkey visit2 Hr2).
  - intros name topo resv shared1 shared2 r1 r2. unfold r1, r2.
    rewrite !socket_CreateSlices. done.
  - intros name topo resv shared ul1 ul2 Hnuma Hul1 Hul2.
    rewrite !numa_CreateSlices.
    set (mgr := NUMAGrouped.NewNUMAGroupedManager name topo resv shared).
    assert ((λ id, numaDevice mgr (numaSocketID ul1 mgr id) id) <$> eligibleNUMANodes mgr
            = (λ id, numaDevice mgr (numaSocketID ul2 mgr id) id) <$> eligibleNUMANodes mgr)
      as ->; [|done].
    apply list_fmap_ext. intros i id Hid%list_elem_of_lookup_2.
    destruct (numaSocketID_member ul1 mgr id Hul1 Hid) as (k1 & c1 & Hc1 & Hn1 & _ & ->).
    destruct (numaSocketID_member ul2 mgr id Hul2 Hid) as (k2 & c2 & Hc2 & Hn2 & _ & ->).
    f_equal. simpl in Hc1, Hc2.
    apply (Hnuma k1 c1 Hc1 k2 c2 Hc2). congruence.
Qed.

(** A sample for the amended C10: the two-core topology and the two
    listings. *)
Lemma catalog_deterministic_witness :
  keyed_by_id (CPUDetails topoTwoCores)
  ∧ numa_within_socket (CPUDetails topoTwoCores)
  ∧ unsorted_list_of listAscending ∧ unsorted_list_of listDescending
  ∧ range_of (CPUDetails topoTwoCores) (visitOf topoTwoCores)
  ∧ range_of (CPUDetails topoTwoCores) (reverse (visitOf topoTwoCores))
  ∧ IndividualCore.CreateSlices (visitOf topoTwoCores)
      (IndividualCore.NewIndividualCoreManager "dra.cpu" topoTwoCores {[2]})
    = IndividualCore.CreateSlices (reverse (visitOf topoTwoCores))
        (IndividualCore.NewIndividualCoreManager "dra.cpu" topoTwoCores {[2]})
  ∧ NUMAGrouped.CreateSlices listAscending
      (NUMAGrouped.NewNUMAGroupedManager "dra.cpu" topoTwoCores {[2]} (λ _, ∅))
    = NUMAGrouped.CreateSlices listDescending
        (NUMAGrouped.NewNUMAGroupedManager "dra.cpu" topoTwoCores {[2]} (λ _, ∅)).
Proof.
  assert (keyed_by_id (CPUDetails topoTwoCores)) as Hkey
    by (apply (bool_decide_unpack _); vm_compute; exact I).
  assert (numa_within_socket (CPUDetails topoTwoCores)) as Hnuma
    by (apply (bool_decide_unpack _); vm_compute; exact I).
  assert (range_of (CPUDetails topoTwoCores) (visitOf topoTwoCores)) as Hr1
    by (unfold range_of, visitOf; reflexivity).
  assert (range_of (CPUDetails topoTwoCores) (reverse (visitOf topoTwoCores))) as Hr2
    by (unfold range_of, visitOf; apply reverse_Permutation).
  split_and!; [exact Hkey | exact Hnuma | exact listAscending_valid
              | exact listDescending_valid | exact Hr1 | exact Hr2 | |].
  - exact (proj1 catalog_deterministic "dra.cpu" topoTwoCores {[2]} _ _ Hkey Hr1 Hr2).
  - exact (proj2 (proj2 catalog_deterministic) "dra.cpu" topoTwoCores {[2]} (λ _, ∅)
             listAscending listDescending Hnuma listAscending_valid listDescending_valid).
Defined.

(** ** Claim resolution *)

Lemma individual_resolve_error mgr results acc cpus e :
  IndividualCore.resolve mgr results acc = (cpus, Some e) → cpus = ∅.
Proof.
  revert acc. induction results as [|alloc rest IH]; intros acc; simpl.
  - case_decide; intros [= _ ?]; done.
  - case_decide; [apply IH|].
    destruct (_ !! Device_ alloc); [apply IH | by intros [= <- _]].
Qed.

Lemma individual_resolve_filter mgr results acc :
  IndividualCore.resolve mgr results acc
  = IndividualCore.resolve mgr (resultsOf (IndividualCore.driverName mgr) results) acc.
Proof.
  revert acc. induction results as [|alloc rest IH]; intros acc; [done|].
  unfold resultsOf. rewrite filter_cons. simpl.
  destruct (decide (Driver alloc = IndividualCore.driverName mgr)) as [Heq|Hne].
  - rewrite decide_False by tauto. simpl. rewrite decide_False by tauto.
    destruct (_ !! Device_ alloc); [apply IH | done].
  - rewrite decide_True by done. apply IH.
Qed.

Lemma individual_resolve_missing mgr results acc alloc :
  alloc ∈ results → Driver alloc = IndividualCore.driverName mgr →
  IndividualCore.deviceNameToCPUID mgr !! Device_ alloc = None →
  ∃ e, IndividualCore.resolve mgr results acc = (∅, Some e).
Proof.
  intros Hin Hdrv Hmiss. revert acc.
  induction results as [|a rest IH]; intros acc; [by apply elem_of_nil in Hin|].
  simpl. case_decide as Hd.
  - apply elem_of_cons in Hin as [->|Hin]; [done | by apply IH].
  - destruct (_ !! Device_ a) eqn:Hl; [|eauto].
    apply elem_of_cons in Hin as [->|Hin]; [congruence | by apply IH].
Qed.

Lemma individual_resolve_values mgr results acc cpus err x :
  IndividualCore.resolve mgr results acc = (cpus, err) → x ∈ cpus →
  x ∈ acc ∨ ∃ name, IndividualCore.deviceNameToCPUID mgr !! name = Some x.
Proof.
  revert acc. induction results as [|a rest IH]; intros acc; simpl.
  - case_decide; intros [= <- _]; [by intros ?%not_elem_of_empty|].
    intros Hx%elem_of_list_to_set. by left.
  - case_decide; [apply IH|].
    destruct (_ !! Device_ a) eqn:Hl; [|by intros [= <- _] ?%not_elem_of_empty].
    intros Hres Hx. destruct (IH _ Hres Hx) as [Hacc|?]; [|by right].
    apply elem_of_app in Hacc as [?|Hx'%list_elem_of_singleton]; [by left|].
    subst. eauto.
Qed.

Lemma CPUSet_Size_empty : CPUSet_Size ∅ = 0.
Proof. unfold CPUSet_Size. by rewrite size_empty. Qed.

Lemma socket_resolve_error take mgr results calls acc cpus e :
  SocketGrouped.resolve take mgr results calls acc = (cpus, Some e) → cpus = ∅.
Proof.
  revert calls acc. induction results as [|alloc rest IH]; intros calls acc; simpl.
  - case_decide; intros [= _ ?]; done.
  - case_decide; [apply IH|].
    destruct (_ !! Device_ alloc); [|by intros [= <- _]].
    destruct (take _ _ _) as [cur [err|]]; [by intros [= <- _] | apply IH].
Qed.

Lemma numa_resolve_error take mgr results calls acc cpus e :
  NUMAGrouped.resolve take mgr results calls acc = (cpus, Some e) → cpus = ∅.
Proof.
  revert calls acc. induction results as [|alloc rest IH]; intros calls acc; simpl.
  - case_decide; intros [= _ ?]; done.
  - case_decide; [apply IH|].
    destruct (_ !! Device_ alloc); [|by intros [= <- _]].
    destruct (take _ _ _) as [cur [err|]]; [by intros [= <- _] | apply IH].
Qed.

Lemma socket_resolve_filter take mgr results calls acc :
  SocketGrouped.resolve take mgr results calls acc
  = SocketGrouped.resolve take mgr
      (resultsOf (SocketGrouped.driverName mgr) results) calls acc.
Proof.
  revert calls acc. induction results as [|alloc rest IH]; intros calls acc; [done|].
  unfold resultsOf. rewrite filter_cons. simpl.
  destruct (decide (Driver alloc = SocketGrouped.driverName mgr)) as [Heq|Hne].
  - rewrite decide_False by tauto. simpl. rewrite decide_False by tauto.
    destruct (_ !! Device_ alloc); [|done].
    destruct (take _ _ _) as [cur [err|]]; [done | apply IH].
  - rewrite decide_True by done. apply IH.
Qed.

Lemma numa_resolve_filter take mgr results calls acc :
  NUMAGrouped.resolve take mgr results calls acc
  = NUMAGrouped.resolve take mgr
      (resultsOf (NUMAGrouped.driverName mgr) results) calls acc.
Proof.
  revert calls acc. induction results as [|alloc rest IH]; intros calls acc; [done|].
  unfold resultsOf. rewrite filter_cons. simpl.
  destruct (decide (Driver alloc = NUMAGrouped.driverName mgr)) as [Heq|Hne].
  - rewrite decide_False by tauto. simpl. rewrite decide_False by tauto.
    destruct (_ !! Device_ alloc); [|done].
    destruct (take _ _ _) as [cur [err|]]; [done | apply IH].
  - rewrite decide_True by done. apply IH.
Qed.

Lemma socket_resolve_missing take mgr results calls acc alloc :
  alloc ∈ results → Driver alloc = SocketGrouped.driverName mgr →
  SocketGrouped.deviceNameToSocketID mgr !! Device_ alloc = None →
  ∃ e, SocketGrouped.resolve take mgr results calls acc = (∅, Some e).
Proof.
  intros Hin Hdrv Hmiss. revert calls acc.
  induction results as [|a rest IH]; intros calls acc; [by apply elem_of_nil in Hin|].
  simpl. case_decide as Hd.
  - apply elem_of_cons in Hin as [->|Hin]; [done | by apply IH].
  - destruct (_ !! Device_ a) eqn:Hl; [|eauto].
    destruct (take _ _ _) as [cur [err|]]; [eauto|].
    apply elem_of_cons in Hin as [->|Hin]; [congruence | by apply IH].
Qed.

Lemma numa_resolve_missing take mgr results calls acc alloc :
  alloc ∈ results → Driver alloc = NUMAGrouped.driverName mgr →
  NUMAGrouped.deviceNameToNUMANodeID mgr !! Device_ alloc = None →
  ∃ e, NUMAGrouped.resolve take mgr results calls acc = (∅, Some e).
Proof.
  intros Hin Hdrv Hmiss. revert calls acc.
  induction results as [|a rest IH]; intros calls acc; [by apply elem_of_nil in Hin|].
  simpl. case_decide as Hd.
  - apply elem_of_cons in Hin as [->|Hin]; [done | by apply IH].
  - destruct (_ !! Device_ a) eqn:Hl; [|eauto].
    destruct (take _ _ _) as [cur [err|]]; [eauto|].
    apply elem_of_cons in Hin as [->|Hin]; [congruence | by apply IH].
Qed.

Lemma socket_resolve_take_fails take mgr pre alloc post calls acc id cur e' :
  Driver alloc = SocketGrouped.driverName mgr →
  SocketGrouped.deviceNameToSocketID mgr !! Device_ alloc = Some id →
  take (SocketGrouped.cpuTopology mgr)
       (SocketGrouped.getSharedCPUs mgr
          (calls + length (resultsOf (SocketGrouped.driverName mgr) pre))
        ∩ CPUsInSockets (CPUDetails (SocketGrouped.cpuTopology mgr)) id)
       (requestedCPUs alloc) = (cur, Some e') →
  ∃ e, SocketGrouped.resolve take mgr (pre ++ alloc :: post) calls acc = (∅, Some e).
Proof.
  intros Hdrv Hid. revert calls acc.
  induction pre as [|a pre IH]; intros calls acc Htake.
  - simpl in *. rewrite Nat.add_0_r in Htake.
    rewrite decide_False by tauto. rewrite Hid.
    unfold requestedCPUs in Htake.
    destruct (ConsumedCapacity alloc !! cpuResourceQualifiedName);
      simpl in Htake; rewrite Htake; eauto.
  - unfold resultsOf in Htake. rewrite filter_cons in Htake.
    cbn [app SocketGrouped.resolve].
    destruct (decide (Driver a = SocketGrouped.driverName mgr)) as [Hd|Hd].
    + rewrite decide_False by tauto.
      destruct (_ !! Device_ a) as [id'|]; [|eauto].
      destruct (take _ (_ ∩ CPUsInSockets _ id') _) as [cur' [err|]]; [eauto|].
      apply IH. cbn [length] in Htake. by rewrite Nat.add_succ_r in Htake.
    + rewrite decide_True by done. by apply IH.
Qed.

Lemma numa_resolve_take_fails take mgr pre alloc post calls acc id cur e' :
  Driver alloc = NUMAGrouped.driverName mgr →
  NUMAGrouped.deviceNameToNUMANodeID mgr !! Device_ alloc = Some id →
  take (NUMAGrouped.cpuTopology mgr)
       (NUMAGrouped.getSharedCPUs mgr
          (calls + length (resultsOf (NUMAGrouped.driverName mgr) pre))
        ∩ CPUsInNUMANodes (CPUDetails (NUMAGrouped.cpuTopology mgr)) id)
       (requestedCPUs alloc) = (cur, Some e') →
  ∃ e, NUMAGrouped.resolve take mgr (pre ++ alloc :: post) calls acc = (∅, Some e).
Proof.
  intros Hdrv Hid. revert calls acc.
  induction pre as [|a pre IH]; intros calls acc Htake.
  - simpl in *. rewrite Nat.add_0_r in Htake.
    rewrite decide_False by tauto. rewrite Hid.
    unfold requestedCPUs in Htake.
    destruct (ConsumedCapacity alloc !! cpuResourceQualifiedName);
      simpl in Htake; rewrite Htake; eauto.
  - unfold resultsOf in Htake. rewrite filter_cons in Htake.
    cbn [app NUMAGrouped.resolve].
    destruct (decide (Driver a = NUMAGrouped.driverName mgr)) as [Hd|Hd].
    + rewrite decide_False by tauto.
      destruct (_ !! Device_ a) as [id'|]; [|eauto].
      destruct (take _ (_ ∩ CPUsInNUMANodes _ id') _) as [cur' [err|]]; [eauto|].
      apply IH. cbn [length] in Htake. by rewrite Nat.add_succ_r in Htake.
    + rewrite decide_True by done. by apply IH.
Qed.

Lemma socket_resolve_within take mgr results calls acc cpus err x :
  take_within_pool take →
  SocketGrouped.resolve take mgr results calls acc = (cpus, err) → x ∈ cpus →
  x ∈ acc ∨ ∃ k id, x ∈ SocketGrouped.getSharedCPUs mgr k
                          ∩ CPUsInSockets (CPUDetails (SocketGrouped.cpuTopology mgr)) id.
Proof.
  intros Htake. revert calls acc.
  induction results as [|a rest IH]; intros calls acc; simpl.
  - case_decide; intros [= <- _]; [by intros ?%not_elem_of_empty | by left].
  - case_decide; [apply IH|].
    destruct (_ !! Device_ a) as [id|]; [|by intros [= <- _] ?%not_elem_of_empty].
    destruct (take _ _ _) as [cur [e|]] eqn:Ht;
      [by intros [= <- _] ?%not_elem_of_empty|].
    intros Hres Hx. destruct (IH _ _ Hres Hx) as [Hacc|?]; [|by right].
    apply elem_of_union in Hacc as [?|Hcur]; [by left|].
    right. exists calls, id. by apply (Htake _ _ _ _ Ht).
Qed.

Lemma numa_resolve_within take mgr results calls acc cpus err x :
  take_within_pool take →
  NUMAGrouped.resolve take mgr results calls acc = (cpus, err) → x ∈ cpus →
  x ∈ acc ∨ ∃ k id, x ∈ NUMAGrouped.getSharedCPUs mgr k
                          ∩ CPUsInNUMANodes (CPUDetails (NUMAGrouped.cpuTopology mgr)) id.
Proof.
  intros Htake. revert calls acc.
  induction results as [|a rest IH]; intros calls acc; simpl.
  - case_decide; intros [= <- _]; [by intros ?%not_elem_of_empty | by left].
  - case_decide; [apply IH|].
    destruct (_ !! Device_ a) as [id|]; [|by intros [= <- _] ?%not_elem_of_empty].
    destruct (take _ _ _) as [cur [e|]] eqn:Ht;
      [by intros [= <- _] ?%not_elem_of_empty|].
    intros Hres Hx. destruct (IH _ _ Hres Hx) as [Hacc|?]; [|by right].
    apply elem_of_union in Hacc as [?|Hcur]; [by left|].
    right. exists calls, id. by apply (Htake _ _ _ _ Ht).
Qed.

(** ** Reserved CPUs *)

Lemma range_of_elem (d : gmap Z CPUInfo) visit c :
  range_of d visit → c ∈ visit ↔ ∃ k, d !! k = Some c.
Proof.
  unfold range_of. intros ->. rewrite list_elem_of_fmap. split.
  - intros ([k c'] & -> & Hin%elem_of_map_to_list). eauto.
  - intros [k Hk]. exists (k, c). split; [done|]. by apply elem_of_map_to_list.
Qed.

Lemma foldl_insert_info_Some (l : list CPUInfo) (m : gmap Z CPUInfo) k c :
  foldl (λ m info, <[CpuID info := info]> m) m l !! k = Some c →
  CpuID c = k ∨ m !! k = Some c.
Proof.
  revert m. induction l as [|a l IH]; intros m; simpl; [by right|].
  intros [?|Hl]%IH; [by left|].
  apply lookup_insert_Some in Hl as [[<- <-]|[_ ?]]; [by left | by right].
Qed.

Lemma foldl_insert_info_present (l : list CPUInfo) (m : gmap Z CPUInfo) k :
  k ∈ CpuID <$> l ∨ is_Some (m !! k) →
  is_Some (foldl (λ m info, <[CpuID info := info]> m) m l !! k).
Proof.
  revert m. induction l as [|a l IH]; intros m.
  - simpl. intros [?%elem_of_nil|?]; done.
  - cbn [foldl]. rewrite fmap_cons, elem_of_cons. intros [[->|?]|?]; apply IH; auto.
    + right. rewrite lookup_insert_eq. eauto.
    + right. destruct (decide (CpuID a = k)) as [->|?].
      * rewrite lookup_insert_eq. eauto.
      * by rewrite lookup_insert_ne.
Qed.

(** The members of the groups are CPUs outside the reserved set, provided
    the walked CPUs are and the map holds the siblings they name. *)
Lemma groupStep_members resv (M : gmap Z CPUInfo) L P G :
  (∀ cpu, cpu ∈ L →
     CpuID cpu ∉ resv
     ∧ (SiblingCpuID cpu = -1 ∨ SiblingCpuID cpu ∈ resv
        ∨ ∃ c', M !! SiblingCpuID cpu = Some c' ∧ CpuID c' = SiblingCpuID cpu)) →
  (∀ g c, g ∈ G → c ∈ g → CpuID c ∉ resv) →
  ∀ g c,
    g ∈ (foldl (IndividualCore.groupStep (IndividualCore.reservedMap resv) M) (P, G) L).2 →
    c ∈ g → CpuID c ∉ resv.
Proof.
  revert P G. induction L as [|cpu L IH]; intros P G HL HG; [done|].
  cbn [foldl]. unfold IndividualCore.groupStep at 2.
  rewrite sentinel_or_reserved.
  destruct (HL cpu ltac:(left)) as [Hcpu Hsib].
  assert (∀ cpu', cpu' ∈ L →
     CpuID cpu' ∉ resv
     ∧ (SiblingCpuID cpu' = -1 ∨ SiblingCpuID cpu' ∈ resv
        ∨ ∃ c', M !! SiblingCpuID cpu' = Some c' ∧ CpuID c' = SiblingCpuID cpu'))
    as HL' by (intros; apply HL; by right).
  destruct (readBool P (CpuID cpu)); [by apply IH|].
  destruct (decide (SiblingCpuID cpu = -1 ∨ SiblingCpuID cpu ∈ resv)) as [Hs|Hs].
  - rewrite bool_decide_eq_true_2 by done. apply IH; [done|].
    intros g c [Hg| ->%list_elem_of_singleton]%elem_of_app Hc; [by eapply HG|].
    by apply list_elem_of_singleton in Hc as ->.
  - rewrite bool_decide_eq_false_2 by done. apply IH; [done|].
    intros g c [Hg| ->%list_elem_of_singleton]%elem_of_app Hc; [by eapply HG|].
    destruct Hsib as [?|[?|(c' & Hc' & Hid)]]; [tauto..|].
    rewrite Hc' in Hc. simpl in Hc.
    apply elem_of_cons in Hc as [-> | ->%list_elem_of_singleton]; [done|].
    rewrite Hid. tauto.
Qed.

Lemma coreGroups_members (d : gmap Z CPUInfo) resv visit g c :
  range_of d visit → siblings_present d resv →
  g ∈ IndividualCore.coreGroups visit resv → c ∈ g → CpuID c ∉ resv.
Proof.
  intros Hr Hsib. unfold IndividualCore.coreGroups. rewrite sortSlice_perm.
  apply groupStep_members; [|by intros ? ? ?%elem_of_nil].
  intros cpu. rewrite sortSlice_perm, list_elem_of_filter.
  rewrite readBool_reservedMap_false. intros [Hres Hin]. split; [done|].
  apply (range_of_elem d) in Hin as [k Hk]; [|done].
  destruct (Hsib k cpu Hk) as [?|[?|[?|Hpresent]]]; [done|by left|by right; left|].
  right. right.
  apply elem_of_map_img in Hpresent as [k' Hk'].
  apply lookup_fmap_Some in Hk' as (c' & Hid & Hc').
  destruct (foldl_insert_info_present visit ∅ (SiblingCpuID cpu)) as [c'' Hc''].
  { left. rewrite <-Hid. apply list_elem_of_fmap_2.
    apply (range_of_elem d); [done | eauto]. }
  exists c''. split; [done|].
  apply foldl_insert_info_Some in Hc'' as [?|?]; [done|].
  by rewrite lookup_empty in *.
Qed.

(** C2, as stated, fails.  Individual-Core manager: CPU 1 names a sibling 3
    that the topology does not hold; the map lookup of the sibling yields
    the zero descriptor, whose CPU ID 0 gets the device cpudev001, and a
    claim of that device is resolved to CPU 0, which is reserved.  Grouped
    managers: the pool of a device is the shared pool restricted to the
    coordinate, and a shared pool that holds the reserved CPU 0 yields it. *)
Lemma allocation_returns_reserved_cpu :
  (let resv : CPUSet := {[0]} in
   let mgr := (IndividualCore.CreateSlices (visitOf topoDanglingSibling)
                 (IndividualCore.NewIndividualCoreManager "dra.cpu"
                    topoDanglingSibling resv)).2 in
   IndividualCore.AllocateCPUs mgr (claimFor "dra.cpu" "cpudev001" None)
   = Returned ({[0]}, None) ∧ 0 ∈ resv)
  ∧ (let resv : CPUSet := {[0]} in
     let mgr := (SocketGrouped.CreateSlices
                   (SocketGrouped.NewSocketGroupedManager "dra.cpu" topoTwoCores resv
                      (λ _, {[0; 1; 2; 3]}))).2 in
     SocketGrouped.AllocateCPUs takeLowest mgr
       (claimFor "dra.cpu" "cpudevsocket000" (Some 1))
     = Returned ({[0]}, None) ∧ 0 ∈ resv)
  ∧ (let resv : CPUSet := {[0]} in
     let mgr := (NUMAGrouped.CreateSlices listAscending
                   (NUMAGrouped.NewNUMAGroupedManager "dra.cpu" topoTwoCores resv
                      (λ _, {[0; 1; 2; 3]}))).2 in
     NUMAGrouped.AllocateCPUs takeLowest mgr
       (claimFor "dra.cpu" "cpudevnuma000" (Some 1))
     = Returned ({[0]}, None) ∧ 0 ∈ resv).
Proof.
  split_and!; (split; [vm_compute; reflexivity | by apply elem_of_singleton]).
Qed.

(** C2, amended.  Individual-Core manager: when every sibling ID that a
    non-reserved CPU carries is the sentinel, reserved, or the ID of a CPU
    of the topology, no CPU that [AllocateCPUs] returns after [CreateSlices]
    is reserved.  Grouped managers: with a packing primitive that selects
    from the pool it is given, every CPU that [AllocateCPUs] returns lies in
    an answer of the shared pool accessor and in a coordinate of the
    topology; so no returned CPU is reserved when no answer of the accessor
    holds a reserved CPU. *)
Theorem allocation_avoids_reserved :
  (∀ name topo resv visit claim cpus err x,
     range_of (CPUDetails topo) visit → siblings_present (CPUDetails topo) resv →
     IndividualCore.AllocateCPUs
       (IndividualCore.CreateSlices visit
          (IndividualCore.NewIndividualCoreManager name topo resv)).2 claim
     = Returned (cpus, err) →
     x ∈ cpus → x ∉ resv)
  ∧ (∀ take mgr claim cpus err x,
       take_within_pool take →
       SocketGrouped.AllocateCPUs take mgr claim = Returned (cpus, err) → x ∈ cpus →
       ∃ k id, x ∈ SocketGrouped.getSharedCPUs mgr k
               ∧ x ∈ CPUsInSockets (CPUDetails (SocketGrouped.cpuTopology mgr)) id)
  ∧ (∀ take mgr claim cpus err x,
       take_within_pool take →
       (∀ k, SocketGrouped.getSharedCPUs mgr k ## SocketGrouped.reservedCPUs mgr) →
       SocketGrouped.AllocateCPUs take mgr claim = Returned (cpus, err) → x ∈ cpus →
       x ∉ SocketGrouped.reservedCPUs mgr)
  ∧ (∀ take mgr claim cpus err x,
       take_within_pool take →
       NUMAGrouped.AllocateCPUs take mgr claim = Returned (cpus, err) → x ∈ cpus →
       ∃ k id, x ∈ NUMAGrouped.getSharedCPUs mgr k
               ∧ x ∈ CPUsInNUMANodes (CPUDetails (NUMAGrouped.cpuTopology mgr)) id)
  ∧ (∀ take mgr claim cpus err x,
       take_within_pool take →
       (∀ k, NUMAGrouped.getSharedCPUs mgr k ## NUMAGrouped.reservedCPUs mgr) →
       NUMAGrouped.AllocateCPUs take mgr claim = Returned (cpus, err) → x ∈ cpus →
       x ∉ NUMAGrouped.reservedCPUs mgr).
Proof.
  assert (∀ take mgr claim cpus err x,
       take_within_pool take →
       SocketGrouped.AllocateCPUs take mgr claim = Returned (cpus, err) → x ∈ cpus →
       ∃ k id, x ∈ SocketGrouped.getSharedCPUs mgr k
               ∧ x ∈ CPUsInSockets (CPUDetails (SocketGrouped.cpuTopology mgr)) id) as HS.
  { intros take mgr claim cpus err x Htake. unfold SocketGrouped.AllocateCPUs.
    destruct (Allocation claim) as [results|]; [|done]. intros [= Hres] Hx.
    destruct (socket_resolve_within take mgr results 0 ∅ cpus err x Htake Hres Hx)
      as [?%not_elem_of_empty|(k & id & Hin)]; [done|].
    apply elem_of_intersection in Hin. eauto. }
  assert (∀ take mgr claim cpus err x,
       take_within_pool take →
       NUMAGrouped.AllocateCPUs take mgr claim = Returned (cpus, err) → x ∈ cpus →
       ∃ k id, x ∈ NUMAGrouped.getSharedCPUs mgr k
               ∧ x ∈ CPUsInNUMANodes (CPUDetails (NUMAGrouped.cpuTopology mgr)) id) as HN.
  { intros take mgr claim cpus err x Htake. unfold NUMAGrouped.AllocateCPUs.
    destruct (Allocation claim) as [results|]; [|done]. intros [= Hres] Hx.
    destruct (numa_resolve_within take mgr results 0 ∅ cpus err x Htake Hres Hx)
      as [?%not_elem_of_empty|(k & id & Hin)]; [done|].
    apply elem_of_intersection in Hin. eauto. }
  split_and!; [|done| |done|].
  - intros name topo resv visit claim cpus err x Hr Hsib.
    unfold IndividualCore.AllocateCPUs.
    destruct (Allocation claim) as [results|]; [|done]. intros [= Hres] Hx.
    destruct (individual_resolve_values _ _ _ _ _ x Hres Hx)
      as [?%elem_of_nil|[dev Hdev]]; [done|].
    revert Hdev. unfold IndividualCore.CreateSlices.
    rewrite IndividualCoreFacts.emit_concat. simpl.
    pose proof (IndividualCoreFacts.emit_index_values
      (concat (IndividualCore.coreGroups visit resv)) 0 ∅ [] dev x) as Hval.
    destruct (foldl IndividualCore.emitStep _ _) as [[n idx] devs]. simpl in Hval.
    case_decide; simpl; intros Hdev;
      (destruct (Hval Hdev) as [Hempty|(c & Hc & ->)];
       [by rewrite lookup_empty in Hempty|];
       apply list_elem_of_concat in Hc as (g & Hc & Hg);
       by eapply coreGroups_members).
  - intros take mgr claim cpus err x Htake Hshared Hres Hx.
    destruct (HS take mgr claim cpus err x Htake Hres Hx) as (k & id & Hk & _).
    intros Hr. by apply (Hshared k x).
  - intros take mgr claim cpus err x Htake Hshared Hres Hx.
    destruct (HN take mgr claim cpus err x Htake Hres Hx) as (k & id & Hk & _).
    intros Hr. by apply (Hshared k x).
Qed.

Lemma takeLowest_within_pool : take_within_pool takeLowest.
Proof.
  intros topo pool n cur. unfold takeLowest. case_decide; [done|].
  intros [= <-]. intros x Hx%elem_of_list_to_set.
  apply CPUSet_List_elem. by eapply subseteq_take.
Qed.

(** A sample for the amended C2: the two-core topology with CPU 2 reserved;
    the shared pool holds the CPUs 0, 1 and 3. *)
Lemma allocation_avoids_reserved_witness :
  let resv : CPUSet := {[2]} in
  let mgr := (SocketGrouped.CreateSlices
                (SocketGrouped.NewSocketGroupedManager "dra.cpu" topoTwoCores resv
                   (λ _, {[0; 1; 3]}))).2 in
  let claim := claimFor "dra.cpu" "cpudevsocket000" (Some 2) in
  range_of (CPUDetails topoTwoCores) (visitOf topoTwoCores)
  ∧ siblings_present (CPUDetails topoTwoCores) resv
  ∧ take_within_pool takeLowest
  ∧ (∀ k, SocketGrouped.getSharedCPUs mgr k ## SocketGrouped.reservedCPUs mgr)
  ∧ SocketGrouped.AllocateCPUs takeLowest mgr claim = Returned ({[0; 1]}, None)
  ∧ (0 ∈ ({[0; 1]} : CPUSet) → 0 ∉ SocketGrouped.reservedCPUs mgr)
  ∧ (∀ cpus err x,
       IndividualCore.AllocateCPUs
         (IndividualCore.CreateSlices (visitOf topoTwoCores)
            (IndividualCore.NewIndividualCoreManager "dra.cpu" topoTwoCores resv)).2
         (claimFor "dra.cpu" "cpudev000" None) = Returned (cpus, err) →
       x ∈ cpus → x ∉ resv).
Proof.
  intros resv mgr claim.
  assert (range_of (CPUDetails topoTwoCores) (visitOf topoTwoCores)) as Hr
    by (unfold range_of, visitOf; reflexivity).
  assert (siblings_present (CPUDetails topoTwoCores) resv) as Hsib
    by (apply (bool_decide_unpack _); vm_compute; exact I).
  assert (∀ k, SocketGrouped.getSharedCPUs mgr k ## SocketGrouped.reservedCPUs mgr)
    as Hshared.
  { intros k. apply (bool_decide_unpack _). vm_compute. exact I. }
  assert (SocketGrouped.AllocateCPUs takeLowest mgr claim = Returned ({[0; 1]}, None))
    as Hres by (vm_compute; reflexivity).
  split_and!; [exact Hr | exact Hsib | exact takeLowest_within_pool | exact Hshared
              | exact Hres | |].
  - exact (proj1 (proj2 (proj2 allocation_avoids_reserved))
             takeLowest mgr claim {[0; 1]} None 0
             takeLowest_within_pool Hshared Hres).
  - intros cpus err x.
    exact (proj1 allocation_avoids_reserved "dra.cpu" topoTwoCores resv
             (visitOf topoTwoCores) (claimFor "dra.cpu" "cpudev000" None)
             cpus err x Hr Hsib).
Defined.

(** ** Failures of claim resolution *)

(** C3.  Whenever [AllocateCPUs] of a manager returns an error, the CPU set
    it returns with it is empty.  It returns an error when a result of the
    claim for this driver names a device that the index does not hold, and,
    for the grouped managers, when the resolution reaches a result for which
    the packing primitive fails on the pool of that result. *)
Theorem allocation_atomic_on_failure :
  (∀ mgr claim cpus e,
     IndividualCore.AllocateCPUs mgr claim = Returned (cpus, Some e) → cpus = ∅)
  ∧ (∀ mgr claim results alloc,
       Allocation claim = Some results → alloc ∈ results →
       Driver alloc = IndividualCore.driverName mgr →
       IndividualCore.deviceNameToCPUID mgr !! Device_ alloc = None →
       ∃ e, IndividualCore.AllocateCPUs mgr claim = Returned (∅, Some e))
  ∧ (∀ take mgr claim cpus e,
       SocketGrouped.AllocateCPUs take mgr claim = Returned (cpus, Some e) → cpus = ∅)
  ∧ (∀ take mgr claim results alloc,
       Allocation claim = Some results → alloc ∈ results →
       Driver alloc = SocketGrouped.driverName mgr →
       SocketGrouped.deviceNameToSocketID mgr !! Device_ alloc = None →
       ∃ e, SocketGrouped.AllocateCPUs take mgr claim = Returned (∅, Some e))
  ∧ (∀ take mgr claim pre alloc post id cur e',
       Allocation claim = Some (pre ++ alloc :: post) →
       Driver alloc = SocketGrouped.driverName mgr →
       SocketGrouped.deviceNameToSocketID mgr !! Device_ alloc = Some id →
       take (SocketGrouped.cpuTopology mgr)
            (SocketGrouped.getSharedCPUs mgr
               (length (resultsOf (SocketGrouped.driverName mgr) pre))
             ∩ CPUsInSockets (CPUDetails (SocketGrouped.cpuTopology mgr)) id)
            (requestedCPUs alloc) = (cur, Some e') →
       ∃ e, SocketGrouped.AllocateCPUs take mgr claim = Returned (∅, Some e))
  ∧ (∀ take mgr claim cpus e,
       NUMAGrouped.AllocateCPUs take mgr claim = Returned (cpus, Some e) → cpus = ∅)
  ∧ (∀ take mgr claim results alloc,
       Allocation claim = Some results → alloc ∈ results →
       Driver alloc = NUMAGrouped.driverName mgr →
       NUMAGrouped.deviceNameToNUMANodeID mgr !! Device_ alloc = None →
       ∃ e, NUMAGrouped.AllocateCPUs take mgr claim = Returned (∅, Some e))
  ∧ (∀ take mgr claim pre alloc post id cur e',
       Allocation claim = Some (pre ++ alloc :: post) →
       Driver alloc = NUMAGrouped.driverName mgr →
       NUMAGrouped.deviceNameToNUMANodeID mgr !! Device_ alloc = Some id →
       take (NUMAGrouped.cpuTopology mgr)
            (NUMAGrouped.getSharedCPUs mgr
               (length (resultsOf (NUMAGrouped.driverName mgr) pre))
             ∩ CPUsInNUMANodes (CPUDetails (NUMAGrouped.cpuTopology mgr)) id)
            (requestedCPUs alloc) = (cur, Some e') →
       ∃ e, NUMAGrouped.AllocateCPUs take mgr claim = Returned (∅, Some e)).
Proof.
  split_and!.
  - intros mgr claim cpus e. unfold IndividualCore.AllocateCPUs.
    destruct (Allocation claim); [|done]. intros [= Hres].
    by eapply individual_resolve_error.
  - intros mgr claim results alloc Hres Hin Hdrv Hmiss.
    unfold IndividualCore.AllocateCPUs. rewrite Hres.
    destruct (individual_resolve_missing mgr results [] alloc Hin Hdrv Hmiss) as [e ->].
    eauto.
  - intros take mgr claim cpus e. unfold SocketGrouped.AllocateCPUs.
    destruct (Allocation claim); [|done]. intros [= Hres].
    by eapply socket_resolve_error.
  - intros take mgr claim results alloc Hres Hin Hdrv Hmiss.
    unfold SocketGrouped.AllocateCPUs. rewrite Hres.
    destruct (socket_resolve_missing take mgr results 0 ∅ alloc Hin Hdrv Hmiss) as [e ->].
    eauto.
  - intros take mgr claim pre alloc post id cur e' Hres Hdrv Hid Htake.
    unfold SocketGrouped.AllocateCPUs. rewrite Hres.
    destruct (socket_resolve_take_fails take mgr pre alloc post 0 ∅ id cur e'
                Hdrv Hid Htake) as [e ->].
    eauto.
  - intros take mgr claim cpus e. unfold NUMAGrouped.AllocateCPUs.
    destruct (Allocation claim); [|done]. intros [= Hres].
    by eapply numa_resolve_error.
  - intros take mgr claim results alloc Hres Hin Hdrv Hmiss.
    unfold NUMAGrouped.AllocateCPUs. rewrite Hres.
    destruct (numa_resolve_missing take mgr results 0 ∅ alloc Hin Hdrv Hmiss) as [e ->].
    eauto.
  - intros take mgr claim pre alloc post id cur e' Hres Hdrv Hid Htake.
    unfold NUMAGrouped.AllocateCPUs. rewrite Hres.
    destruct (numa_resolve_take_fails take mgr pre alloc post 0 ∅ id cur e'
                Hdrv Hid Htake) as [e ->].
    eauto.
Qed.

(** A sample for C3: a claim for 4 CPUs of the device of socket 0 while the
    shared pool holds 3 CPUs of that socket. *)
Lemma allocation_atomic_on_failure_witness :
  let claim := claimFor "dra.cpu" "cpudevsocket000" (Some 4) in
  let alloc := mkAllocResult "request" "dra.cpu" "node" "cpudevsocket000"
                 {[ cpuResourceQualifiedName := 4 ]} in
  Allocation claim = Some ([] ++ alloc :: [])
  ∧ Driver alloc = SocketGrouped.driverName socketManagerThreeFree
  ∧ SocketGrouped.deviceNameToSocketID socketManagerThreeFree !! Device_ alloc = Some 0
  ∧ ∃ e, SocketGrouped.AllocateCPUs takeLowest socketManagerThreeFree claim
         = Returned (∅, Some e).
Proof.
  intros claim alloc.
  assert (Allocation claim = Some ([] ++ alloc :: [])) as H1 by reflexivity.
  assert (Driver alloc = SocketGrouped.driverName socketManagerThreeFree) as H2
    by reflexivity.
  assert (SocketGrouped.deviceNameToSocketID socketManagerThreeFree !! Device_ alloc
          = Some 0) as H3 by (vm_compute; reflexivity).
  split_and!; [exact H1 | exact H2 | exact H3 |].
  refine (proj1 (proj2 (proj2 (proj2 (proj2 allocation_atomic_on_failure))))
            takeLowest socketManagerThreeFree claim [] alloc [] 0 ∅
            (ErrExternal "not enough cpus available to satisfy request")
            H1 H2 H3 _).
  vm_compute. reflexivity.
Defined.

(** ** Results of other drivers *)

(** C7.  [AllocateCPUs] of a manager returns for a claim what it returns for
    the claim reduced to the results that name the manager's driver: the
    other results are passed over without an error and without a
    contribution.  When no result names the driver, it returns the empty
    CPU set and no error. *)
Theorem foreign_results_skipped :
  (∀ mgr results,
     IndividualCore.AllocateCPUs mgr (claimOf results)
     = IndividualCore.AllocateCPUs mgr
         (claimOf (resultsOf (IndividualCore.driverName mgr) results)))
  ∧ (∀ mgr results,
       Forall (λ alloc, Driver alloc ≠ IndividualCore.driverName mgr) results →
       IndividualCore.AllocateCPUs mgr (claimOf results) = Returned (∅, None))
  ∧ (∀ take mgr results,
       SocketGrouped.AllocateCPUs take mgr (claimOf results)
       = SocketGrouped.AllocateCPUs take mgr
           (claimOf (resultsOf (SocketGrouped.driverName mgr) results)))
  ∧ (∀ take mgr results,
       Forall (λ alloc, Driver alloc ≠ SocketGrouped.driverName mgr) results →
       SocketGrouped.AllocateCPUs take mgr (claimOf results) = Returned (∅, None))
  ∧ (∀ take mgr results,
       NUMAGrouped.AllocateCPUs take mgr (claimOf results)
       = NUMAGrouped.AllocateCPUs take mgr
           (claimOf (resultsOf (NUMAGrouped.driverName mgr) results)))
  ∧ (∀ take mgr results,
       Forall (λ alloc, Driver alloc ≠ NUMAGrouped.driverName mgr) results →
       NUMAGrouped.AllocateCPUs take mgr (claimOf results) = Returned (∅, None)).
Proof.
  assert (∀ name results,
    Forall (λ alloc, Driver alloc ≠ name) results → resultsOf name results = [])
    as Hnone.
  { intros name results Hall. unfold resultsOf.
    induction Hall as [|a l Ha Hall IH]; [done|].
    rewrite filter_cons. by rewrite decide_False. }
  split_and!.
  - intros mgr results. unfold IndividualCore.AllocateCPUs. simpl.
    by rewrite individual_resolve_filter.
  - intros mgr results Hall. unfold IndividualCore.AllocateCPUs. simpl.
    by rewrite individual_resolve_filter, Hnone.
  - intros take mgr results. unfold SocketGrouped.AllocateCPUs. simpl.
    by rewrite socket_resolve_filter.
  - intros take mgr results Hall. unfold SocketGrouped.AllocateCPUs. simpl.
    rewrite socket_resolve_filter, Hnone by done. simpl.
    by rewrite decide_True by apply CPUSet_Size_empty.
  - intros take mgr results. unfold NUMAGrouped.AllocateCPUs. simpl.
    by rewrite numa_resolve_filter.
  - intros take mgr results Hall. unfold NUMAGrouped.AllocateCPUs. simpl.
    rewrite numa_resolve_filter, Hnone by done. simpl.
    by rewrite decide_True by apply CPUSet_Size_empty.
Qed.

(** A sample for C7: a claim whose only result names another driver. *)
Lemma foreign_results_skipped_witness :
  let results := [mkAllocResult "request" "gpu.example.com" "node" "gpu-0" ∅] in
  Forall (λ alloc, Driver alloc ≠ IndividualCore.driverName individualManagerTwoCores)
         results
  ∧ IndividualCore.AllocateCPUs individualManagerTwoCores (claimOf results)
    = Returned (∅, None).
Proof.
  intros results.
  assert (Forall (λ alloc, Driver alloc
                           ≠ IndividualCore.driverName individualManagerTwoCores)
                 results) as Hall.
  { apply (bool_decide_unpack _). vm_compute. exact I. }
  split; [exact Hall|].
  exact (proj1 (proj2 foreign_results_skipped) individualManagerTwoCores results Hall).
Defined.

(** ** Panics *)

(** C9, as stated, fails: [AllocateCPUs] of each manager reads the results
    through the allocation pointer of the claim, and panics on a claim whose
    allocation status is absent. *)
Lemma AllocateCPUs_panics_without_allocation :
  IndividualCore.AllocateCPUs individualManagerTwoCores claimWithoutAllocation = Panicked
  ∧ SocketGrouped.AllocateCPUs takeLowest socketManagerThreeFree claimWithoutAllocation
    = Panicked
  ∧ NUMAGrouped.AllocateCPUs takeLowest
      (NUMAGrouped.NewNUMAGroupedManager "dra.cpu" topoTwoCores ∅ (λ _, ∅))
      claimWithoutAllocation = Panicked.
Proof. done. Qed.

(** C9, amended.  [AllocateCPUs] of every manager returns, with a CPU set
    and possibly an error, for every claim whose allocation status is
    present.  The driver's [prepareResourceClaim] returns for every claim:
    for a claim without allocation status it returns the error "has no
    allocation" without calling the manager, and an error of the manager is
    returned as the error of the result. *)
Theorem claim_resolution_returns :
  (∀ take devMgr claim,
     Allocation claim ≠ None →
     ∃ cpus err, DeviceManager_AllocateCPUs take devMgr claim = Returned (cpus, err))
  ∧ (∀ ext cp claim, ∃ r, prepareResourceClaim ext cp claim = Returned r)
  ∧ (∀ ext cp claim,
       Allocation claim = None →
       prepareResourceClaim ext cp claim
       = Returned ({| Devices := [];
                      Err := Some (ErrNoAllocation (Namespace claim) (ClaimName claim)) |},
                   cp))
  ∧ (∀ ext cp claim cpus e,
       DeviceManager_AllocateCPUs (TakeByTopologyNUMAPacked ext) (devMgr cp) claim
       = Returned (cpus, Some e) →
       prepareResourceClaim ext cp claim
       = Returned ({| Devices := []; Err := Some e |}, cp)).
Proof.
  assert (∀ take devMgr claim, Allocation claim ≠ None →
    ∃ cpus err, DeviceManager_AllocateCPUs take devMgr claim = Returned (cpus, err))
    as Htotal.
  { intros take devMgr claim Hsome.
    destruct devMgr as [mgr|mgr|mgr]; simpl;
      [unfold IndividualCore.AllocateCPUs
      |unfold SocketGrouped.AllocateCPUs
      |unfold NUMAGrouped.AllocateCPUs];
      (destruct (Allocation claim) as [results|]; [|done]);
      match goal with |- ∃ _ _, Returned ?r = _ => destruct r as [cpus err] eqn:? end;
      eauto. }
  split_and!.
  - done.
  - intros ext cp claim. unfold prepareResourceClaim.
    destruct (Allocation claim) as [results|] eqn:Hres; [|eauto].
    destruct (Htotal (TakeByTopologyNUMAPacked ext) (devMgr cp) claim) as (cpus & err & ->);
      [by rewrite Hres|].
    destruct err; [eauto|]. destruct (cdiAddDevice ext _ _); eauto.
  - intros ext cp claim Hnone. unfold prepareResourceClaim. by rewrite Hnone.
  - intros ext cp claim cpus e Hres. unfold prepareResourceClaim.
    destruct (Allocation claim) as [results|] eqn:Ha.
    + by rewrite Hres.
    + destruct (devMgr cp); simpl in Hres;
        [unfold IndividualCore.AllocateCPUs in Hres
        |unfold SocketGrouped.AllocateCPUs in Hres
        |unfold NUMAGrouped.AllocateCPUs in Hres];
        by rewrite Ha in Hres.
Qed.

(** A sample for the amended C9: the driver prepares a claim without
    allocation status, and a claim with one. *)
Lemma claim_resolution_returns_witness :
  let cp := mkCPUDriver (IndividualCoreMgr individualManagerTwoCores) ∅ in
  Allocation claimWithoutAllocation = None
  ∧ prepareResourceClaim sampleCollaborators cp claimWithoutAllocation
    = Returned ({| Devices := [];
                   Err := Some (ErrNoAllocation "default" "claim") |}, cp)
  ∧ Allocation (claimFor "dra.cpu" "cpudev000" None) ≠ None
  ∧ ∃ cpus err,
      DeviceManager_AllocateCPUs takeLowest (IndividualCoreMgr individualManagerTwoCores)
        (claimFor "dra.cpu" "cpudev000" None) = Returned (cpus, err).
Proof.
  intros cp.
  assert (Allocation claimWithoutAllocation = None) as Hnone by reflexivity.
  assert (Allocation (claimFor "dra.cpu" "cpudev000" None) ≠ None) as Hsome
    by (simpl; discriminate).
  split_and!; [exact Hnone | | exact Hsome |].
  - exact (proj1 (proj2 (proj2 claim_resolution_returns))
             sampleCollaborators cp claimWithoutAllocation Hnone).
  - exact (proj1 claim_resolution_returns takeLowest
             (IndividualCoreMgr individualManagerTwoCores)
             (claimFor "dra.cpu" "cpudev000" None) Hsome).
Defined.

(** * Further properties of the code *)

(** ** Catalog and index of the Individual-Core manager *)

Lemma individual_index visit mgr :
  IndividualCore.deviceNameToCPUID (IndividualCore.CreateSlices visit mgr).2
  = (foldl IndividualCore.emitStep (0, IndividualCore.deviceNameToCPUID mgr, [])
       (concat (IndividualCore.coreGroups visit (IndividualCore.reservedCPUs mgr)))).1.2.
Proof.
  unfold IndividualCore.CreateSlices. rewrite IndividualCoreFacts.emit_concat.
  destruct (foldl IndividualCore.emitStep _ _) as [[n idx] devs].
  by case_decide.
Qed.

Lemma individual_fixed_fields visit mgr :
  IndividualCore.driverName (IndividualCore.CreateSlices visit mgr).2
    = IndividualCore.driverName mgr
  ∧ IndividualCore.cpuTopology (IndividualCore.CreateSlices visit mgr).2
    = IndividualCore.cpuTopology mgr
  ∧ IndividualCore.reservedCPUs (IndividualCore.CreateSlices visit mgr).2
    = IndividualCore.reservedCPUs mgr.
Proof.
  unfold IndividualCore.CreateSlices.
  destruct (foldl _ _ _) as [[n idx] devs]. by case_decide.
Qed.

Lemma numbered_names start cpus :
  Name <$> numbered start cpus
  = (λ i, deviceNameOf cpuDevicePrefix (start + Z.of_nat i)) <$> seq 0 (length cpus).
Proof.
  apply list_eq. intros i. rewrite !list_lookup_fmap.
  rewrite IndividualCoreFacts.numbered_lookup.
  destruct (cpus !! i) as [c|] eqn:Hi; simpl.
  - apply lookup_lt_Some in Hi as Hlt. by rewrite lookup_seq_lt.
  - apply lookup_ge_None in Hi. by rewrite lookup_seq_ge.
Qed.

Lemma numbered_names_NoDup start cpus : NoDup (Name <$> numbered start cpus).
Proof.
  rewrite numbered_names. apply NoDup_fmap_2; [|apply NoDup_seq].
  intros i j Heq. apply (inj _) in Heq. lia.
Qed.

Lemma cpuID_attribute cpu :
  MakeIndividualAttributes cpu !! "dra.cpu/cpuID" = Some (IntValue (CpuID cpu)).
Proof. done. Qed.

Lemma individual_device_indexed name topo resv visit dev :
  dev ∈ concat (IndividualCore.CreateSlices visit
                  (IndividualCore.NewIndividualCoreManager name topo resv)).1 →
  ∃ cpu, IndividualCore.deviceNameToCPUID
           (IndividualCore.CreateSlices visit
              (IndividualCore.NewIndividualCoreManager name topo resv)).2
         !! Name dev = Some cpu
         ∧ Attributes dev !! "dra.cpu/cpuID" = Some (IntValue cpu).
Proof.
  set (cpus := concat (IndividualCore.coreGroups visit resv)).
  intros Hin. rewrite IndividualCoreFacts.CreateSlices_devices in Hin.
  apply list_elem_of_lookup in Hin as [i Hi].
  rewrite IndividualCoreFacts.numbered_lookup in Hi. simpl in Hi. fold cpus in Hi.
  destruct (cpus !! i) as [c|] eqn:Hc; [|done]. injection Hi as <-.
  exists (CpuID c). split; [|apply cpuID_attribute].
  rewrite individual_index. simpl.
  apply (IndividualCoreFacts.emit_index_lookup cpus 0 ∅ [] i c Hc).
Qed.

(** X1.  In the catalog a fresh Individual-Core manager creates, whatever
    the topology, no two devices have the same name; the index holds
    exactly the names of the catalog; and it resolves the name of every
    device to the CPU ID the device publishes as dra.cpu/cpuID. *)
Theorem individual_catalog_index_agree
    (name : string) (topo : CPUTopology) (resv : CPUSet) (visit : list CPUInfo) :
  let r := IndividualCore.CreateSlices visit
             (IndividualCore.NewIndividualCoreManager name topo resv) in
  let index := IndividualCore.deviceNameToCPUID r.2 in
  NoDup (Name <$> concat r.1)
  ∧ dom index = list_to_set (Name <$> concat r.1)
  ∧ (∀ dev, dev ∈ concat r.1 →
       ∃ cpu, index !! Name dev = Some cpu
              ∧ Attributes dev !! "dra.cpu/cpuID" = Some (IntValue cpu)).
Proof.
  intros r index.
  set (cpus := concat (IndividualCore.coreGroups visit resv)).
  assert (concat r.1 = numbered 0 cpus) as Hdev
    by apply IndividualCoreFacts.CreateSlices_devices.
  assert (index = (foldl IndividualCore.emitStep (0, ∅, []) cpus).1.2) as Hidx
    by apply individual_index.
  split_and!.
  - rewrite Hdev. apply numbered_names_NoDup.
  - apply set_eq. intros n. rewrite elem_of_dom, elem_of_list_to_set, Hdev, Hidx.
    rewrite numbered_names, list_elem_of_fmap. split.
    + intros [v Hv].
      destruct (decide (n ∈ (λ i, deviceNameOf cpuDevicePrefix (0 + Z.of_nat i))
                            <$> seq 0 (length cpus))) as [Hin|Hnin].
      { by apply list_elem_of_fmap in Hin. }
      rewrite IndividualCoreFacts.emit_index_other in Hv; [by rewrite lookup_empty in Hv|].
      intros i Hi ->. apply Hnin. apply list_elem_of_fmap. exists i.
      split; [done|]. apply elem_of_seq. lia.
    + intros (i & -> & Hi%elem_of_seq).
      destruct (lookup_lt_is_Some_2 cpus i) as [c Hc]; [lia|].
      rewrite (IndividualCoreFacts.emit_index_lookup cpus 0 ∅ [] i c Hc). eauto.
  - intros dev Hin. by apply individual_device_indexed.
Qed.

(** ** Resolving claims against the Individual-Core index *)

Lemma individual_resolve_success mgr results acc :
  (∀ a, a ∈ results → Driver a = IndividualCore.driverName mgr →
        is_Some (IndividualCore.deviceNameToCPUID mgr !! Device_ a)) →
  IndividualCore.resolve mgr results acc
  = (list_to_set
       (acc ++ omap (λ a, IndividualCore.deviceNameToCPUID mgr !! Device_ a)
                    (resultsOf (IndividualCore.driverName mgr) results)), None).
Proof.
  revert acc. induction results as [|a rest IH]; intros acc Hall.
  - simpl. rewrite app_nil_r. case_decide as Hlen; [|done].
    by apply nil_length_inv in Hlen as ->.
  - unfold resultsOf. rewrite filter_cons. cbn [IndividualCore.resolve].
    destruct (decide (Driver a = IndividualCore.driverName mgr)) as [Hd|Hd].
    + rewrite decide_False by tauto.
      destruct (Hall a ltac:(left) Hd) as [cpu Hcpu]. rewrite Hcpu.
      rewrite IH by (intros; apply Hall; [by right | done]).
      cbn [omap list_omap]. rewrite Hcpu. by rewrite <-app_assoc.
    + rewrite decide_True by done. apply IH. intros; apply Hall; [by right | done].
Qed.

(** X2.  Every device of the catalog of a fresh Individual-Core manager
    resolves: a claim with a single result that names the device for this
    driver is resolved, without error, to the one CPU whose ID the device
    publishes as dra.cpu/cpuID. *)
Theorem individual_device_resolves
    (name : string) (topo : CPUTopology) (resv : CPUSet) (visit : list CPUInfo)
    (dev : Device) (claim : ResourceClaim) (alloc : DeviceRequestAllocationResult) :
  let r := IndividualCore.CreateSlices visit
             (IndividualCore.NewIndividualCoreManager name topo resv) in
  dev ∈ concat r.1 →
  Allocation claim = Some [alloc] → Driver alloc = name → Device_ alloc = Name dev →
  ∃ cpu, Attributes dev !! "dra.cpu/cpuID" = Some (IntValue cpu)
         ∧ IndividualCore.AllocateCPUs r.2 claim = Returned ({[cpu]}, None).
Proof.
  intros r Hdev Hclaim Hdrv Hname.
  pose proof (individual_device_indexed name topo resv visit dev Hdev)
    as (cpu & Hidx & Hattr).
  exists cpu. split; [done|].
  unfold IndividualCore.AllocateCPUs. rewrite Hclaim. f_equal.
  destruct (individual_fixed_fields visit
              (IndividualCore.NewIndividualCoreManager name topo resv)) as (Hn & _ & _).
  cbv zeta in Hidx. unfold r in *. clear r.
  set (mgr' := (IndividualCore.CreateSlices visit
                  (IndividualCore.NewIndividualCoreManager name topo resv)).2) in *.
  simpl in Hn. rewrite <-Hname in Hidx.
  rewrite individual_resolve_success.
  - unfold resultsOf. rewrite filter_cons, Hn, decide_True by done.
    cbn [filter list_filter omap list_omap app]. rewrite Hidx.
    cbn [list_to_set foldr]. f_equal.
    apply set_eq. intros x. rewrite elem_of_union, elem_of_singleton.
    split; [intros [?|?%not_elem_of_empty]; done | by left].
  - intros a ->%list_elem_of_singleton _. by rewrite Hidx.
Qed.

(** A sample for X2: the device cpudev001 of the two-core topology. *)
Lemma individual_device_resolves_witness :
  let r := IndividualCore.CreateSlices (visitOf topoTwoCores)
             (IndividualCore.NewIndividualCoreManager "dra.cpu" topoTwoCores ∅) in
  let dev := IndividualCore.cpuDevice 1 (mkCPUInfo 2 0 0 0 0 0 "performance") in
  let alloc := mkAllocResult "request" "dra.cpu" "node" "cpudev001" ∅ in
  dev ∈ concat r.1
  ∧ ∃ cpu, Attributes dev !! "dra.cpu/cpuID" = Some (IntValue cpu)
           ∧ IndividualCore.AllocateCPUs r.2 (claimOf [alloc]) = Returned ({[cpu]}, None).
Proof.
  intros r dev alloc.
  assert (dev ∈ concat r.1) as Hdev.
  { apply (list_elem_of_lookup_2 _ 1%nat). vm_compute. reflexivity. }
  split; [exact Hdev|].
  exact (individual_device_resolves "dra.cpu" topoTwoCores ∅ (visitOf topoTwoCores)
           dev (claimOf [alloc]) alloc Hdev eq_refl eq_refl eq_refl).
Defined.

Lemma individual_index_lookup name topo resv visit n x :
  IndividualCore.deviceNameToCPUID
    (IndividualCore.CreateSlices visit
       (IndividualCore.NewIndividualCoreManager name topo resv)).2 !! n = Some x
  ↔ ∃ i c, concat (IndividualCore.coreGroups visit resv) !! i = Some c
           ∧ n = deviceNameOf cpuDevicePrefix (Z.of_nat i) ∧ x = CpuID c.
Proof.
  set (cpus := concat (IndividualCore.coreGroups visit resv)).
  rewrite individual_index. simpl. fold cpus. split.
  - intros Hl.
    destruct (decide (n ∈ (λ i, deviceNameOf cpuDevicePrefix (0 + Z.of_nat i))
                          <$> seq 0 (length cpus))) as [Hin|Hnin].
    + apply list_elem_of_fmap in Hin as (i & -> & Hi%elem_of_seq).
      destruct (lookup_lt_is_Some_2 cpus i) as [c Hc]; [lia|].
      rewrite (IndividualCoreFacts.emit_index_lookup cpus 0 ∅ [] i c Hc) in Hl.
      injection Hl as <-. exists i, c. by rewrite Z.add_0_l.
    + rewrite IndividualCoreFacts.emit_index_other in Hl; [by rewrite lookup_empty in Hl|].
      intros i Hi ->. apply Hnin. apply list_elem_of_fmap. exists i.
      split; [done|]. apply elem_of_seq. lia.
  - intros (i & c & Hc & -> & ->).
    pose proof (IndividualCoreFacts.emit_index_lookup cpus 0 ∅ [] i c Hc) as Hl.
    by rewrite Z.add_0_l in Hl.
Qed.

(** X3.  On a well-formed topology, a claim whose results for this driver
    name the devices of the catalog, all of them and no other name, is
    resolved to the set of all CPUs of the topology that are not reserved. *)
Theorem individual_whole_catalog_resolves
    (name : string) (topo : CPUTopology) (resv : CPUSet) (visit : list CPUInfo)
    (claim : ResourceClaim) (results : list DeviceRequestAllocationResult) :
  let r := IndividualCore.CreateSlices visit
             (IndividualCore.NewIndividualCoreManager name topo resv) in
  wf_topology (CPUDetails topo) → range_of (CPUDetails topo) visit →
  Allocation claim = Some results →
  (∀ n, n ∈ Device_ <$> resultsOf name results ↔ n ∈ Name <$> concat r.1) →
  IndividualCore.AllocateCPUs r.2 claim
  = Returned (dom (CPUDetails topo) ∖ resv, None).
Proof.
  intros r Hwf Hr Hclaim Hnames. unfold r in *. clear r.
  destruct (individual_fixed_fields visit
              (IndividualCore.NewIndividualCoreManager name topo resv)) as (Hn & _ & _).
  simpl in Hn.
  set (cpus := concat (IndividualCore.coreGroups visit resv)).
  assert (cpus ≡ₚ availableCPUs (CPUDetails topo) resv) as Hperm.
  { unfold cpus. rewrite (coreGroups_spec _ resv Hwf visit Hr).
    by apply specGroups_perm. }
  assert (concat (IndividualCore.CreateSlices visit
                    (IndividualCore.NewIndividualCoreManager name topo resv)).1
          = numbered 0 cpus) as Hdev
    by apply IndividualCoreFacts.CreateSlices_devices.
  assert (∀ n, n ∈ Name <$> concat (IndividualCore.CreateSlices visit
                    (IndividualCore.NewIndividualCoreManager name topo resv)).1
               ↔ ∃ i, (i < length cpus)%nat ∧ n = deviceNameOf cpuDevicePrefix (Z.of_nat i))
    as Hcat.
  { intros n. rewrite Hdev, numbered_names, list_elem_of_fmap.
    setoid_rewrite elem_of_seq. setoid_rewrite Z.add_0_l.
    split; intros (i & ? & ?); exists i; (split; [done || lia | done || lia]). }
  unfold IndividualCore.AllocateCPUs. rewrite Hclaim. f_equal.
  rewrite individual_resolve_success.
  - f_equal. rewrite Hn. simpl. apply set_eq. intros x.
    rewrite elem_of_list_to_set, list_elem_of_omap, elem_of_difference, elem_of_dom.
    setoid_rewrite (individual_index_lookup name topo resv visit). fold cpus. split.
    + intros (a & _ & i & c & Hc & _ & ->).
      apply list_elem_of_lookup_2 in Hc. rewrite Hperm in Hc.
      apply (availableCPUs_elem _ resv Hwf) in Hc as [Hc Hcr]. eauto.
    + intros [[c Hc] Hxr]. destruct (wf_lookup _ Hwf _ _ Hc) as [Hid _].
      assert (c ∈ cpus) as Hin.
      { rewrite Hperm. apply (availableCPUs_elem _ resv Hwf). by rewrite Hid. }
      apply list_elem_of_lookup in Hin as [i Hi].
      assert (deviceNameOf cpuDevicePrefix (Z.of_nat i)
              ∈ Device_ <$> resultsOf name results) as Ha.
      { apply Hnames, Hcat. exists i. split; [|done]. by eapply lookup_lt_Some. }
      apply list_elem_of_fmap in Ha as (a & Ha & Hain).
      exists a. split; [done|]. exists i, c. by rewrite <-Ha.
  - intros a Hain Hd.
    assert (Device_ a ∈ Name <$> concat (IndividualCore.CreateSlices visit
                    (IndividualCore.NewIndividualCoreManager name topo resv)).1) as Hin.
    { apply Hnames. apply list_elem_of_fmap_2.
      apply list_elem_of_filter. by rewrite Hn in Hd. }
    apply Hcat in Hin as (i & Hi & Hname).
    destruct (lookup_lt_is_Some_2 cpus i Hi) as [c Hc].
    exists (CpuID c).
    apply (individual_index_lookup name topo resv visit). eauto.
Qed.

(** A sample for X3: a claim for the four devices of the two-core topology,
    with a result of another driver among them. *)
Lemma individual_whole_catalog_resolves_witness :
  let r := IndividualCore.CreateSlices (visitOf topoTwoCores)
             (IndividualCore.NewIndividualCoreManager "dra.cpu" topoTwoCores ∅) in
  let results :=
    [mkAllocResult "r" "dra.cpu" "node" "cpudev003" ∅;
     mkAllocResult "r" "gpu.example.com" "node" "gpu-0" ∅;
     mkAllocResult "r" "dra.cpu" "node" "cpudev000" ∅;
     mkAllocResult "r" "dra.cpu" "node" "cpudev001" ∅;
     mkAllocResult "r" "dra.cpu" "node" "cpudev002" ∅] in
  wf_topology (CPUDetails topoTwoCores)
  ∧ range_of (CPUDetails topoTwoCores) (visitOf topoTwoCores)
  ∧ (∀ n, n ∈ Device_ <$> resultsOf "dra.cpu" results ↔ n ∈ Name <$> concat r.1)
  ∧ IndividualCore.AllocateCPUs r.2 (claimOf results)
    = Returned (dom (CPUDetails topoTwoCores) ∖ ∅, None).
Proof.
  intros r results.
  assert (wf_topology (CPUDetails topoTwoCores)) as Hwf
    by (apply (bool_decide_unpack _); vm_compute; exact I).
  assert (range_of (CPUDetails topoTwoCores) (visitOf topoTwoCores)) as Hr
    by (unfold range_of, visitOf; reflexivity).
  assert (∀ n, n ∈ Device_ <$> resultsOf "dra.cpu" results ↔ n ∈ Name <$> concat r.1)
    as Hnames.
  { intros n.
    assert (Device_ <$> resultsOf "dra.cpu" results
            = ["cpudev003"; "cpudev000"; "cpudev001"; "cpudev002"]) as ->
      by (vm_compute; reflexivity).
    assert (Name <$> concat r.1 = ["cpudev000"; "cpudev001"; "cpudev002"; "cpudev003"])
      as -> by (vm_compute; reflexivity).
    rewrite !elem_of_cons, !elem_of_nil. tauto. }
  split_and!; [exact Hwf | exact Hr | exact Hnames |].
  exact (individual_whole_catalog_resolves "dra.cpu" topoTwoCores ∅ (visitOf topoTwoCores)
           (claimOf results) results Hwf Hr eq_refl Hnames).
Defined.

(** X4.  The CPU set the Individual-Core manager resolves a claim to does
    not depend on the order of the allocation results: two claims whose
    results are arrangements of one another get the same CPU set, and one
    fails exactly when the other does. *)
Theorem individual_resolution_order_free
    (mgr : IndividualCore.Manager) (claim1 claim2 : ResourceClaim)
    (results1 results2 : list DeviceRequestAllocationResult) :
  Allocation claim1 = Some results1 → Allocation claim2 = Some results2 →
  results1 ≡ₚ results2 →
  ∃ cpus e1 e2,
    IndividualCore.AllocateCPUs mgr claim1 = Returned (cpus, e1)
    ∧ IndividualCore.AllocateCPUs mgr claim2 = Returned (cpus, e2)
    ∧ (e1 = None ↔ e2 = None).
Proof.
  intros H1 H2 Hperm. unfold IndividualCore.AllocateCPUs. rewrite H1, H2.
  destruct (decide (Exists (λ a, Driver a = IndividualCore.driverName mgr
                                 ∧ IndividualCore.deviceNameToCPUID mgr !! Device_ a = None)
                           results1)) as [Hex|Hall].
  - apply Exists_exists in Hex as (a & Hin & Hd & Hmiss).
    destruct (individual_resolve_missing mgr results1 [] a Hin Hd Hmiss) as [e1 ->].
    rewrite Hperm in Hin.
    destruct (individual_resolve_missing mgr results2 [] a Hin Hd Hmiss) as [e2 ->].
    exists ∅, (Some e1), (Some e2). split_and!; [done..|]. split; discriminate.
  - assert (∀ a, a ∈ results1 → Driver a = IndividualCore.driverName mgr →
                 is_Some (IndividualCore.deviceNameToCPUID mgr !! Device_ a)) as Hok.
    { intros a Hin Hd.
      destruct (IndividualCore.deviceNameToCPUID mgr !! Device_ a) eqn:Hl; [eauto|].
      destruct Hall. apply Exists_exists. eauto. }
    rewrite (individual_resolve_success mgr results1) by done.
    rewrite (individual_resolve_success mgr results2)
      by (intros a Hin; apply Hok; by rewrite Hperm).
    eexists _, None, None. split_and!; [done| |done].
    do 2 f_equal. apply set_eq. intros x. simpl.
    rewrite !elem_of_list_to_set, !list_elem_of_omap. unfold resultsOf.
    setoid_rewrite list_elem_of_filter. by setoid_rewrite Hperm.
Qed.

(** A sample for X4: two results in both orders. *)
Lemma individual_resolution_order_free_witness :
  let a := mkAllocResult "r" "dra.cpu" "node" "cpudev000" ∅ in
  let b := mkAllocResult "r" "dra.cpu" "node" "cpudev003" ∅ in
  [a; b] ≡ₚ [b; a]
  ∧ ∃ cpus e1 e2,
      IndividualCore.AllocateCPUs individualManagerTwoCores (claimOf [a; b])
      = Returned (cpus, e1)
      ∧ IndividualCore.AllocateCPUs individualManagerTwoCores (claimOf [b; a])
        = Returned (cpus, e2)
      ∧ (e1 = None ↔ e2 = None).
Proof.
  intros a b.
  assert ([a; b] ≡ₚ [b; a]) as Hperm by apply Permutation_swap.
  split; [exact Hperm|].
  exact (individual_resolution_order_free individualManagerTwoCores
           (claimOf [a; b]) (claimOf [b; a]) [a; b] [b; a] eq_refl eq_refl Hperm).
Defined.

(** ** Creating the catalog again *)

Lemma emit_index_again cpus index :
  (foldl IndividualCore.emitStep
     (0, (foldl IndividualCore.emitStep (0, index, []) cpus).1.2, []) cpus).1.2
  = (foldl IndividualCore.emitStep (0, index, []) cpus).1.2.
Proof.
  apply map_eq. intros n.
  destruct (decide (n ∈ (λ i, deviceNameOf cpuDevicePrefix (0 + Z.of_nat i))
                        <$> seq 0 (length cpus))) as [Hin|Hnin].
  - apply list_elem_of_fmap in Hin as (i & -> & Hi%elem_of_seq).
    destruct (lookup_lt_is_Some_2 cpus i) as [c Hc]; [lia|].
    by rewrite !(IndividualCoreFacts.emit_index_lookup cpus 0 _ [] i c Hc).
  - rewrite IndividualCoreFacts.emit_index_other; [done|].
    intros i Hi ->. apply Hnin. apply list_elem_of_fmap. exists i.
    split; [done|]. apply elem_of_seq. lia.
Qed.

Lemma indexInsert_other_name prefix index ids n :
  n ∉ deviceNameOf prefix <$> ids → indexInsert prefix index ids !! n = index !! n.
Proof.
  unfold indexInsert. revert index. induction ids as [|a ids IH]; intros index Hn; [done|].
  rewrite fmap_cons in Hn. apply not_elem_of_cons in Hn as [Hne Hn]. simpl.
  rewrite IH by done. by apply lookup_insert_ne.
Qed.

Lemma indexInsert_again prefix index ids :
  indexInsert prefix (indexInsert prefix index ids) ids = indexInsert prefix index ids.
Proof.
  apply map_eq. intros n.
  destruct (decide (n ∈ deviceNameOf prefix <$> ids)) as [Hin|Hnin].
  - apply list_elem_of_fmap in Hin as (id & -> & Hid).
    by rewrite !indexInsert_lookup.
  - by rewrite indexInsert_other_name.
Qed.

(** X5.  Creating the catalog a second time changes nothing: with the same
    orders of the runtime, [CreateSlices] applied to the manager that a
    first [CreateSlices] left returns the same slices and leaves the same
    manager, index included.  This holds of the three managers and of
    every topology. *)
Theorem catalog_creation_idempotent :
  (∀ visit (mgr : IndividualCore.Manager),
     IndividualCore.CreateSlices visit (IndividualCore.CreateSlices visit mgr).2
     = IndividualCore.CreateSlices visit mgr)
  ∧ (∀ mgr : SocketGrouped.Manager,
       SocketGrouped.CreateSlices (SocketGrouped.CreateSlices mgr).2
       = SocketGrouped.CreateSlices mgr)
  ∧ (∀ ul (mgr : NUMAGrouped.Manager),
       NUMAGrouped.CreateSlices ul (NUMAGrouped.CreateSlices ul mgr).2
       = NUMAGrouped.CreateSlices ul mgr).
Proof.
  split_and!.
  - intros visit mgr.
    pose proof (individual_index visit mgr) as Hidx.
    destruct (individual_fixed_fields visit mgr) as (Hn & Ht & Hr).
    set (mgr1 := (IndividualCore.CreateSlices visit mgr).2) in *.
    unfold IndividualCore.CreateSlices at 1. rewrite Hn, Ht, Hr, Hidx.
    rewrite !IndividualCoreFacts.emit_concat.
    set (cpus := concat (IndividualCore.coreGroups visit (IndividualCore.reservedCPUs mgr))).
    pose proof (emit_index_again cpus (IndividualCore.deviceNameToCPUID mgr)) as Hagain.
    pose proof (IndividualCoreFacts.emit_devices cpus 0
                  (foldl IndividualCore.emitStep
                     (0, IndividualCore.deviceNameToCPUID mgr, []) cpus).1.2 []) as Hd2.
    destruct (foldl IndividualCore.emitStep (0, (foldl _ _ cpus).1.2, []) cpus)
      as [[n2 idx2] devs2].
    simpl in Hagain, Hd2. subst idx2 devs2.
    unfold IndividualCore.CreateSlices. rewrite IndividualCoreFacts.emit_concat.
    fold cpus.
    pose proof (IndividualCoreFacts.emit_devices cpus 0
                  (IndividualCore.deviceNameToCPUID mgr) []) as Hd1.
    destruct (foldl IndividualCore.emitStep (0, _, []) cpus) as [[n1 idx1] devs1].
    simpl in Hd1. subst devs1. simpl. by case_decide.
  - intros mgr. rewrite !socket_CreateSlices. simpl.
    assert (eligibleSockets
              (SocketGrouped.mkManager (SocketGrouped.driverName mgr)
                 (SocketGrouped.cpuTopology mgr) (SocketGrouped.reservedCPUs mgr)
                 (SocketGrouped.getSharedCPUs mgr)
                 (indexInsert cpuDeviceSocketGroupedPrefix
                    (SocketGrouped.deviceNameToSocketID mgr) (eligibleSockets mgr)))
            = eligibleSockets mgr) as -> by done.
    by rewrite indexInsert_again.
  - intros ul mgr. rewrite !numa_CreateSlices. simpl.
    assert (eligibleNUMANodes
              (NUMAGrouped.mkManager (NUMAGrouped.driverName mgr)
                 (NUMAGrouped.cpuTopology mgr) (NUMAGrouped.reservedCPUs mgr)
                 (NUMAGrouped.getSharedCPUs mgr)
                 (indexInsert cpuDeviceNUMAGroupedPrefix
                    (NUMAGrouped.deviceNameToNUMANodeID mgr) (eligibleNUMANodes mgr)))
            = eligibleNUMANodes mgr) as -> by done.
    by rewrite indexInsert_again.
Qed.

(** ** Attributes, capacity and index of the grouped catalogs *)

(** X6.  Every device of a Socket-Grouped catalog publishes as
    dra.cpu/socketID the socket ID its name resolves to in the index, as
    dra.cpu/numCPUs the same number as its capacity dra.cpu/cpu, which is
    the number of non-reserved CPUs of the socket and at least 1, and as
    dra.cpu/smtEnabled the flag of the topology.  Every device of a
    NUMA-Grouped catalog publishes as dra.cpu/numaNodeID the node ID its
    name resolves to, dra.cpu/numCPUs and capacity as above, and as
    dra.cpu/socketID the socket ID of a non-reserved CPU of that node. *)
Theorem grouped_attributes_agree :
  (∀ (mgr : SocketGrouped.Manager) dev,
     let r := SocketGrouped.CreateSlices mgr in
     let d := CPUDetails (SocketGrouped.cpuTopology mgr) in
     dev ∈ concat r.1 →
     ∃ id n,
       SocketGrouped.deviceNameToSocketID r.2 !! Name dev = Some id
       ∧ Attributes dev !! "dra.cpu/socketID" = Some (IntValue id)
       ∧ Attributes dev !! "dra.cpu/numCPUs" = Some (IntValue n)
       ∧ Capacity dev !! "dra.cpu/cpu" = Some n
       ∧ n = CPUSet_Size (CPUsInSockets d id ∖ SocketGrouped.reservedCPUs mgr)
       ∧ 1 ≤ n
       ∧ Attributes dev !! "dra.cpu/smtEnabled"
         = Some (BoolValue (SMTEnabled (SocketGrouped.cpuTopology mgr))))
  ∧ (∀ ul (mgr : NUMAGrouped.Manager) dev,
       let r := NUMAGrouped.CreateSlices ul mgr in
       let d := CPUDetails (NUMAGrouped.cpuTopology mgr) in
       unsorted_list_of ul →
       dev ∈ concat r.1 →
       ∃ id n k c,
         NUMAGrouped.deviceNameToNUMANodeID r.2 !! Name dev = Some id
         ∧ Attributes dev !! "dra.cpu/numaNodeID" = Some (IntValue id)
         ∧ Attributes dev !! "dra.cpu/numCPUs" = Some (IntValue n)
         ∧ Capacity dev !! "dra.cpu/cpu" = Some n
         ∧ n = CPUSet_Size (CPUsInNUMANodes d id ∖ NUMAGrouped.reservedCPUs mgr)
         ∧ 1 ≤ n
         ∧ d !! k = Some c ∧ NUMANodeID c = id ∧ k ∉ NUMAGrouped.reservedCPUs mgr
         ∧ Attributes dev !! "dra.cpu/socketID" = Some (IntValue (SocketID c))).
Proof.
  assert (∀ X : CPUSet, CPUSet_Size X ≠ 0 → 1 ≤ CPUSet_Size X) as Hpos
    by (unfold CPUSet_Size; intros; lia).
  split.
  - intros mgr dev r d Hdev. unfold r in *. rewrite socket_devices in Hdev.
    apply list_elem_of_fmap in Hdev as (id & -> & Hid).
    exists id, (CPUSet_Size (socketAllocatable mgr id)).
    rewrite socket_CreateSlices. cbn [snd SocketGrouped.deviceNameToSocketID].
    split_and!; try done;
      try (by apply indexInsert_lookup); try (by apply lookup_singleton_eq).
    apply Hpos. by apply list_elem_of_filter in Hid as [? _].
  - intros ul mgr dev r d Hul Hdev. unfold r in *. rewrite numa_devices in Hdev.
    apply list_elem_of_fmap in Hdev as (id & -> & Hid).
    destruct (numaSocketID_member ul mgr id Hul Hid) as (k & c & Hc & Hn & Hk & Hsock).
    exists id, (CPUSet_Size (numaAllocatable mgr id)), k, c.
    rewrite numa_CreateSlices. cbn [snd NUMAGrouped.deviceNameToNUMANodeID].
    split_and!; try done;
      try (by apply indexInsert_lookup); try (by apply lookup_singleton_eq);
      try (simpl; by rewrite Hsock).
    apply Hpos. by apply list_elem_of_filter in Hid as [? _].
Qed.

(** A sample for X6: the NUMA-Grouped catalog of the two-core topology with
    CPU 2 reserved. *)
Lemma grouped_attributes_agree_witness :
  let mgr := NUMAGrouped.NewNUMAGroupedManager "dra.cpu" topoTwoCores {[2]} (λ _, ∅) in
  let dev := numaDevice mgr 0 0 in
  unsorted_list_of listAscending
  ∧ dev ∈ concat (NUMAGrouped.CreateSlices listAscending mgr).1
  ∧ ∃ id n k c,
      NUMAGrouped.deviceNameToNUMANodeID (NUMAGrouped.CreateSlices listAscending mgr).2
        !! Name dev = Some id
      ∧ Attributes dev !! "dra.cpu/numaNodeID" = Some (IntValue id)
      ∧ Attributes dev !! "dra.cpu/numCPUs" = Some (IntValue n)
      ∧ Capacity dev !! "dra.cpu/cpu" = Some n
      ∧ n = CPUSet_Size (CPUsInNUMANodes (CPUDetails topoTwoCores) id ∖ {[2]})
      ∧ 1 ≤ n
      ∧ CPUDetails topoTwoCores !! k = Some c ∧ NUMANodeID c = id ∧ k ∉ ({[2]} : CPUSet)
      ∧ Attributes dev !! "dra.cpu/socketID" = Some (IntValue (SocketID c)).
Proof.
  intros mgr dev.
  assert (dev ∈ concat (NUMAGrouped.CreateSlices listAscending mgr).1) as Hdev.
  { apply (list_elem_of_lookup_2 _ 0%nat). vm_compute. reflexivity. }
  split_and!; [exact listAscending_valid | exact Hdev |].
  exact (proj2 grouped_attributes_agree listAscending mgr dev listAscending_valid Hdev).
Defined.

(** ** The compatibility attribute *)


(** ** The capacity of a grouped catalog *)

Lemma sum_of_sizes (A : Z → CPUSet) (l : list Z) :
  NoDup l → (∀ i j, i ≠ j → A i ## A j) →
  foldr (λ id acc, CPUSet_Size (A id) + acc) 0 l = CPUSet_Size (⋃ (A <$> l)).
Proof.
  intros Hnd Hdisj. induction Hnd as [|a l Ha Hnd IH].
  - simpl. by rewrite CPUSet_Size_empty.
  - cbn [foldr]. rewrite IH. rewrite fmap_cons, union_list_cons.
    unfold CPUSet_Size. rewrite size_union; [lia|].
    intros x Hx (X & (j & -> & Hj)%list_elem_of_fmap & HxX)%elem_of_union_list.
    assert (a ≠ j) as Hne by (by intros ->).
    by apply (Hdisj a j Hne x).
Qed.

Lemma sum_of_nonzero_sizes (A : Z → CPUSet) (l : list Z) :
  foldr (λ id acc, CPUSet_Size (A id) + acc) 0
        (filter (λ id, CPUSet_Size (A id) ≠ 0) l)
  = foldr (λ id acc, CPUSet_Size (A id) + acc) 0 l.
Proof.
  induction l as [|a l IH]; [done|].
  rewrite filter_cons. case_decide as Hz; cbn [foldr]; rewrite IH; [done|].
  destruct (decide (CPUSet_Size (A a) = 0)) as [Heq|?]; [lia | tauto].
Qed.

Lemma totalCapacity_fmap (f : Z → Device) (A : Z → CPUSet) (l : list Z) :
  (∀ id, Capacity (f id) !! cpuResourceQualifiedName = Some (CPUSet_Size (A id))) →
  totalCapacity (f <$> l) = foldr (λ id acc, CPUSet_Size (A id) + acc) 0 l.
Proof.
  intros Hcap. unfold totalCapacity. induction l as [|a l IH]; [done|].
  rewrite fmap_cons. cbn [foldr]. by rewrite IH, Hcap.
Qed.

(** X8.  The capacities of the devices of a Socket-Grouped catalog add up
    to the number of CPUs of the topology that are not reserved, and so do
    those of a NUMA-Grouped catalog: every allocatable CPU is counted in the
    capacity of exactly one device. *)
Theorem grouped_capacity_total :
  (∀ mgr : SocketGrouped.Manager,
     totalCapacity (concat (SocketGrouped.CreateSlices mgr).1)
     = CPUSet_Size (dom (CPUDetails (SocketGrouped.cpuTopology mgr))
                    ∖ SocketGrouped.reservedCPUs mgr))
  ∧ (∀ ul (mgr : NUMAGrouped.Manager),
       totalCapacity (concat (NUMAGrouped.CreateSlices ul mgr).1)
       = CPUSet_Size (dom (CPUDetails (NUMAGrouped.cpuTopology mgr))
                      ∖ NUMAGrouped.reservedCPUs mgr)).
Proof.
  split.
  - intros mgr. rewrite socket_devices.
    rewrite (totalCapacity_fmap _ (socketAllocatable mgr))
      by (intros; apply lookup_singleton_eq).
    unfold eligibleSockets. rewrite sum_of_nonzero_sizes.
    rewrite sum_of_sizes; [|apply CPUSet_List_NoDup|].
    + f_equal. apply set_eq. intros x.
      rewrite elem_of_union_list, elem_of_difference, elem_of_dom. split.
      * intros (X & (id & -> & Hid)%list_elem_of_fmap & Hx).
        unfold socketAllocatable in Hx. apply elem_of_difference in Hx as [Hx Hr].
        apply CPUsInSockets_elem in Hx as (c & Hc & _). eauto.
      * intros [[c Hc] Hr]. exists (socketAllocatable mgr (SocketID c)). split.
        -- apply list_elem_of_fmap_2, CPUSet_List_elem, Sockets_elem. eauto.
        -- unfold socketAllocatable. apply elem_of_difference. split; [|done].
           apply CPUsInSockets_elem. eauto.
    + unfold socketAllocatable.
      intros i j Hij x [Hi _]%elem_of_difference [Hj _]%elem_of_difference.
      apply CPUsInSockets_elem in Hi as (c & Hc & Hic).
      apply CPUsInSockets_elem in Hj as (c' & Hc' & Hjc). congruence.
  - intros ul mgr. rewrite numa_devices.
    rewrite (totalCapacity_fmap _ (numaAllocatable mgr))
      by (intros; apply lookup_singleton_eq).
    unfold eligibleNUMANodes. rewrite sum_of_nonzero_sizes.
    rewrite sum_of_sizes; [|apply CPUSet_List_NoDup|].
    + f_equal. apply set_eq. intros x.
      rewrite elem_of_union_list, elem_of_difference, elem_of_dom. split.
      * intros (X & (id & -> & Hid)%list_elem_of_fmap & Hx).
        unfold numaAllocatable in Hx. apply elem_of_difference in Hx as [Hx Hr].
        apply CPUsInNUMANodes_elem in Hx as (c & Hc & _). eauto.
      * intros [[c Hc] Hr]. exists (numaAllocatable mgr (NUMANodeID c)). split.
        -- apply list_elem_of_fmap_2, CPUSet_List_elem, NUMANodes_elem. eauto.
        -- unfold numaAllocatable. apply elem_of_difference. split; [|done].
           apply CPUsInNUMANodes_elem. eauto.
    + unfold numaAllocatable.
      intros i j Hij x [Hi _]%elem_of_difference [Hj _]%elem_of_difference.
      apply CPUsInNUMANodes_elem in Hi as (c & Hc & Hic).
      apply CPUsInNUMANodes_elem in Hj as (c' & Hc' & Hjc). congruence.
Qed.

(** ** The shared pool during one resolution *)

Lemma socket_resolve_agree take name topo resv g1 g2 index results calls acc :
  (∀ k, (calls ≤ k < calls + length (resultsOf name results))%nat → g1 k = g2 k) →
  SocketGrouped.resolve take (SocketGrouped.mkManager name topo resv g1 index)
    results calls acc
  = SocketGrouped.resolve take (SocketGrouped.mkManager name topo resv g2 index)
      results calls acc.
Proof.
  revert calls acc. induction results as [|a rest IH]; intros calls acc Hg; [done|].
  unfold resultsOf in Hg. rewrite filter_cons in Hg.
  cbn [SocketGrouped.resolve SocketGrouped.driverName
       SocketGrouped.deviceNameToSocketID SocketGrouped.cpuTopology
       SocketGrouped.getSharedCPUs].
  destruct (decide (Driver a = name)) as [Hd|Hd].
  - rewrite !decide_False by tauto. cbn [length] in Hg.
    destruct (index !! Device_ a) as [id|]; [|done].
    rewrite <-(Hg calls) by lia.
    destruct (take _ _ _) as [cur [e|]]; [done|].
    apply IH. intros k Hk. apply Hg. unfold resultsOf in Hk. lia.
  - rewrite !decide_True by done. by apply IH.
Qed.

Lemma numa_resolve_agree take name topo resv g1 g2 index results calls acc :
  (∀ k, (calls ≤ k < calls + length (resultsOf name results))%nat → g1 k = g2 k) →
  NUMAGrouped.resolve take (NUMAGrouped.mkManager name topo resv g1 index)
    results calls acc
  = NUMAGrouped.resolve take (NUMAGrouped.mkManager name topo resv g2 index)
      results calls acc.
Proof.
  revert calls acc. induction results as [|a rest IH]; intros calls acc Hg; [done|].
  unfold resultsOf in Hg. rewrite filter_cons in Hg.
  cbn [NUMAGrouped.resolve NUMAGrouped.driverName
       NUMAGrouped.deviceNameToNUMANodeID NUMAGrouped.cpuTopology
       NUMAGrouped.getSharedCPUs].
  destruct (decide (Driver a = name)) as [Hd|Hd].
  - rewrite !decide_False by tauto. cbn [length] in Hg.
    destruct (index !! Device_ a) as [id|]; [|done].
    rewrite <-(Hg calls) by lia.
    destruct (take _ _ _) as [cur [e|]]; [done|].
    apply IH. intros k Hk. apply Hg. unfold resultsOf in Hk. lia.
  - rewrite !decide_True by done. by apply IH.
Qed.

(** X9.  A grouped manager asks for the shared pool at most once for each
    allocation result of its driver and never for a result of another
    driver: two accessors that give the same answers to the first n calls,
    n being the number of results of the claim for this driver, lead to the
    same outcome of [AllocateCPUs]. *)
Theorem shared_pool_queried_per_result :
  (∀ take name topo resv g1 g2 index claim results,
     Allocation claim = Some results →
     (∀ k, (k < length (resultsOf name results))%nat → g1 k = g2 k) →
     SocketGrouped.AllocateCPUs take
       (SocketGrouped.mkManager name topo resv g1 index) claim
     = SocketGrouped.AllocateCPUs take
         (SocketGrouped.mkManager name topo resv g2 index) claim)
  ∧ (∀ take name topo resv g1 g2 index claim results,
       Allocation claim = Some results →
       (∀ k, (k < length (resultsOf name results))%nat → g1 k = g2 k) →
       NUMAGrouped.AllocateCPUs take
         (NUMAGrouped.mkManager name topo resv g1 index) claim
       = NUMAGrouped.AllocateCPUs take
           (NUMAGrouped.mkManager name topo resv g2 index) claim).
Proof.
  split.
  - intros take name topo resv g1 g2 index claim results Hres Hg.
    unfold SocketGrouped.AllocateCPUs. rewrite Hres. f_equal.
    apply socket_resolve_agree. intros k Hk. apply Hg. lia.
  - intros take name topo resv g1 g2 index claim results Hres Hg.
    unfold NUMAGrouped.AllocateCPUs. rewrite Hres. f_equal.
    apply numa_resolve_agree. intros k Hk. apply Hg. lia.
Qed.

(** A sample for X9: one result of this driver and one of another; the
    accessors differ from the second call on. *)
Lemma shared_pool_queried_per_result_witness :
  let g1 : nat → CPUSet := λ k, if decide (k = 0%nat) then {[0; 1; 2]} else ∅ in
  let g2 : nat → CPUSet := λ _, {[0; 1; 2]} in
  let results := [mkAllocResult "r" "gpu.example.com" "node" "gpu-0" ∅;
                  mkAllocResult "r" "dra.cpu" "node" "cpudevsocket000"
                    {[ cpuResourceQualifiedName := 2 ]}] in
  let index : gmap string Z := {[ "cpudevsocket000" := 0 ]} in
  (∀ k, (k < length (resultsOf "dra.cpu" results))%nat → g1 k = g2 k)
  ∧ SocketGrouped.AllocateCPUs takeLowest
      (SocketGrouped.mkManager "dra.cpu" topoTwoCores ∅ g1 index) (claimOf results)
    = SocketGrouped.AllocateCPUs takeLowest
        (SocketGrouped.mkManager "dra.cpu" topoTwoCores ∅ g2 index) (claimOf results).
Proof.
  intros g1 g2 results index.
  assert (∀ k, (k < length (resultsOf "dra.cpu" results))%nat → g1 k = g2 k) as Hg.
  { intros k Hk. assert (k = 0%nat) as -> by (vm_compute in Hk; lia). reflexivity. }
  split; [exact Hg|].
  exact (proj1 shared_pool_queried_per_result takeLowest "dra.cpu" topoTwoCores ∅
           g1 g2 index (claimOf results) results eq_refl Hg).
Defined.

Lemma socket_resolve_const take mgr pool results calls calls' acc :
  (∀ k, SocketGrouped.getSharedCPUs mgr k = pool) →
  SocketGrouped.resolve take mgr results calls acc
  = SocketGrouped.resolve take mgr results calls' acc.
Proof.
  intros Hg. revert calls calls' acc.
  induction results as [|a rest IH]; intros calls calls' acc; [done|].
  cbn [SocketGrouped.resolve]. case_decide; [apply IH|].
  destruct (_ !! Device_ a) as [id|]; [|done].
  rewrite (Hg calls), (Hg calls').
  destruct (take _ _ _) as [cur [e|]]; [done | apply IH].
Qed.

Lemma numa_resolve_const take mgr pool results calls calls' acc :
  (∀ k, NUMAGrouped.getSharedCPUs mgr k = pool) →
  NUMAGrouped.resolve take mgr results calls acc
  = NUMAGrouped.resolve take mgr results calls' acc.
Proof.
  intros Hg. revert calls calls' acc.
  induction results as [|a rest IH]; intros calls calls' acc; [done|].
  cbn [NUMAGrouped.resolve]. case_decide; [apply IH|].
  destruct (_ !! Device_ a) as [id|]; [|done].
  rewrite (Hg calls), (Hg calls').
  destruct (take _ _ _) as [cur [e|]]; [done | apply IH].
Qed.

Lemma socket_resolve_duplicate take mgr pool a rest calls acc :
  (∀ k, SocketGrouped.getSharedCPUs mgr k = pool) →
  SocketGrouped.resolve take mgr (a :: a :: rest) calls acc
  = SocketGrouped.resolve take mgr (a :: rest) calls acc.
Proof.
  intros Hg. cbn [SocketGrouped.resolve]. case_decide; [done|].
  destruct (_ !! Device_ a) as [id|]; [|done].
  rewrite (Hg calls), (Hg (S calls)).
  destruct (take _ _ _) as [cur [e|]]; [done|].
  rewrite (socket_resolve_const take mgr pool rest (S (S calls)) (S calls)) by done.
  f_equal. set_solver.
Qed.

Lemma numa_resolve_duplicate take mgr pool a rest calls acc :
  (∀ k, NUMAGrouped.getSharedCPUs mgr k = pool) →
  NUMAGrouped.resolve take mgr (a :: a :: rest) calls acc
  = NUMAGrouped.resolve take mgr (a :: rest) calls acc.
Proof.
  intros Hg. cbn [NUMAGrouped.resolve]. case_decide; [done|].
  destruct (_ !! Device_ a) as [id|]; [|done].
  rewrite (Hg calls), (Hg (S calls)).
  destruct (take _ _ _) as [cur [e|]]; [done|].
  rewrite (numa_resolve_const take mgr pool rest (S (S calls)) (S calls)) by done.
  f_equal. set_solver.
Qed.

Lemma socket_resolve_prefix take mgr pre l1 l2 :
  (∀ calls acc, SocketGrouped.resolve take mgr l1 calls acc
                = SocketGrouped.resolve take mgr l2 calls acc) →
  ∀ calls acc, SocketGrouped.resolve take mgr (pre ++ l1) calls acc
               = SocketGrouped.resolve take mgr (pre ++ l2) calls acc.
Proof.
  intros Heq. induction pre as [|a pre IH]; intros calls acc; [apply Heq|].
  cbn [app SocketGrouped.resolve]. case_decide; [apply IH|].
  destruct (_ !! Device_ a) as [id|]; [|done].
  destruct (take _ _ _) as [cur [e|]]; [done | apply IH].
Qed.

Lemma numa_resolve_prefix take mgr pre l1 l2 :
  (∀ calls acc, NUMAGrouped.resolve take mgr l1 calls acc
                = NUMAGrouped.resolve take mgr l2 calls acc) →
  ∀ calls acc, NUMAGrouped.resolve take mgr (pre ++ l1) calls acc
               = NUMAGrouped.resolve take mgr (pre ++ l2) calls acc.
Proof.
  intros Heq. induction pre as [|a pre IH]; intros calls acc; [apply Heq|].
  cbn [app NUMAGrouped.resolve]. case_decide; [apply IH|].
  destruct (_ !! Device_ a) as [id|]; [|done].
  destruct (take _ _ _) as [cur [e|]]; [done | apply IH].
Qed.

(** X10.  While the shared pool accessor keeps giving the same answer, a
    grouped manager resolves an allocation result that directly repeats the
    one before it to the CPUs already selected: the claim gets the same CPU
    set, or the same error, as without the repetition.  Two results of one
    claim for the same device and count do not get distinct CPUs. *)
Theorem repeated_result_adds_nothing :
  (∀ take mgr pool claim claim' pre a rest,
     (∀ k, SocketGrouped.getSharedCPUs mgr k = pool) →
     Allocation claim = Some (pre ++ a :: a :: rest) →
     Allocation claim' = Some (pre ++ a :: rest) →
     SocketGrouped.AllocateCPUs take mgr claim
     = SocketGrouped.AllocateCPUs take mgr claim')
  ∧ (∀ take mgr pool claim claim' pre a rest,
       (∀ k, NUMAGrouped.getSharedCPUs mgr k = pool) →
       Allocation claim = Some (pre ++ a :: a :: rest) →
       Allocation claim' = Some (pre ++ a :: rest) →
       NUMAGrouped.AllocateCPUs take mgr claim
       = NUMAGrouped.AllocateCPUs take mgr claim').
Proof.
  split.
  - intros take mgr pool claim claim' pre a rest Hg H1 H2.
    unfold SocketGrouped.AllocateCPUs. rewrite H1, H2. f_equal.
    apply socket_resolve_prefix. intros calls acc.
    by apply (socket_resolve_duplicate take mgr pool).
  - intros take mgr pool claim claim' pre a rest Hg H1 H2.
    unfold NUMAGrouped.AllocateCPUs. rewrite H1, H2. f_equal.
    apply numa_resolve_prefix. intros calls acc.
    by apply (numa_resolve_duplicate take mgr pool).
Qed.

(** A sample for X10: two results for 2 CPUs of the device of socket 0 while
    the shared pool holds the CPUs 0, 1 and 2: the claim gets the CPUs 0
    and 1. *)
Lemma repeated_result_adds_nothing_witness :
  let a := mkAllocResult "r" "dra.cpu" "node" "cpudevsocket000"
             {[ cpuResourceQualifiedName := 2 ]} in
  (∀ k, SocketGrouped.getSharedCPUs socketManagerThreeFree k = {[0; 1; 2]})
  ∧ SocketGrouped.AllocateCPUs takeLowest socketManagerThreeFree (claimOf [a; a])
    = SocketGrouped.AllocateCPUs takeLowest socketManagerThreeFree (claimOf [a])
  ∧ SocketGrouped.AllocateCPUs takeLowest socketManagerThreeFree (claimOf [a; a])
    = Returned ({[0; 1]}, None).
Proof.
  intros a.
  assert (∀ k, SocketGrouped.getSharedCPUs socketManagerThreeFree k = {[0; 1; 2]})
    as Hg by (intros k; reflexivity).
  split_and!; [exact Hg | | vm_compute; reflexivity].
  exact (proj1 repeated_result_adds_nothing takeLowest socketManagerThreeFree
           {[0; 1; 2]} (claimOf [a; a]) (claimOf [a]) [] a [] Hg eq_refl eq_refl).
Defined.

(** ** Resolving a device of a grouped catalog *)

(** X11.  The name of every device of the catalog a grouped manager
    created resolves in its index: for a claim with a single result of this
    driver that names the device of an eligible socket, [AllocateCPUs] hands
    to the packing primitive the first answer of the shared pool accessor
    restricted to the CPUs of that socket, with the count the result carries
    under dra.cpu/cpu (0 without one), and returns the selection of the
    primitive, or its error with the empty set.  The same holds of the
    NUMA-Grouped manager. *)
Theorem grouped_device_resolves :
  (∀ take (mgr : SocketGrouped.Manager) id claim alloc,
     id ∈ eligibleSockets mgr →
     Allocation claim = Some [alloc] →
     Driver alloc = SocketGrouped.driverName mgr →
     Device_ alloc = deviceNameOf cpuDeviceSocketGroupedPrefix id →
     SocketGrouped.AllocateCPUs take (SocketGrouped.CreateSlices mgr).2 claim
     = Returned
         (match take (SocketGrouped.cpuTopology mgr)
                  (SocketGrouped.getSharedCPUs mgr 0
                   ∩ CPUsInSockets (CPUDetails (SocketGrouped.cpuTopology mgr)) id)
                  (requestedCPUs alloc) with
          | (_, Some e) => (∅, Some e)
          | (cur, None) => (cur, None)
          end))
  ∧ (∀ take ul (mgr : NUMAGrouped.Manager) id claim alloc,
       id ∈ eligibleNUMANodes mgr →
       Allocation claim = Some [alloc] →
       Driver alloc = NUMAGrouped.driverName mgr →
       Device_ alloc = deviceNameOf cpuDeviceNUMAGroupedPrefix id →
       NUMAGrouped.AllocateCPUs take (NUMAGrouped.CreateSlices ul mgr).2 claim
       = Returned
           (match take (NUMAGrouped.cpuTopology mgr)
                    (NUMAGrouped.getSharedCPUs mgr 0
                     ∩ CPUsInNUMANodes (CPUDetails (NUMAGrouped.cpuTopology mgr)) id)
                    (requestedCPUs alloc) with
            | (_, Some e) => (∅, Some e)
            | (cur, None) => (cur, None)
            end)).
Proof.
  assert (∀ X : CPUSet, (if decide (CPUSet_Size (∅ ∪ X) = 0) then (∅, @None error)
                         else (∅ ∪ X, None)) = (X, None)) as Hnorm.
  { intros X. rewrite (left_id_L ∅ (∪)). case_decide as Hz; [|done]. f_equal. symmetry.
    unfold CPUSet_Size in Hz. apply leibniz_equiv, size_empty_inv. lia. }
  split.
  - intros take mgr id claim alloc Hid Hclaim Hd Hname.
    unfold SocketGrouped.AllocateCPUs. rewrite Hclaim. f_equal.
    rewrite socket_CreateSlices.
    cbn [snd SocketGrouped.resolve SocketGrouped.driverName
         SocketGrouped.deviceNameToSocketID SocketGrouped.cpuTopology
         SocketGrouped.getSharedCPUs].
    rewrite decide_False by tauto.
    rewrite Hname, indexInsert_lookup by done.
    fold (requestedCPUs alloc).
    destruct (take _ _ _) as [cur [e|]]; [done | apply Hnorm].
  - intros take ul mgr id claim alloc Hid Hclaim Hd Hname.
    unfold NUMAGrouped.AllocateCPUs. rewrite Hclaim. f_equal.
    rewrite numa_CreateSlices.
    cbn [snd NUMAGrouped.resolve NUMAGrouped.driverName
         NUMAGrouped.deviceNameToNUMANodeID NUMAGrouped.cpuTopology
         NUMAGrouped.getSharedCPUs].
    rewrite decide_False by tauto.
    rewrite Hname, indexInsert_lookup by done.
    fold (requestedCPUs alloc).
    destruct (take _ _ _) as [cur [e|]]; [done | apply Hnorm].
Qed.

(** A sample for X11: 2 CPUs of the device of socket 0 of the two-core
    topology. *)
Lemma grouped_device_resolves_witness :
  let mgr := SocketGrouped.NewSocketGroupedManager "dra.cpu" topoTwoCores ∅
               (λ _, {[0; 1; 2]}) in
  let alloc := mkAllocResult "r" "dra.cpu" "node" "cpudevsocket000"
                 {[ cpuResourceQualifiedName := 2 ]} in
  0 ∈ eligibleSockets mgr
  ∧ SocketGrouped.AllocateCPUs takeLowest (SocketGrouped.CreateSlices mgr).2
      (claimOf [alloc])
    = Returned
        (match takeLowest topoTwoCores
                 ({[0; 1; 2]} ∩ CPUsInSockets (CPUDetails topoTwoCores) 0)
                 (requestedCPUs alloc) with
         | (_, Some e) => (∅, Some e)
         | (cur, None) => (cur, None)
         end).
Proof.
  intros mgr alloc.
  assert (0 ∈ eligibleSockets mgr) as Hid.
  { apply (list_elem_of_lookup_2 _ 0%nat). vm_compute. reflexivity. }
  split; [exact Hid|].
  exact (proj1 grouped_device_resolves takeLowest mgr 0 (claimOf [alloc]) alloc
           Hid eq_refl eq_refl eq_refl).
Defined.

(** ** Empty catalogs and publishing *)

Lemma groupStep_keeps reserved M L P G g :
  g ∈ G → g ∈ (foldl (IndividualCore.groupStep reserved M) (P, G) L).2.
Proof.
  revert P G. induction L as [|c L IH]; intros P G Hg; [done|].
  cbn [foldl]. unfold IndividualCore.groupStep at 2.
  destruct (readBool P (CpuID c)); [by apply IH|].
  destruct (_ || _); apply IH; apply elem_of_app; by left.
Qed.

Lemma individual_catalog_empty visit mgr :
  (IndividualCore.CreateSlices visit mgr).1 = []
  ↔ ∀ c, c ∈ visit → CpuID c ∈ IndividualCore.reservedCPUs mgr.
Proof.
  set (resv := IndividualCore.reservedCPUs mgr).
  remember (filter (λ cpu, readBool (IndividualCore.reservedMap resv) (CpuID cpu) = false)
                   visit) as avail eqn:Havail.
  assert ((∀ c, c ∈ visit → CpuID c ∈ resv) ↔ avail = []) as ->.
  { rewrite Havail. split.
    - intros Hall. apply elem_of_nil_inv. intros c [Hc Hin]%list_elem_of_filter.
      apply readBool_reservedMap_false in Hc. by apply Hc, Hall.
    - intros Hnil c Hin. destruct (decide (CpuID c ∈ resv)) as [|Hn]; [done|].
      assert (c ∈ filter (λ cpu, readBool (IndividualCore.reservedMap resv) (CpuID cpu)
                                  = false) visit) as Hc;
        [|by rewrite Hnil in Hc; apply elem_of_nil in Hc].
      apply list_elem_of_filter. split; [|done].
      by apply readBool_reservedMap_false. }
  assert (concat (IndividualCore.CreateSlices visit mgr).1 = [] ↔ avail = []) as Hcat.
  { rewrite IndividualCoreFacts.CreateSlices_devices. fold resv.
    rewrite <-(length_zero_iff_nil (numbered _ _)), IndividualCoreFacts.numbered_length.
    rewrite length_zero_iff_nil. unfold IndividualCore.coreGroups. rewrite <-Havail.
    split.
    - intros Hnil. destruct (sortSlice CpuID avail) as [|c L] eqn:Hs.
      + apply Permutation_nil_r. by rewrite <-Hs, sortSlice_perm.
      + exfalso.
        assert (c ∈ concat (sortSlice IndividualCore.groupKey
                  (foldl (IndividualCore.groupStep (IndividualCore.reservedMap resv)
                     (foldl (λ m info, <[CpuID info:=info]> m) ∅ visit)) (∅, []) (c :: L)).2))
          as Hc; [|by rewrite Hnil in Hc; apply elem_of_nil in Hc].
        apply list_elem_of_concat.
        cbn [foldl]. unfold IndividualCore.groupStep at 2.
        unfold readBool at 1. rewrite lookup_empty. cbn [default].
        destruct (_ || _).
        * exists [c]. split; [by left|]. rewrite sortSlice_perm.
          apply groupStep_keeps. by left.
        * eexists. split; [by left|]. rewrite sortSlice_perm.
          apply groupStep_keeps. by left.
    - intros ->. done. }
  rewrite <-Hcat. split; [by intros ->|].
  rewrite IndividualCoreFacts.CreateSlices_chunks.
  rewrite Chunk_concat by (unfold maxDevicesPerResourceSlice; lia). by intros ->.
Qed.

Lemma socket_catalog_empty mgr :
  (SocketGrouped.CreateSlices mgr).1 = []
  ↔ dom (CPUDetails (SocketGrouped.cpuTopology mgr)) ⊆ SocketGrouped.reservedCPUs mgr.
Proof.
  rewrite socket_CreateSlices. cbn [fst].
  assert (eligibleSockets mgr = []
          ↔ dom (CPUDetails (SocketGrouped.cpuTopology mgr))
            ⊆ SocketGrouped.reservedCPUs mgr) as <-.
  { split.
    - intros Hnil k [c Hc]%elem_of_dom.
      destruct (decide (k ∈ SocketGrouped.reservedCPUs mgr)) as [|Hn]; [done|].
      assert (SocketID c ∈ eligibleSockets mgr) as Hin;
        [|by rewrite Hnil in Hin; apply elem_of_nil in Hin].
      apply eligibleSockets_elem. split; [apply Sockets_elem; eauto|].
      exists k. split; [apply CPUsInSockets_elem; eauto | done].
    - intros Hsub. apply elem_of_nil_inv.
      intros id (_ & k & (c & Hc & _)%CPUsInSockets_elem & Hk)%eligibleSockets_elem.
      apply Hk, Hsub, elem_of_dom. eauto. }
  case_decide; [done|]. split; [done | by intros ?].
Qed.

Lemma numa_catalog_empty ul mgr :
  (NUMAGrouped.CreateSlices ul mgr).1 = []
  ↔ dom (CPUDetails (NUMAGrouped.cpuTopology mgr)) ⊆ NUMAGrouped.reservedCPUs mgr.
Proof.
  rewrite numa_CreateSlices. cbn [fst].
  assert (eligibleNUMANodes mgr = []
          ↔ dom (CPUDetails (NUMAGrouped.cpuTopology mgr))
            ⊆ NUMAGrouped.reservedCPUs mgr) as <-.
  { split.
    - intros Hnil k [c Hc]%elem_of_dom.
      destruct (decide (k ∈ NUMAGrouped.reservedCPUs mgr)) as [|Hn]; [done|].
      assert (NUMANodeID c ∈ eligibleNUMANodes mgr) as Hin;
        [|by rewrite Hnil in Hin; apply elem_of_nil in Hin].
      apply eligibleNUMANodes_elem. split; [apply NUMANodes_elem; eauto|].
      exists k. split; [apply CPUsInNUMANodes_elem; eauto | done].
    - intros Hsub. apply elem_of_nil_inv.
      intros id (_ & k & (c & Hc & _)%CPUsInNUMANodes_elem & Hk)%eligibleNUMANodes_elem.
      apply Hk, Hsub, elem_of_dom. eauto. }
  case_decide; [done|]. split; [done | by intros ?].
Qed.

Lemma visit_all_reserved (d : gmap Z CPUInfo) (resv : CPUSet) visit :
  keyed_by_id d → range_of d visit →
  (∀ c, c ∈ visit → CpuID c ∈ resv) ↔ dom d ⊆ resv.
Proof.
  intros Hkey Hr. split.
  - intros Hall k [c Hc]%elem_of_dom. rewrite <-(Hkey k c Hc).
    apply Hall. apply (range_of_elem d); [done | eauto].
  - intros Hsub c [k Hk]%(range_of_elem d); [|done].
    rewrite (Hkey k c Hk). apply Hsub, elem_of_dom. eauto.
Qed.

(** X12.  [PublishResources] hands nothing to the kubelet plugin exactly
    when every CPU of the topology is reserved (the topology being filed
    under the CPU IDs); otherwise it publishes one pool, named after the
    node, whose slices hold the chunks [CreateSlices] returned, in their
    order.  The recorded allocations are left as they were. *)
Theorem publish_unless_all_reserved
    (nodeName : string) (visit : list CPUInfo) (UnsortedList : CPUSet → list Z)
    (cp : CPUDriver) :
  let d := CPUDetails (DeviceManager_topology (devMgr cp)) in
  let resv := DeviceManager_reserved (devMgr cp) in
  let published := PublishResources nodeName visit UnsortedList cp in
  keyed_by_id d → range_of d visit →
  (published.1 = None ↔ dom d ⊆ resv)
  ∧ (∀ pools, published.1 = Some pools →
       ∃ slices, pools = {[ nodeName := slices ]}
                 ∧ SliceDevices <$> slices
                   = (DeviceManager_CreateSlices visit UnsortedList (devMgr cp)).1)
  ∧ cpuAllocationStore published.2 = cpuAllocationStore cp.
Proof.
  intros d resv published Hkey Hr.
  assert ((DeviceManager_CreateSlices visit UnsortedList (devMgr cp)).1 = []
          ↔ dom d ⊆ resv) as Hempty.
  { unfold d, resv in *. destruct (devMgr cp) as [mgr|mgr|mgr]; simpl in *.
    - destruct (IndividualCore.CreateSlices visit mgr) as [chunks mgr'] eqn:Hc.
      simpl. replace chunks with (IndividualCore.CreateSlices visit mgr).1
        by (by rewrite Hc).
      rewrite individual_catalog_empty. by apply visit_all_reserved.
    - destruct (SocketGrouped.CreateSlices mgr) as [chunks mgr'] eqn:Hc.
      simpl. replace chunks with (SocketGrouped.CreateSlices mgr).1 by (by rewrite Hc).
      apply socket_catalog_empty.
    - destruct (NUMAGrouped.CreateSlices UnsortedList mgr) as [chunks mgr'] eqn:Hc.
      simpl. replace chunks with (NUMAGrouped.CreateSlices UnsortedList mgr).1
        by (by rewrite Hc).
      apply numa_catalog_empty. }
  unfold published, PublishResources.
  destruct (DeviceManager_CreateSlices visit UnsortedList (devMgr cp))
    as [chunks devMgr'] eqn:Hc.
  simpl in Hempty. split_and!.
  - rewrite <-Hempty. destruct chunks; simpl; split; done.
  - intros pools. destruct chunks as [|chunk chunks]; simpl; [done|].
    intros [= <-]. eexists. split; [done|]. simpl. f_equal.
    rewrite <-list_fmap_compose. apply list_fmap_id.
  - by destruct chunks.
Qed.

(** A sample for X12: the Individual-Core manager of the two-core topology. *)
Lemma publish_unless_all_reserved_witness :
  let cp := mkCPUDriver
              (IndividualCoreMgr
                 (IndividualCore.NewIndividualCoreManager "dra.cpu" topoTwoCores {[2]}))
              ∅ in
  keyed_by_id (CPUDetails topoTwoCores)
  ∧ range_of (CPUDetails topoTwoCores) (visitOf topoTwoCores)
  ∧ ((PublishResources "node-1" (visitOf topoTwoCores) listAscending cp).1 = None
     ↔ dom (CPUDetails topoTwoCores) ⊆ ({[2]} : CPUSet)).
Proof.
  intros cp.
  assert (keyed_by_id (CPUDetails topoTwoCores)) as Hkey
    by (apply (bool_decide_unpack _); vm_compute; exact I).
  assert (range_of (CPUDetails topoTwoCores) (visitOf topoTwoCores)) as Hr
    by (unfold range_of, visitOf; reflexivity).
  split_and!; [exact Hkey | exact Hr |].
  exact (proj1 (publish_unless_all_reserved "node-1" (visitOf topoTwoCores)
                  listAscending cp Hkey Hr)).
Defined.

(** ** Batches of claims *)

Lemma prepareResourceClaim_returns ext cp claim :
  ∃ r cp', prepareResourceClaim ext cp claim = Returned (r, cp')
           ∧ (Allocation claim = None →
              r = {| Devices := [];
                     Err := Some (ErrNoAllocation (Namespace claim) (ClaimName claim)) |}).
Proof.
  unfold prepareResourceClaim.
  destruct (Allocation claim) as [results|] eqn:Hres; [|eauto].
  assert (∃ cpus err,
    DeviceManager_AllocateCPUs (TakeByTopologyNUMAPacked ext) (devMgr cp) claim
    = Returned (cpus, err)) as (cpus & err & ->).
  { destruct (devMgr cp) as [mgr|mgr|mgr]; simpl;
      [unfold IndividualCore.AllocateCPUs
      |unfold SocketGrouped.AllocateCPUs
      |unfold NUMAGrouped.AllocateCPUs];
      rewrite Hres;
      match goal with |- ∃ _ _, Returned ?r = _ => destruct r as [cpus err] eqn:? end;
      eauto. }
  destruct err; [|destruct (cdiAddDevice ext _ _)];
    (eexists _, _; split; [reflexivity | intros [=]]).
Qed.

Lemma prepareLoop_returns ext claims cp result0 :
  ∃ result cp',
    prepareLoop ext cp claims result0 = Returned (result, cp')
    ∧ dom result = dom result0 ∪ list_to_set (UID <$> claims)
    ∧ (∀ uid, uid ∉ UID <$> claims → result !! uid = result0 !! uid)
    ∧ (NoDup (UID <$> claims) → ∀ claim, claim ∈ claims → Allocation claim = None →
       result !! UID claim
       = Some {| Devices := [];
                 Err := Some (ErrNoAllocation (Namespace claim) (ClaimName claim)) |}).
Proof.
  revert cp result0. induction claims as [|claim rest IH]; intros cp result0.
  - exists result0, cp. split_and!; [done|set_solver|done|].
    by intros _ claim ?%elem_of_nil.
  - cbn [prepareLoop].
    destruct (prepareResourceClaim_returns ext cp claim) as (r & cp1 & -> & Hnone).
    destruct (IH cp1 (<[UID claim := r]> result0))
      as (result & cp' & -> & Hdom & Hother & Hunique).
    exists result, cp'. split_and!; [done|..].
    + rewrite Hdom, dom_insert_L, fmap_cons. set_solver.
    + intros uid Huid. rewrite fmap_cons in Huid.
      apply not_elem_of_cons in Huid as [Hne Huid].
      rewrite Hother by done. by apply lookup_insert_ne.
    + intros Hnd claim' Hin Hnil. rewrite fmap_cons in Hnd.
      apply NoDup_cons in Hnd as [Hfresh Hnd].
      apply elem_of_cons in Hin as [->|Hin]; [|by apply Hunique].
      rewrite Hother by done. rewrite lookup_insert_eq. f_equal. by apply Hnone.
Qed.

(** X13.  [PrepareResourceClaims] returns for every batch, with no error
    of its own and with a result under the UID of every claim of the batch
    and under no other key.  A claim without allocation status gets the
    result "has no allocation" (the UIDs of the batch being pairwise
    distinct) and does not keep the claims after it from being prepared. *)
Theorem batch_prepared_claim_by_claim
    (ext : Collaborators) (cp : CPUDriver) (claims : list ResourceClaim) :
  ∃ result cp',
    PrepareResourceClaims ext cp claims = Returned (result, None, cp')
    ∧ dom result = list_to_set (UID <$> claims)
    ∧ (NoDup (UID <$> claims) → ∀ claim, claim ∈ claims → Allocation claim = None →
       result !! UID claim
       = Some {| Devices := [];
                 Err := Some (ErrNoAllocation (Namespace claim) (ClaimName claim)) |}).
Proof.
  unfold PrepareResourceClaims. case_decide as Hlen.
  - apply nil_length_inv in Hlen as ->. exists ∅, cp. split_and!; [done|set_solver|].
    by intros _ claim ?%elem_of_nil.
  - destruct (prepareLoop_returns ext claims cp ∅)
      as (result & cp' & -> & Hdom & _ & Hunique).
    exists result, cp'. split_and!; [done| |done].
    rewrite Hdom, dom_empty_L. set_solver.
Qed.

(** A sample for X13: a claim without allocation status between two claims
    of devices. *)
Lemma batch_prepared_claim_by_claim_witness :
  let cp := mkCPUDriver (IndividualCoreMgr individualManagerTwoCores) ∅ in
  let c1 := mkClaim "default" "first" "uid-1"
              (Some [mkAllocResult "r" "dra.cpu" "node" "cpudev000" ∅]) in
  let c2 := mkClaim "default" "second" "uid-2" None in
  let c3 := mkClaim "default" "third" "uid-3"
              (Some [mkAllocResult "r" "dra.cpu" "node" "cpudev001" ∅]) in
  NoDup (UID <$> [c1; c2; c3]) ∧ c2 ∈ [c1; c2; c3] ∧ Allocation c2 = None
  ∧ ∃ result cp',
      PrepareResourceClaims sampleCollaborators cp [c1; c2; c3]
      = Returned (result, None, cp')
      ∧ dom result = list_to_set (UID <$> [c1; c2; c3])
      ∧ (NoDup (UID <$> [c1; c2; c3]) → ∀ claim, claim ∈ [c1; c2; c3] →
         Allocation claim = None →
         result !! UID claim
         = Some {| Devices := [];
                   Err := Some (ErrNoAllocation (Namespace claim) (ClaimName claim)) |}).
Proof.
  intros cp c1 c2 c3.
  assert (NoDup (UID <$> [c1; c2; c3])) as Hnd
    by (apply (bool_decide_unpack _); vm_compute; exact I).
  split_and!; [exact Hnd | by right; left | reflexivity |].
  exact (batch_prepared_claim_by_claim sampleCollaborators cp [c1; c2; c3]).
Defined.

(** ** The devices and the recorded CPUs of prepared claims *)






(** ** Resolving before the catalog exists *)

(** X15.  A manager that has not created its catalog yet has an empty
    index: [AllocateCPUs] of the manager a constructor returns fails, with
    the empty CPU set, for every claim that holds a result for its
    driver. *)
Theorem resolution_needs_catalog :
  (∀ name topo resv claim results alloc,
     Allocation claim = Some results → alloc ∈ results → Driver alloc = name →
     ∃ e, IndividualCore.AllocateCPUs
            (IndividualCore.NewIndividualCoreManager name topo resv) claim
          = Returned (∅, Some e))
  ∧ (∀ take name topo resv shared claim results alloc,
       Allocation claim = Some results → alloc ∈ results → Driver alloc = name →
       ∃ e, SocketGrouped.AllocateCPUs take
              (SocketGrouped.NewSocketGroupedManager name topo resv shared) claim
            = Returned (∅, Some e))
  ∧ (∀ take name topo resv shared claim results alloc,
       Allocation claim = Some results → alloc ∈ results → Driver alloc = name →
       ∃ e, NUMAGrouped.AllocateCPUs take
              (NUMAGrouped.NewNUMAGroupedManager name topo resv shared) claim
            = Returned (∅, Some e)).
Proof.
  split_and!.
  - intros name topo resv claim results alloc Hres Hin Hd.
    unfold IndividualCore.AllocateCPUs. rewrite Hres.
    destruct (individual_resolve_missing
                (IndividualCore.NewIndividualCoreManager name topo resv)
                results [] alloc Hin Hd (lookup_empty _)) as [e ->].
    eauto.
  - intros take name topo resv shared claim results alloc Hres Hin Hd.
    unfold SocketGrouped.AllocateCPUs. rewrite Hres.
    destruct (socket_resolve_missing take
                (SocketGrouped.NewSocketGroupedManager name topo resv shared)
                results 0 ∅ alloc Hin Hd (lookup_empty _)) as [e ->].
    eauto.
  - intros take name topo resv shared claim results alloc Hres Hin Hd.
    unfold NUMAGrouped.AllocateCPUs. rewrite Hres.
    destruct (numa_resolve_missing take
                (NUMAGrouped.NewNUMAGroupedManager name topo resv shared)
                results 0 ∅ alloc Hin Hd (lookup_empty _)) as [e ->].
    eauto.
Qed.

(** A sample for X15: the device cpudev000 claimed from a fresh manager. *)
Lemma resolution_needs_catalog_witness :
  let alloc := mkAllocResult "r" "dra.cpu" "node" "cpudev000" ∅ in
  alloc ∈ [alloc]
  ∧ ∃ e, IndividualCore.AllocateCPUs
           (IndividualCore.NewIndividualCoreManager "dra.cpu" topoTwoCores ∅)
           (claimOf [alloc])
         = Returned (∅, Some e).
Proof.
  intros alloc.
  assert (alloc ∈ [alloc]) as Hin by (by left).
  split; [exact Hin|].
  exact (proj1 resolution_needs_catalog "dra.cpu" topoTwoCores ∅ (claimOf [alloc])
           [alloc] alloc eq_refl Hin eq_refl).
Defined.
